(** * Flow accumulation from a D8 raster (richdem)

    A shallow embedding of [flow_accumulation_from_d8]
    (include/richdem/methods/flow_accumulation.hpp) and the properties of
    its passes: the dependency-count build pass, the scan for sources, the
    queue-driven propagation loop and the final no-data sweep. *)

From Stdlib Require Import ZArith Lia.
From stdpp Require Import base numbers list list_numbers.

Local Open Scope Z_scope.

(** ** Outcomes

    The function returns a grid.  Two things in its body can stop it before
    that: an [assert] that does not hold, and an index into the neighbour
    offset tables that lies outside their entries (undefined behaviour in
    C++, kept apart here as its own outcome).  [OutOfFuel] belongs to the
    model only: the [while] loop is run with a bound on its iterations. *)

Inductive outcome (A : Type) : Type :=
  | Done (a : A)
  | OutOfBounds
  | AssertFailed
  | OutOfFuel.
Arguments Done {A} a.
Arguments OutOfBounds {A}.
Arguments AssertFailed {A}.
Arguments OutOfFuel {A}.

#[global] Instance outcome_ret : MRet outcome := fun A a => Done a.
#[global] Instance outcome_bind : MBind outcome := fun A B f m =>
  match m with
  | Done a => f a
  | OutOfBounds => OutOfBounds
  | AssertFailed => AssertFailed
  | OutOfFuel => OutOfFuel
  end.

(** A [for] loop over the elements of a list, threading the loop state and
    stopping at the first iteration that does not complete. *)
Fixpoint for_each {A S : Type} (f : A -> S -> outcome S) (l : list A) (s : S)
  : outcome S :=
  match l with
  | [] => Done s
  | a :: l' => s' ← f a s; for_each f l' s'
  end.

(** ** Machine integers *)

(** Conversion to [uint32_t]. *)
Definition to_uint32 (z : Z) : Z := z mod 2 ^ 32.

(** Conversion to [int8_t] (two's complement wrap-around). *)
Definition to_int8 (z : Z) : Z := (z + 128) mod 256 - 128.

(** ** Arrays addressed by a flat cell index *)

Definition rd (l : list Z) (i : Z) : Z := l !!! Z.to_nat i.
Definition wr (l : list Z) (i v : Z) : list Z := <[Z.to_nat i := v]> l.

(** ** The grid *)

(** Modelled from the spec: [Array2D] (richdem/common/Array2D.hpp) is not
    among the sources.  The spec describes it as a dense rectangular array
    with row-major linear indexing and one no-data sentinel. *)
Record Array2D : Type := mkArray2D {
  width : Z;
  height : Z;
  data : list Z;
  noData : Z
}.

(** Modelled from the spec: [Array2D::size], the number of cells of the
    dense rectangular array. *)
Definition size (a : Array2D) : Z := width a * height a.

(** Modelled from the spec: [Array2D::i0], the first cell index of the
    dense array. *)
Definition i0 (a : Array2D) : Z := 0.

(** Modelled from the spec: [Array2D::xyToI], row-major linear indexing. *)
Definition xyToI (a : Array2D) (x y : Z) : Z := y * width a + x.

(** Modelled from the spec: [Array2D::iToxy], the inverse of the row-major
    indexing; [%] and [/] of C++ truncate towards zero. *)
Definition iToxy (a : Array2D) (i : Z) : Z * Z :=
  (Z.rem i (width a), Z.quot i (width a)).

(** Modelled from the spec: [Array2D::inGrid], the bounds predicate. *)
Definition inGrid (a : Array2D) (x y : Z) : bool :=
  (0 <=? x) && (x <? width a) && (0 <=? y) && (y <? height a).

(** Modelled from the spec: [Array2D::isEdgeCell], the cells on the grid
    border. *)
Definition isEdgeCell (a : Array2D) (x y : Z) : bool :=
  (x =? 0) || (y =? 0) || (x =? width a - 1) || (y =? height a - 1).

(** Modelled from the spec: [Array2D::operator()] on a cell index. *)
Definition at_i (a : Array2D) (i : Z) : Z := rd (data a) i.

(** Modelled from the spec: [Array2D::operator()] on coordinates. *)
Definition at_xy (a : Array2D) (x y : Z) : Z := at_i a (xyToI a x y).

(** Modelled from the spec: [Array2D::isNoData], the no-data predicate, on
    a cell index. *)
Definition isNoData (a : Array2D) (i : Z) : bool := at_i a i =? noData a.

(** Modelled from the spec: [Array2D::isNoData] on coordinates. *)
Definition isNoData_xy (a : Array2D) (x y : Z) : bool :=
  isNoData a (xyToI a x y).

(** The class invariant of a grid whose cell indices fit the [int32_t] the
    ready queue stores them in. *)
Definition well_formed (a : Array2D) : bool :=
  (0 <=? width a) && (0 <=? height a) && (size a <? 2 ^ 31) &&
  (Z.of_nat (length (data a)) =? size a).

(** The direction codes the offset tables have an entry for: the source
    walks them as [for (int n = 1; n <= 8; n++)]. *)
Definition is_direction (n : Z) : bool := (1 <=? n) && (n <=? 8).

(** ** The registers of one run *)

Record state : Type := mkState {
  accum : list Z;      (* Array2D<uint32_t> accum *)
  deps : list Z;       (* Array2D<int8_t> deps *)
  q : list Z;          (* std::queue<int32_t> q, front first *)
  progress : Z;        (* ++progress, once per iteration *)
  popped : list Z;     (* ghost: the cells taken from the queue, in order *)
  decremented : list Z (* ghost: the targets of each --deps(ni), in order *)
}.

(** ** The constants

    richdem/common/constants.hpp is not among the sources: the no-flow code,
    the accumulation sentinel and the two neighbour offset tables are
    parameters of the development, and the properties below hold for every
    instance whose tables pass [table_ok]. *)
Class Constants : Type := {
  NO_FLOW : Z;
  ACCUM_NO_DATA : Z;
  d8x : Z -> Z;
  d8y : Z -> Z
}.

Section Engine.

Context `{K : Constants}.

(** Every direction is an offset to one of the cells around the centre. *)
Definition table_ok : bool :=
  forallb (fun n => (-1 <=? d8x n) && (d8x n <=? 1) &&
                    (-1 <=? d8y n) && (d8y n <=? 1))
          (seqZ 1 8).

(** Modelled from the spec: [Array2D::nshift] is not among the sources; with
    row-major indexing the index shift to neighbour [n] is one row per unit
    of [d8y] and one cell per unit of [d8x]. *)
Definition nshift (a : Array2D) (n : Z) : Z := d8y n * width a + d8x n.

(** *** Pass 1: the dependency counts *)

(** The cells the two nested loops
    [for y in 1 .. height-2] / [for x in 1 .. width-2] visit, in order. *)
Definition interior_xy (a : Array2D) : list (Z * Z) :=
  y ← seqZ 1 (height a - 2); x ← seqZ 1 (width a - 2); [(x, y)].

(** The body of the build loop at [(x, y)]. *)
Definition count_dependency (d8_in : Array2D) (xy : Z * Z) (deps : list Z)
  : outcome (list Z) :=
  let '(x, y) := xy in
  if isNoData_xy d8_in x y then Done deps else
  let n := at_xy d8_in x y in
  if n =? NO_FLOW then Done deps else
  if negb (is_direction n) then OutOfBounds else
  let nx := x + d8x n in
  let ny := y + d8y n in
  if negb (inGrid d8_in nx ny) then Done deps else
  let ni := xyToI d8_in x y + nshift d8_in n in
  Done (wr deps ni (to_int8 (rd deps ni + 1))).

Definition zeros (a : Array2D) : list Z := replicate (Z.to_nat (size a)) 0.

Definition build_deps_over (d8_in : Array2D) (cells : list (Z * Z))
  : outcome (list Z) :=
  for_each (count_dependency d8_in) cells (zeros d8_in).

Definition build_deps (d8_in : Array2D) : outcome (list Z) :=
  build_deps_over d8_in (interior_xy d8_in).

(** *** Pass 2: the sources *)

Definition find_sources (d8_in : Array2D) (deps : list Z) : list Z :=
  foldl (fun q xy =>
           let '(x, y) := xy in
           if (rd deps (xyToI d8_in x y) =? 0) && negb (isNoData_xy d8_in x y)
           then q ++ [xyToI d8_in x y] else q)
        [] (interior_xy d8_in).

(** *** Pass 3: the propagation loop *)

(** One iteration of the [while] loop, for the cell [ci] at the front of the
    queue; [st] is the state after [q.pop()]. *)
Definition visit (d8_in : Array2D) (ci : Z) (st : state) : outcome state :=
  let '(cx, cy) := iToxy d8_in ci in
  if isNoData d8_in ci then AssertFailed else
  let c_accum := to_uint32 (rd (accum st) ci + 1) in
  let accum1 := wr (accum st) ci c_accum in
  let st1 := mkState accum1 (deps st) (q st) (progress st)
                     (popped st) (decremented st) in
  let n := at_i d8_in ci in
  if n =? NO_FLOW then Done st1 else
  if negb (is_direction n) then OutOfBounds else
  let ni := ci + nshift d8_in n in
  let '(nx, ny) := iToxy d8_in ni in
  if negb (inGrid d8_in nx ny) || isEdgeCell d8_in nx ny || isNoData d8_in ni
  then Done st1 else
  let accum2 := wr accum1 ni (to_uint32 (rd accum1 ni + c_accum)) in
  let d := to_int8 (rd (deps st) ni - 1) in
  let deps2 := wr (deps st) ni d in
  let q2 := if d =? 0 then q st ++ [ni] else q st in
  if d <? 0 then AssertFailed else
  Done (mkState accum2 deps2 q2 (progress st) (popped st)
                (decremented st ++ [ni])).

(** [++progress; ci = q.front(); q.pop();] *)
Definition pop (ci : Z) (rest : list Z) (st : state) : state :=
  mkState (accum st) (deps st) rest (progress st + 1)
          (popped st ++ [ci]) (decremented st).

(** The state after at most [k] iterations of the loop. *)
Fixpoint iterations (k : nat) (d8_in : Array2D) (st : state) : outcome state :=
  match k, q st with
  | S k', ci :: rest =>
      st' ← visit d8_in ci (pop ci rest st); iterations k' d8_in st'
  | _, _ => Done st
  end.

(** The loop, run until the queue is empty, within [fuel] iterations. *)
Definition drain (fuel : nat) (d8_in : Array2D) (st : state) : outcome state :=
  st' ← iterations fuel d8_in st;
  match q st' with [] => Done st' | _ :: _ => OutOfFuel end.

(** *** Pass 4: the no-data sweep *)

Definition sweep (d8_in : Array2D) (accum : list Z) : list Z :=
  foldl (fun acc i =>
           if isNoData d8_in i then wr acc i (to_uint32 (noData d8_in))
           else acc)
        accum (seqZ (i0 d8_in) (size d8_in - i0 d8_in)).

(** *** The function *)

Definition initial (d8_in : Array2D) (deps : list Z) : state :=
  mkState (zeros d8_in) deps (find_sources d8_in deps) 0 [] [].

(** The registers when the loop ends, within [fuel] iterations. *)
Definition propagate_within (fuel : nat) (d8_in : Array2D) : outcome state :=
  deps ← build_deps d8_in;
  drain fuel d8_in (initial d8_in deps).

Definition finish (d8_in : Array2D) (st : state) : Array2D :=
  mkArray2D (width d8_in) (height d8_in) (sweep d8_in (accum st))
            (to_uint32 ACCUM_NO_DATA).

Definition flow_accumulation_within (fuel : nat) (d8_in : Array2D)
  : outcome Array2D :=
  st ← propagate_within fuel d8_in;
  Done (finish d8_in st).

(** One iteration per cell is enough for the loop to end. *)
Definition enough (d8_in : Array2D) : nat := Z.to_nat (size d8_in).

Definition propagate (d8_in : Array2D) : outcome state :=
  propagate_within (enough d8_in) d8_in.

Definition flow_accumulation_from_d8 (d8_in : Array2D) : outcome Array2D :=
  flow_accumulation_within (enough d8_in) d8_in.

(** *** The graph the passes walk

    The vocabulary of the properties; each definition repeats a test of the
    code above. *)

(** Inside the grid and off its border: the cells of the two scans, and the
    two bounds tests a delivery goes through. *)
Definition interior (a : Array2D) (i : Z) : bool :=
  let '(x, y) := iToxy a i in inGrid a x y && negb (isEdgeCell a x y).

(** On the border of the grid. *)
Definition border (a : Array2D) (i : Z) : bool :=
  let '(x, y) := iToxy a i in inGrid a x y && isEdgeCell a x y.

(** The cells the loop can take from the queue and deliver to. *)
Definition active (a : Array2D) (i : Z) : bool :=
  interior a i && negb (isNoData a i).

(** The cell the direction code of [i] points at. *)
Definition target (a : Array2D) (i : Z) : Z := i + nshift a (at_i a i).

Definition flows (a : Array2D) (i : Z) : bool := negb (at_i a i =? NO_FLOW).

(** [s] is counted in the dependency count of [t] by the build pass. *)
Definition feeds (a : Array2D) (t s : Z) : bool :=
  active a s && flows a s && (target a s =? t).

(** The cell the visit of [c] delivers to, if any. *)
Definition next (a : Array2D) (c : Z) : option Z :=
  if flows a c && active a (target a c) then Some (target a c) else None.

(** A cell whose visit delivers nothing: its code is no-flow, or its target
    is on the border or no-data. *)
Definition terminal (a : Array2D) (c : Z) : bool :=
  negb (flows a c) || negb (active a (target a c)).

Definition interior_cells (a : Array2D) : list Z :=
  (fun xy => xyToI a xy.1 xy.2) <$> interior_xy a.

Definition actives (a : Array2D) : list Z :=
  filter (fun c => active a c) (interior_cells a).

(** The upstream edges that target [t]. *)
Definition upstream (a : Array2D) (t : Z) : list Z :=
  filter (fun s => feeds a t s) (interior_cells a).

(** [a'] has the shape and the sentinel of [a] and the same values off the
    border; on the border it may hold anything. *)
Definition same_interior (a a' : Array2D) : Prop :=
  width a' = width a /\ height a' = height a /\ noData a' = noData a /\
  forall i, interior a i = true -> at_i a' i = at_i a i.

(** Every interior cell that is not no-data carries the no-flow code or one
    of the eight directions: what the two table reads of the code need. *)
Definition codes_ok (a : Array2D) : bool :=
  forallb (fun c => isNoData a c || (at_i a c =? NO_FLOW)
                    || is_direction (at_i a c))
          (interior_cells a).

(** The cell reached from [c] by following [k] deliveries. *)
Fixpoint walk (a : Array2D) (k : nat) (c : Z) : option Z :=
  match k with
  | O => Some c
  | S k' => match next a c with Some t => walk a k' t | None => None end
  end.

(** [c] lies on a cycle of deliveries. *)
Definition on_cycle (a : Array2D) (c : Z) : Prop :=
  exists k : nat, walk a (S k) c = Some c.

(** No visited cell lies on a cycle. *)
Definition cycle_free (a : Array2D) (st : state) : Prop :=
  forall c, c ∈ popped st -> ~ on_cycle a c.

(** No cycle: the deliveries that start at an active cell stop within as
    many steps as the grid has cells. *)
Definition acyclic (a : Array2D) : bool :=
  forallb (fun c => match walk a (enough a) c with None => true | _ => false end)
          (actives a).

(** How many cells of [L] feed [t]. *)
Definition fed (a : Array2D) (L : list Z) (t : Z) : Z :=
  Z.of_nat (length (filter (fun s => feeds a t s) L)).

Definition sumZ (f : Z -> Z) (l : list Z) : Z := foldr (fun x s => f x + s) 0 l.

(** *** The conservation property in the words of the specification

    A second reading, over all the cells of the grid, to be compared with
    what the code computes. *)

Definition cells (a : Array2D) : list Z := seqZ 0 (size a).

(** Terminal: the no-flow code, or a target off the grid or no-data. *)
Definition spec_terminal (a : Array2D) (i : Z) : bool :=
  let '(x, y) := iToxy a i in
  let n := at_i a i in
  (n =? NO_FLOW) || negb (inGrid a (x + d8x n) (y + d8y n))
  || isNoData a (target a i).

(** A terminal cell is reached from [i] along the field within [fuel]
    cells. *)
Fixpoint spec_reaches_terminal (a : Array2D) (fuel : nat) (i : Z) : bool :=
  match fuel with
  | O => false
  | S f => spec_terminal a i || spec_reaches_terminal a f (target a i)
  end.

(** The cells that are not no-data and satisfy [p]. *)
Definition data_cells (a : Array2D) (p : Z -> bool) : list Z :=
  filter (fun i => negb (isNoData a i) && p i) (cells a).

(** Total inflow equals total outflow, for the returned grid [r]. *)
Definition spec_conservation (a r : Array2D) : Prop :=
  sumZ (at_i r) (data_cells a (spec_terminal a))
  = Z.of_nat (length (data_cells a (spec_reaches_terminal a (enough a)))).

(** The direction code of the border cell [i] leads to the centre of a
    3 x 3 grid. *)
Definition routes_to_centre (a : Array2D) (i : Z) : bool :=
  let '(x, y) := iToxy a i in
  let n := at_i a i in
  is_direction n && (x + d8x n =? 1) && (y + d8y n =? 1).

Definition count (l : list Z) (t : Z) : Z :=
  Z.of_nat (length (filter (fun x => x = t) l)).

(** What a cell still owes downstream: a cell that was not visited yet will
    pass on what it holds plus its own unit, a visited terminal cell keeps
    what it holds, and a visited cell that delivered holds nothing back. *)
Definition weight (a : Array2D) (st : state) (c : Z) : Z :=
  if decide (c ∈ popped st)
  then (if terminal a c then rd (accum st) c else 0)
  else rd (accum st) c + 1.

(** The invariant of the propagation loop. *)
Record inv (a : Array2D) (st : state) : Prop := mkInv {
  inv_accum_len : length (accum st) = Z.to_nat (size a);
  inv_deps_len : length (deps st) = Z.to_nat (size a);
  inv_nodup : NoDup (popped st ++ q st);
  inv_active : forall c, c ∈ popped st ++ q st -> active a c = true;
  inv_deps : forall t, 0 <= t < size a ->
    rd (deps st) t
    = fed a (interior_cells a) t
      - (if active a t then fed a (popped st) t else 0);
  inv_ready : forall t, active a t = true ->
    (t ∈ popped st ++ q st <-> rd (deps st) t = 0);
  inv_progress : progress st = Z.of_nat (length (popped st));
  inv_decremented : forall t,
    count (decremented st) t = if active a t then fed a (popped st) t else 0;
  inv_idle : forall t, 0 <= t < size a -> active a t = false ->
    rd (accum st) t = 0;
  inv_nonneg : forall t, 0 <= t < size a -> 0 <= rd (accum st) t;
  inv_flow : sumZ (weight a st) (actives a) = Z.of_nat (length (actives a))
}.

(** The states of the loop, started after the build pass and the scan for
    sources: [reached a k st] when [k] iterations (or fewer, if the queue
    empties before) lead to [st]. *)
Definition reached (a : Array2D) (k : nat) (st : state) : Prop :=
  exists d, build_deps a = Done d /\ iterations k a (initial a d) = Done st.

(** *** What a register holds

    The vocabulary of the properties of the values themselves. *)

(** Every register of an interior cell that is not no-data holds the unit
    of the cell, once the cell was visited, and what its visited upstream
    cells held when they were visited. *)
Definition settled (a : Array2D) (st : state) : Prop :=
  forall t, active a t = true ->
    rd (accum st) t
    = (if decide (t ∈ popped st) then 1 else 0)
      + sumZ (fun s => if decide (s ∈ popped st) then rd (accum st) s else 0)
             (upstream a t).

(** The deliveries that start at [s] pass through [t]. *)
Definition reaches (a : Array2D) (s t : Z) : bool :=
  existsb (fun k => match walk a k s with Some z => z =? t | None => false end)
          (seq 0 (S (enough a))).

(** The cells whose flow passes through [t], [t] itself among them. *)
Definition basin (a : Array2D) (t : Z) : list Z :=
  filter (fun s => reaches a s t) (actives a).

(** The number of interior cells that are not no-data. *)
Definition population (a : Array2D) : Z := Z.of_nat (length (actives a)).

End Engine.

(** ** The constants of the library *)

(** Modelled from the spec: richdem/common/constants.hpp is not among the
    sources.  The spec has the direction codes [1..8] for the eight
    neighbours and a distinguished no-flow code; the values are those of the
    richdem library: no-flow is [0], direction [1] is the cell to the left
    and the others follow clockwise with [y] growing downwards, and the
    accumulation sentinel is [-1]. *)
#[global] Instance richdem_constants : Constants := {|
  NO_FLOW := 0;
  ACCUM_NO_DATA := -1;
  d8x n := nth (Z.to_nat n) [0; -1; -1; 0; 1; 1; 1; 0; -1] 0;
  d8y n := nth (Z.to_nat n) [0; 0; -1; -1; -1; 0; 1; 1; 1] 0
|}.

Definition star : Array2D :=
  mkArray2D 3 3 [6; 7; 8;
                 5; 0; 1;
                 4; 3; 2] 255.

Definition chain : Array2D :=
  mkArray2D 5 3 [0; 0; 0; 0; 0;
                 0; 5; 5; 5; 0;
                 0; 0; 0; 0; 0] 255.

Definition two_cycle : Array2D :=
  mkArray2D 4 3 [0; 0; 0; 0;
                 0; 5; 1; 0;
                 0; 0; 0; 0] 255.

(** The centre routes to the border cell on its left. *)
Definition west : Array2D :=
  mkArray2D 3 3 [0; 0; 0;
                 0; 1; 0;
                 0; 0; 0] 255.

(** A border cell with a code that is no direction. *)
Definition bad_border : Array2D :=
  mkArray2D 3 3 [9; 0; 0;
                 0; 0; 0;
                 0; 0; 0] 255.

(** A no-data cell in the corner. *)
Definition hole : Array2D :=
  mkArray2D 3 3 [255; 0; 0;
                 0;   0; 0;
                 0;   0; 0] 255.

(** Two rows: no cell is interior.  One cell is no-data and one holds a
    code that is no direction. *)
Definition strip : Array2D :=
  mkArray2D 4 2 [5; 255; 9; 1;
                 3; 7;   0; 5] 255.

(** * The disjoint-set class (richdem/common/disjoint_dense_int_set.hpp) *)

Module DisjointDenseIntSet.

(** The two private vectors of the class; their elements are uint32_t. *)
Record t := mk { rank : list Z; parent : list Z }.

(** std::vector::size and std::vector::resize(count, value). *)
Definition vsize (v : list Z) : Z := Z.of_nat (length v).

Definition resize (v : list Z) (count value : Z) : list Z :=
  take (Z.to_nat count) v ++ replicate (Z.to_nat count - length v) value.

(** A call returns a value and leaves a structure, or throws
    std::runtime_error and leaves a structure, or the model runs out of
    fuel for the recursion of findSet. *)
Inductive result (A : Type) : Type :=
| Returned (v : A) (s : t)
| Thrown (s : t)
| NoFuel.
Arguments Returned {A} v s.
Arguments Thrown {A} s.
Arguments NoFuel {A}.

(** The loops `for(i = from; i < upto; i++) parent[i] = i;` of checkSize
    and of the constructor; the index is stored as a uint32_t. *)
Definition fill_identity (p : list Z) (from upto : Z) : list Z :=
  foldl (fun p i => wr p i (to_uint32 i)) p (seqZ from (upto - from)).

(** checkSize: `newN + 1` is computed in uint32_t. *)
Definition checkSize (s : t) (newN : Z) : t :=
  if newN <? vsize (rank s) then s
  else
    let old_size := vsize (rank s) in
    let n1 := to_uint32 (newN + 1) in
    mk (resize (rank s) n1 0)
       (fill_identity (resize (parent s) n1 0) old_size n1).

(** The two constructors. *)
Definition no_sets : t := mk [] [].

Definition with_sets (N : Z) : t :=
  mk (resize [] N 0) (fill_identity (resize [] N 0) 0 N).

Definition makeSet (s : t) (n : Z) : t := checkSize s n.

Definition maxElement (s : t) : Z := to_uint32 (vsize (rank s) - 1).

(** findSet: the fuel bounds the depth of the recursion. The throw comes
    before any write; a throw of the inner call passes through the
    assignment `parent[n] = ...`, which is then not done. *)
Fixpoint findSet (fuel : nat) (s : t) (n : Z) : result Z :=
  if vsize (parent s) <=? n then Thrown s
  else if rd (parent s) n =? n then Returned n s
  else match fuel with
       | O => NoFuel
       | S fuel' =>
           match findSet fuel' s (rd (parent s) n) with
           | Returned r s' => Returned r (mk (rank s') (wr (parent s') n r))
           | Thrown s' => Thrown s'
           | NoFuel => NoFuel
           end
       end.

Definition unionSet (fuel : nat) (s : t) (a b : Z) : result unit :=
  match findSet fuel s a with
  | Returned roota s1 =>
      match findSet fuel s1 b with
      | Returned rootb s2 =>
          if roota =? rootb then Returned tt s2
          else
            let '(roota, rootb) :=
              if rd (rank s2) rootb <? rd (rank s2) roota
              then (rootb, roota) else (roota, rootb) in
            let parent3 := wr (parent s2) roota rootb in
            let rank3 :=
              if rd (rank s2) roota =? rd (rank s2) rootb
              then wr (rank s2) roota (to_uint32 (rd (rank s2) roota + 1))
              else rank s2 in
            Returned tt (mk rank3 parent3)
      | Thrown s' => Thrown s'
      | NoFuel => NoFuel
      end
  | Thrown s' => Thrown s'
  | NoFuel => NoFuel
  end.

Definition mergeAintoB (s : t) (a b : Z) : t :=
  let s1 := checkSize s a in
  let s2 := checkSize s1 b in
  let parent3 := wr (parent s2) a b in
  let rank3 :=
    if rd (rank s2) a =? rd (rank s2) b
    then wr (rank s2) b (to_uint32 (rd (rank s2) b + 1))
    else if rd (rank s2) b <? rd (rank s2) a
         then wr (rank s2) b (to_uint32 (rd (rank s2) a + 1))
         else rank s2 in
  mk rank3 parent3.

(** sameSet: the two calls of findSet are taken from left to right (the
    language leaves their order open; the value returned and the sets are
    the same for both orders). *)
Definition sameSet (fuel : nat) (s : t) (a b : Z) : result bool :=
  match findSet fuel s a with
  | Returned roota s1 =>
      match findSet fuel s1 b with
      | Returned rootb s2 => Returned (roota =? rootb) s2
      | Thrown s' => Thrown s'
      | NoFuel => NoFuel
      end
  | Thrown s' => Thrown s'
  | NoFuel => NoFuel
  end.

(** ** What the properties are stated with *)

Definition in_range (s : t) (n : Z) : Prop := 0 <= n < vsize (parent s).

(** The chain of parents of [n], followed for at most [fuel] steps. *)
Fixpoint find_root (s : t) (fuel : nat) (n : Z) : option Z :=
  if rd (parent s) n =? n then Some n
  else match fuel with
       | O => None
       | S fuel' => find_root s fuel' (rd (parent s) n)
       end.

(** The representative of the set of [n]. *)
Definition rep (s : t) (n : Z) : option Z := find_root s (length (parent s)) n.

(** The two vectors have one length, below 2^32; every parent is an id of
    the structure and every chain of parents ends. *)
Definition wf (s : t) : bool :=
  (length (rank s) =? length (parent s))%nat
  && (vsize (parent s) <? 2 ^ 32)
  && forallb (fun n => (0 <=? rd (parent s) n)
                       && (rd (parent s) n <? vsize (parent s))
                       && match rep s n with Some _ => true | None => false end)
             (seqZ 0 (vsize (parent s))).

(** Every set that is its own parent has rank 0. *)
Definition roots_unranked (s : t) : bool :=
  forallb (fun n => negb (rd (parent s) n =? n) || (rd (rank s) n =? 0))
          (seqZ 0 (vsize (parent s))).

(** Every parent is an id of the structure. *)
Definition closed (s : t) : Prop :=
  forall n, in_range s n -> in_range s (rd (parent s) n).

(** The [i]-th id on the chain of parents of [n]. *)
Definition ancestor (s : t) (i : nat) (n : Z) : Z :=
  Nat.iter i (fun x => rd (parent s) x) n.

(** [s'] is [s] with some ids below the root [r] re-parented to [r]. *)
Definition compressed (s s' : t) (r : Z) : Prop :=
  rank s' = rank s /\ length (parent s') = length (parent s) /\
  forall x, in_range s x ->
    rd (parent s') x = rd (parent s) x \/
    (rd (parent s') x = r /\ rd (parent s) x <> x /\
     exists k, find_root s k x = Some r).

(** [s] with the new vector of ranks [rk] and [x0] made a child of [y0]. *)
Definition link (s : t) (rk : list Z) (x0 y0 : Z) : t :=
  mk rk (wr (parent s) x0 y0).

(** unionSet(0,1), unionSet(1,2), ..., unionSet(k-1,k), in this order. *)
Fixpoint unions_in_a_row (fuel : nat) (s : t) (k : nat) : result unit :=
  match k with
  | O => Returned tt s
  | S k' =>
      match unions_in_a_row fuel s k' with
      | Returned _ s' => unionSet fuel s' (Z.of_nat k') (Z.of_nat k' + 1)
      | Thrown s' => Thrown s'
      | NoFuel => NoFuel
      end
  end.

(** The ids below [k] form a chain, each the child of the next one, with
    rank 1; the other ids are sets of their own, with rank 0. *)
Definition chain_up_to (N k : Z) (s : t) : Prop :=
  vsize (parent s) = N /\ vsize (rank s) = N /\
  forall i, 0 <= i < N ->
    rd (parent s) i = (if i <? k then i + 1 else i) /\
    rd (rank s) i = (if i <? k then 1 else 0).

(** Four ids: 2 is a child of 1, 1 a child of 0, and 3 is alone; as left by
    unionSet(2,1) and unionSet(1,0) on four preallocated sets. *)
Definition forest : t := mk [0; 1; 1; 0] [0; 0; 1; 3].

End DisjointDenseIntSet.

(** * Bucket fill and perimeter (tests/wei2018-test/perlin.h) *)

Module Terrain.

(** ** BucketFill *)

(** richdem/common/constants.hpp is not among the sources: the offset
    tables and the number of neighbours that [get_dx_for_topology],
    [get_dy_for_topology] and [get_nmax_for_topology] give for the topology
    of the template are parameters. *)
Record Topology : Type := mkTopology {
  dx : Z -> Z;
  dy : Z -> Z;
  nmax : Z
}.

(** A call leaves the data of [set_raster], or throws std::runtime_error,
    or reads a raster outside its cells (undefined behaviour), or the model
    runs out of fuel for the while loop. *)
Inductive fill_outcome : Type :=
| Filled (set_data : list Z)
| DimensionError
| OutOfRange
| FillOutOfFuel.

(** The loop over the neighbours of the cell at [(cx, cy)].  The vector
    [seeds] is used as a stack: its back is the head of the list. *)
Definition push_neighbours (topo : Topology) (check_raster : Array2D)
    (set_data : list Z) (check_value set_value : Z) (cx cy : Z)
    (seeds : list Z) : list Z :=
  foldl (fun seeds n =>
           if negb (inGrid check_raster (cx + dx topo n) (cy + dy topo n))
           then seeds
           else
             let ni := xyToI check_raster (cx + dx topo n) (cy + dy topo n) in
             if (at_i check_raster ni =? check_value)
                && negb (rd set_data ni =? set_value)
             then ni :: seeds
             else seeds)
        seeds (seqZ 1 (nmax topo)).

(** The while loop; a seed is a size_t, so a negative number stands for a
    value that wrapped around. *)
Fixpoint fill (fuel : nat) (topo : Topology) (check_raster : Array2D)
    (set_data : list Z) (check_value set_value : Z) (seeds : list Z)
    {struct fuel} : fill_outcome :=
  match seeds with
  | [] => Filled set_data
  | c :: seeds' =>
      match fuel with
      | O => FillOutOfFuel
      | S fuel' =>
          if negb ((0 <=? c) && (c <? size check_raster)) then OutOfRange
          else if negb (at_i check_raster c =? check_value)
                  || (rd set_data c =? set_value)
          then fill fuel' topo check_raster set_data check_value set_value seeds'
          else
            let set_data1 := wr set_data c set_value in
            let '(cx, cy) := iToxy check_raster c in
            fill fuel' topo check_raster set_data1 check_value set_value
                 (push_neighbours topo check_raster set_data1
                                  check_value set_value cx cy seeds')
      end
  end.

Definition BucketFill (fuel : nat) (topo : Topology)
    (check_raster set_raster : Array2D) (check_value set_value : Z)
    (seeds : list Z) : fill_outcome :=
  if negb (width check_raster =? width set_raster)
     || negb (height check_raster =? height set_raster)
  then DimensionError
  else fill fuel topo check_raster (data set_raster) check_value set_value
            (reverse seeds).

(** The seeds of BucketFillFromEdges, in the order of the emplace_back
    calls. *)
Definition edge_seeds (a : Array2D) : list Z :=
  (seqZ 0 (height a) ≫= fun y => [xyToI a 0 y; xyToI a (width a - 1) y])
  ++ (seqZ 0 (width a) ≫= fun x => [xyToI a x 0; xyToI a x (height a - 1)]).

Definition BucketFillFromEdges (fuel : nat) (topo : Topology)
    (check_raster set_raster : Array2D) (check_value set_value : Z)
  : fill_outcome :=
  BucketFill fuel topo check_raster set_raster check_value set_value
             (edge_seeds check_raster).

(** *** What the properties are stated with *)

(** The shape of a raster: its data has one entry per cell. *)
Definition raster_ok (a : Array2D) : bool :=
  (0 <=? width a) && (0 <=? height a)
  && (Z.of_nat (length (data a)) =? size a).

(** The cells the fill may change: they hold [check_value] in the check
    raster and not yet [set_value] in the set raster. *)
Definition paintable (check_raster : Array2D) (set0 : list Z)
    (check_value set_value : Z) (c : Z) : Prop :=
  0 <= c < size check_raster /\ at_i check_raster c = check_value
  /\ rd set0 c <> set_value.

Definition neighbour (topo : Topology) (a : Array2D) (p n : Z) : Z :=
  xyToI a ((iToxy a p).1 + dx topo n) ((iToxy a p).2 + dy topo n).

Definition neighbour_in_grid (topo : Topology) (a : Array2D) (p n : Z) : bool :=
  inGrid a ((iToxy a p).1 + dx topo n) ((iToxy a p).2 + dy topo n).

(** The cells joined to a seed by a path of neighbours, all paintable. *)
Inductive connected (topo : Topology) (check_raster : Array2D) (set0 : list Z)
    (check_value set_value : Z) (seeds : list Z) : Z -> Prop :=
| connected_seed c :
    c ∈ seeds -> paintable check_raster set0 check_value set_value c ->
    connected topo check_raster set0 check_value set_value seeds c
| connected_step p n :
    connected topo check_raster set0 check_value set_value seeds p ->
    1 <= n <= nmax topo ->
    neighbour_in_grid topo check_raster p n = true ->
    paintable check_raster set0 check_value set_value
              (neighbour topo check_raster p n) ->
    connected topo check_raster set0 check_value set_value seeds
              (neighbour topo check_raster p n).

(** Iterations that are enough for the loop. *)
Definition fill_fuel (topo : Topology) (check_raster : Array2D)
    (seeds : list Z) : nat :=
  length seeds + (Z.to_nat (nmax topo) + 1) * Z.to_nat (size check_raster).

(** What holds of the set raster and of the stack whenever the loop tests
    its condition. *)
Definition fill_inv (topo : Topology) (check_raster : Array2D) (set0 : list Z)
    (check_value set_value : Z) (seeds : list Z)
    (set_data stack : list Z) : Prop :=
  length set_data = length set0 /\
  (forall i, 0 <= i < size check_raster ->
     rd set_data i = rd set0 i \/
     (rd set_data i = set_value /\
      connected topo check_raster set0 check_value set_value seeds i)) /\
  (forall c, c ∈ stack ->
     paintable check_raster set0 check_value set_value c ->
     connected topo check_raster set0 check_value set_value seeds c) /\
  (forall p n,
     connected topo check_raster set0 check_value set_value seeds p ->
     rd set_data p = set_value -> 1 <= n <= nmax topo ->
     neighbour_in_grid topo check_raster p n = true ->
     at_i check_raster (neighbour topo check_raster p n) = check_value ->
     rd set_data (neighbour topo check_raster p n) = set_value \/
     neighbour topo check_raster p n ∈ stack) /\
  (forall c, c ∈ seeds -> 0 <= c < size check_raster ->
     at_i check_raster c = check_value ->
     rd set_data c = set_value \/ c ∈ stack).

(** ** Perimeter *)

Inductive PerimType : Type := CELL_COUNT | SQUARE_EDGE.

(** The three counters of Perimeter, of type unsigned int. *)
Record edges : Type := mkEdges {
  vertical_edges : Z;
  horizontal_edges : Z;
  cell_edges : Z
}.

Section Perimeter.
Context `{K : Constants}.

(** `for(int n=1;n<=8;n++) if(!arr.inGrid(...)){ cell_edges++; break; }` *)
Fixpoint cell_count_scan (arr : Array2D) (x y : Z) (ns : list Z) (e : edges)
  : edges :=
  match ns with
  | [] => e
  | n :: ns' =>
      if negb (inGrid arr (x + d8x n) (y + d8y n))
      then mkEdges (vertical_edges e) (horizontal_edges e)
                   (to_uint32 (cell_edges e + 1))
      else cell_count_scan arr x y ns' e
  end.

(** The body of the loop over the neighbours for SQUARE_EDGE; [||] does
    not read the neighbour when it is outside the grid. *)
Definition square_edge_step (arr : Array2D) (x y : Z) (e : edges) (n : Z)
  : edges :=
  if negb (inGrid arr (x + d8x n) (y + d8y n))
     || isNoData_xy arr (x + d8x n) (y + d8y n)
  then
    if d8x n =? 0
    then mkEdges (vertical_edges e)
                 (to_uint32 (horizontal_edges e + 1)) (cell_edges e)
    else if d8y n =? 0
         then mkEdges (to_uint32 (vertical_edges e + 1))
                      (horizontal_edges e) (cell_edges e)
         else e
  else e.

Definition square_edge_scan (arr : Array2D) (x y : Z) (e : edges) : edges :=
  foldl (square_edge_step arr x y) e (seqZ 1 8).

(** The body of the two loops over the cells. *)
Definition perimeter_cell (arr : Array2D) (perim_type : PerimType) (x y : Z)
    (e : edges) : edges :=
  if isNoData_xy arr x y then e
  else match perim_type with
       | CELL_COUNT => cell_count_scan arr x y (seqZ 1 8) e
       | SQUARE_EDGE => square_edge_scan arr x y e
       end.

(** Perimeter, up to its return statement: the counters after the loops.
    The value returned is [cell_edges] for CELL_COUNT and
    horizontal_edges*getCellLengthX() + vertical_edges*getCellLengthY(), a
    double, for SQUARE_EDGE. *)
Definition Perimeter (arr : Array2D) (perim_type : PerimType) : edges :=
  foldl (fun e y =>
           foldl (fun e x => perimeter_cell arr perim_type x y e)
                 e (seqZ 0 (width arr)))
        (mkEdges 0 0 0) (seqZ 0 (height arr)).

(** The offset tables list the cell above and the cell below as the two
    neighbours with [d8x = 0], and the cell to the left and the cell to the
    right as the two neighbours with [d8y = 0] and [d8x <> 0]. *)
Definition table_square : bool :=
  let plus_minus (l : list Z) :=
    match l with
    | [a; b] => ((a =? -1) && (b =? 1)) || ((a =? 1) && (b =? -1))
    | _ => false
    end in
  plus_minus (map d8y (List.filter (fun n => d8x n =? 0) (seqZ 1 8)))
  && plus_minus (map d8x (List.filter (fun n => negb (d8x n =? 0) && (d8y n =? 0))
                                      (seqZ 1 8))).

(** 1 when the place [(x, y)] is outside the grid or holds no data. *)
Definition open_side (arr : Array2D) (x y : Z) : Z :=
  if negb (inGrid arr x y) || isNoData_xy arr x y then 1 else 0.

(** Counters that hold the numbers [v], [h] and [c], as unsigned int. *)
Definition counts (v h c : Z) : edges :=
  mkEdges (to_uint32 v) (to_uint32 h) (to_uint32 c).

(** The sum of [f x y] over the cells of the grid that hold data. *)
Definition over_data_cells (arr : Array2D) (f : Z -> Z -> Z) : Z :=
  sumZ (fun y => sumZ (fun x => if isNoData_xy arr x y then 0 else f x y)
                      (seqZ 0 (width arr)))
       (seqZ 0 (height arr)).

(** The topology D8 of the templates: the tables of the eight neighbours. *)
Definition D8 : Topology := mkTopology d8x d8y 8.

(** No cell of the grid is a no-data cell. *)
Definition full (arr : Array2D) : bool :=
  forallb (fun i => negb (isNoData arr i)) (seqZ 0 (size arr)).

End Perimeter.

(** A 5x5 raster of data with one no-data cell in the middle. *)
Definition ring : Array2D :=
  mkArray2D 5 5 [1; 1; 1;   1; 1;
                 1; 1; 1;   1; 1;
                 1; 1; 255; 1; 1;
                 1; 1; 1;   1; 1;
                 1; 1; 1;   1; 1] 255.

(** A 4x3 check raster with a wall of 0 in the third column, and a set
    raster of zeros of the same shape. *)
Definition walled : Array2D :=
  mkArray2D 4 3 [7; 7; 0; 7;
                 7; 7; 0; 7;
                 7; 7; 0; 7] 255.

Definition blank : Array2D :=
  mkArray2D 4 3 [0; 0; 0; 0;
                 0; 0; 0; 0;
                 0; 0; 0; 0] 255.

End Terrain.

(** * Properties *)

Section Properties.

Context `{K : Constants}.
Hypothesis tables : table_ok = true.

(** ** Arrays *)

Lemma rd_wr_eq l i v : 0 <= i < Z.of_nat (length l) -> rd (wr l i v) i = v.
Proof. intros. unfold rd, wr. apply list_lookup_total_insert_eq. lia. Qed.

Lemma rd_wr_ne l i j v : 0 <= i -> 0 <= j -> i <> j -> rd (wr l i v) j = rd l j.
Proof. intros. unfold rd, wr. apply list_lookup_total_insert_ne. lia. Qed.

Lemma rd_wr l i j v :
  0 <= i < Z.of_nat (length l) -> 0 <= j ->
  rd (wr l i v) j = if decide (j = i) then v else rd l j.
Proof.
  intros. destruct (decide (j = i)) as [->|].
  - by apply rd_wr_eq.
  - apply rd_wr_ne; lia.
Qed.

Lemma length_wr l i v : length (wr l i v) = length l.
Proof. apply length_insert. Qed.

Lemma rd_zeros a i : 0 <= i < size a -> rd (zeros a) i = 0.
Proof.
  intros. unfold rd, zeros. apply lookup_total_replicate_2. lia.
Qed.

Lemma length_zeros a : length (zeros a) = Z.to_nat (size a).
Proof. apply length_replicate. Qed.

Lemma to_int8_small z : -128 <= z <= 127 -> to_int8 z = z.
Proof. intros. unfold to_int8. rewrite Z.mod_small; lia. Qed.

Lemma to_uint32_small z : 0 <= z < 2 ^ 32 -> to_uint32 z = z.
Proof. intros. unfold to_uint32. by rewrite Z.mod_small. Qed.

(** ** Geometry *)

Lemma wf_facts a :
  well_formed a = true ->
  0 <= width a /\ 0 <= height a /\ size a < 2 ^ 31 /\
  Z.of_nat (length (data a)) = size a.
Proof. unfold well_formed. lia. Qed.

Lemma iToxy_xyToI a x y :
  0 <= x < width a -> 0 <= y -> iToxy a (xyToI a x y) = (x, y).
Proof.
  intros Hx Hy. unfold iToxy, xyToI. f_equal.
  - rewrite Z.rem_mod_nonneg by nia.
    symmetry. apply Z.mod_unique with y; lia.
  - rewrite Z.quot_div_nonneg by nia.
    symmetry. apply Z.div_unique with x; lia.
Qed.

Lemma xyToI_iToxy a i : xyToI a (iToxy a i).1 (iToxy a i).2 = i.
Proof.
  unfold iToxy, xyToI. simpl.
  pose proof (Z.quot_rem' i (width a)). lia.
Qed.

Lemma interior_inv a i :
  interior a i = true ->
  exists x y, i = xyToI a x y /\ 1 <= x <= width a - 2 /\ 1 <= y <= height a - 2.
Proof.
  unfold interior. pose proof (xyToI_iToxy a i) as Hi.
  destruct (iToxy a i) as [x y]. simpl in Hi.
  unfold inGrid, isEdgeCell. intros H. exists x, y. lia.
Qed.

Lemma interior_intro a x y :
  1 <= x <= width a - 2 -> 1 <= y <= height a - 2 ->
  interior a (xyToI a x y) = true.
Proof.
  intros Hx Hy. unfold interior. rewrite iToxy_xyToI by lia.
  unfold inGrid, isEdgeCell. lia.
Qed.

Lemma interior_range a i : interior a i = true -> 0 <= i < size a.
Proof.
  intros (x & y & -> & Hx & Hy)%interior_inv. unfold xyToI, size. nia.
Qed.

Lemma interior_not_border a i : interior a i = true -> border a i = false.
Proof.
  unfold interior, border. destruct (iToxy a i) as [x y].
  destruct (inGrid a x y), (isEdgeCell a x y); simpl; congruence.
Qed.

Lemma border_range a i : border a i = true -> 0 <= i < size a.
Proof.
  unfold border. pose proof (xyToI_iToxy a i) as Hi.
  destruct (iToxy a i) as [x y]. simpl in Hi. subst i.
  unfold inGrid, xyToI, size. intros H. nia.
Qed.

Lemma active_interior a i : active a i = true -> interior a i = true.
Proof. unfold active. intros H. apply andb_prop in H. tauto. Qed.

Lemma active_data a i : active a i = true -> isNoData a i = false.
Proof.
  unfold active. intros H. apply andb_prop in H.
  destruct H as [_ H]. by apply negb_true_iff in H.
Qed.

Lemma active_range a i : active a i = true -> 0 <= i < size a.
Proof. intros H. by apply interior_range, active_interior. Qed.

Lemma elem_of_interior_xy a x y :
  (x, y) ∈ interior_xy a <-> 1 <= x <= width a - 2 /\ 1 <= y <= height a - 2.
Proof.
  unfold interior_xy. rewrite list_elem_of_bind. split.
  - intros (y' & Hin & Hy). apply list_elem_of_bind in Hin.
    destruct Hin as (x' & Hin & Hx).
    apply list_elem_of_singleton in Hin. injection Hin as -> ->.
    apply elem_of_seqZ in Hx, Hy. lia.
  - intros [Hx Hy]. exists y. split; [|apply elem_of_seqZ; lia].
    apply list_elem_of_bind. exists x.
    split; [by apply list_elem_of_singleton | apply elem_of_seqZ; lia].
Qed.

Lemma NoDup_interior_xy a : NoDup (interior_xy a).
Proof.
  unfold interior_xy. apply NoDup_bind; [| |apply NoDup_seqZ].
  - intros y1 y2 [x y] _ _ H1 H2.
    apply list_elem_of_bind in H1 as (? & H1 & _).
    apply list_elem_of_bind in H2 as (? & H2 & _).
    apply list_elem_of_singleton in H1, H2. congruence.
  - intros y _. apply NoDup_bind; [| |apply NoDup_seqZ].
    + intros x1 x2 p _ _ H1 H2.
      apply list_elem_of_singleton in H1, H2. congruence.
    + intros. apply NoDup_singleton.
Qed.

Lemma elem_of_interior_cells a i :
  i ∈ interior_cells a <-> interior a i = true.
Proof.
  unfold interior_cells. rewrite list_elem_of_fmap. split.
  - intros ([x y] & -> & Hin). apply elem_of_interior_xy in Hin.
    apply interior_intro; simpl; lia.
  - intros (x & y & -> & Hx & Hy)%interior_inv. exists (x, y).
    split; [done|]. by apply elem_of_interior_xy.
Qed.

Lemma NoDup_interior_cells a : NoDup (interior_cells a).
Proof.
  unfold interior_cells. apply NoDup_fmap_2_strong; [|apply NoDup_interior_xy].
  intros [x1 y1] [x2 y2] H1 H2 Heq. simpl in Heq.
  apply elem_of_interior_xy in H1, H2.
  apply (f_equal (iToxy a)) in Heq.
  rewrite !iToxy_xyToI in Heq by lia. done.
Qed.

Lemma length_interior_cells a :
  well_formed a = true -> Z.of_nat (length (interior_cells a)) <= size a.
Proof.
  intros Hwf. apply wf_facts in Hwf as (Hw & Hh & _ & _).
  assert (length (interior_cells a) ≤ length (seqZ 0 (size a)))%nat as Hle.
  { apply submseteq_length, NoDup_submseteq; [apply NoDup_interior_cells|].
    intros i Hi%elem_of_interior_cells%interior_range.
    apply elem_of_seqZ. lia. }
  rewrite length_seqZ in Hle. unfold size in *. nia.
Qed.

(** ** Directions and targets *)

Lemma table_bounds n :
  is_direction n = true -> -1 <= d8x n <= 1 /\ -1 <= d8y n <= 1.
Proof.
  intros Hn. pose proof tables as Ht. unfold table_ok in Ht.
  apply Is_true_true_2, forallb_True in Ht.
  rewrite Forall_forall in Ht. specialize (Ht n).
  unfold is_direction in Hn.
  assert (n ∈ seqZ 1 8) as Hin by (apply elem_of_seqZ; lia).
  apply Ht, Is_true_true_1 in Hin. lia.
Qed.

Lemma codes_ok_direction a s :
  codes_ok a = true -> active a s = true -> flows a s = true ->
  is_direction (at_i a s) = true.
Proof.
  intros Hc Ha Hf. unfold codes_ok in Hc.
  apply Is_true_true_2, forallb_True in Hc. rewrite Forall_forall in Hc.
  specialize (Hc s). rewrite elem_of_interior_cells in Hc.
  apply active_interior in Ha as Hi. apply Hc, Is_true_true_1 in Hi.
  apply active_data in Ha. unfold flows in Hf.
  rewrite Ha in Hi. apply negb_true_iff in Hf. rewrite Hf in Hi. done.
Qed.

Lemma target_xy a x y :
  target a (xyToI a x y)
  = xyToI a (x + d8x (at_xy a x y)) (y + d8y (at_xy a x y)).
Proof. unfold target, nshift, at_xy, xyToI. lia. Qed.

Lemma target_range a s :
  interior a s = true -> is_direction (at_i a s) = true ->
  0 <= target a s < size a.
Proof.
  intros (x & y & -> & Hx & Hy)%interior_inv Hd.
  apply table_bounds in Hd. rewrite target_xy. unfold at_xy.
  set (n := at_i a (xyToI a x y)) in *.
  unfold xyToI, size.
  assert (0 <= (y + d8y n) * width a) by nia.
  assert ((y + d8y n) * width a <= (height a - 1) * width a) by nia.
  lia.
Qed.

Lemma feeds_inv a t s :
  feeds a t s = true ->
  active a s = true /\ flows a s = true /\ target a s = t.
Proof.
  unfold feeds. intros H.
  apply andb_prop in H as [H Ht]. apply andb_prop in H as [Ha Hf].
  apply Z.eqb_eq in Ht. done.
Qed.

Lemma feeds_intro a s :
  active a s = true -> flows a s = true -> feeds a (target a s) s = true.
Proof. intros Ha Hf. unfold feeds. by rewrite Ha, Hf, Z.eqb_refl. Qed.

Lemma feeds_next a t s :
  active a t = true -> (feeds a t s = true <-> active a s = true /\ next a s = Some t).
Proof.
  intros Ht. split.
  - intros (Ha & Hf & <-)%feeds_inv. split; [done|].
    unfold next. by rewrite Hf, Ht.
  - intros [Ha H]. unfold next in H.
    destruct (flows a s) eqn:Hf; [|done]. simpl in H.
    destruct (active a (target a s)); [|done]. injection H as <-.
    by apply feeds_intro.
Qed.

Lemma next_active a c t : next a c = Some t -> active a t = true.
Proof.
  unfold next. destruct (flows a c); [|done]. simpl.
  destruct (active a (target a c)) eqn:Ha; [|done]. by intros [= <-].
Qed.

Lemma next_terminal a c : next a c = None <-> terminal a c = true.
Proof.
  unfold next, terminal.
  destruct (flows a c), (active a (target a c)); simpl; split; congruence.
Qed.

(** ** Counting upstream cells *)

Lemma filter_length_extend (P : Z -> Prop) `{!forall x, Decision (P x)}
    (L U : list Z) (p : Z) :
  NoDup L -> (forall x, x ∈ L -> x ∈ U) -> p ∈ U -> p ∉ L -> P p ->
  (length (filter P L) + 1 <= length (filter P U))%nat.
Proof.
  intros HL Hsub HpU HpL HP.
  assert (p :: filter P L ⊆+ filter P U) as Hs.
  { apply NoDup_submseteq.
    - apply NoDup_cons. split; [|by apply NoDup_filter].
      rewrite list_elem_of_filter. tauto.
    - intros x Hx. apply list_elem_of_filter.
      apply elem_of_cons in Hx as [Hx|Hx]; [by subst x|].
      apply list_elem_of_filter in Hx as [? ?]. auto. }
  apply submseteq_length in Hs. simpl in Hs. lia.
Qed.

Lemma filter_length_subset (P : Z -> Prop) `{!forall x, Decision (P x)}
    (L U : list Z) :
  NoDup L -> (forall x, x ∈ L -> P x -> x ∈ U) ->
  (length (filter P L) <= length (filter P U))%nat.
Proof.
  intros HL Hsub. apply submseteq_length, NoDup_submseteq.
  - by apply NoDup_filter.
  - intros x [HP Hx]%list_elem_of_filter. apply list_elem_of_filter. auto.
Qed.

(** The cells that feed [t] carry different direction codes: at most eight
    of them. *)
Lemma feeders_bound a t L :
  codes_ok a = true -> NoDup L ->
  (length (filter (fun s => feeds a t s) L) <= 8)%nat.
Proof.
  intros Hc HL.
  set (F := filter (fun s => feeds a t s) L).
  assert (at_i a <$> F ⊆+ seqZ 1 8) as Hs.
  { apply NoDup_submseteq.
    - apply NoDup_fmap_2_strong; [|by apply NoDup_filter].
      intros s1 s2 [H1 _]%list_elem_of_filter [H2 _]%list_elem_of_filter Heq.
      apply Is_true_true_1, feeds_inv in H1 as (_ & _ & H1).
      apply Is_true_true_1, feeds_inv in H2 as (_ & _ & H2).
      unfold target in H1, H2. rewrite Heq in H1. lia.
    - intros n (s & -> & [Hs _]%list_elem_of_filter)%list_elem_of_fmap.
      apply Is_true_true_1, feeds_inv in Hs as (Ha & Hf & _).
      pose proof (codes_ok_direction a s Hc Ha Hf) as Hd.
      unfold is_direction in Hd. apply elem_of_seqZ. lia. }
  apply submseteq_length in Hs.
  rewrite length_fmap, length_seqZ in Hs. lia.
Qed.

Lemma fed_cons a s L t :
  fed a (s :: L) t = (if feeds a t s then 1 else 0) + fed a L t.
Proof.
  unfold fed. rewrite filter_cons.
  destruct (feeds a t s); case_decide; simpl in *; try done; lia.
Qed.

Lemma fed_nil a t : fed a [] t = 0.
Proof. done. Qed.

Lemma fed_app a L1 L2 t : fed a (L1 ++ L2) t = fed a L1 t + fed a L2 t.
Proof. unfold fed. rewrite filter_app, length_app. lia. Qed.

Lemma fed_bounds a L t :
  codes_ok a = true -> NoDup L -> 0 <= fed a L t <= 8.
Proof.
  intros Hc HL. pose proof (feeders_bound a t L Hc HL). unfold fed. lia.
Qed.

(** ** Pass 1: the dependency counts *)

Local Abbreviation cells_of a P := ((fun xy : Z * Z => xyToI a xy.1 xy.2) <$> P).

Lemma NoDup_cells_of a (P : list (Z * Z)) :
  NoDup P -> (forall xy, xy ∈ P -> xy ∈ interior_xy a) -> NoDup (cells_of a P).
Proof.
  intros HP Hsub. apply NoDup_fmap_2_strong; [|done].
  intros [x1 y1] [x2 y2] H1%Hsub H2%Hsub Heq. simpl in Heq.
  apply elem_of_interior_xy in H1, H2.
  apply (f_equal (iToxy a)) in Heq.
  rewrite !iToxy_xyToI in Heq by lia. done.
Qed.

Lemma count_dependency_spec a x y d :
  codes_ok a = true -> (x, y) ∈ interior_xy a ->
  count_dependency a (x, y) d
  = Done (if active a (xyToI a x y) && flows a (xyToI a x y)
          then wr d (target a (xyToI a x y))
                    (to_int8 (rd d (target a (xyToI a x y)) + 1))
          else d).
Proof.
  intros Hc [Hx Hy]%elem_of_interior_xy.
  pose proof (interior_intro a x y Hx Hy) as Hi.
  unfold count_dependency, isNoData_xy, at_xy.
  set (s := xyToI a x y) in *.
  unfold active. rewrite Hi. simpl.
  destruct (isNoData a s) eqn:Hnd; simpl; [done|].
  unfold flows. destruct (at_i a s =? NO_FLOW) eqn:Hnf; simpl; [done|].
  assert (is_direction (at_i a s) = true) as Hd.
  { apply codes_ok_direction; [done|..]; unfold active, flows.
    - by rewrite Hi, Hnd.
    - by rewrite Hnf. }
  rewrite Hd. simpl. apply table_bounds in Hd as Hb.
  assert (inGrid a (x + d8x (at_i a s)) (y + d8y (at_i a s)) = true) as ->
    by (unfold inGrid; lia).
  done.
Qed.

Lemma for_each_count_dependency a (P : list (Z * Z)) :
  well_formed a = true -> codes_ok a = true ->
  (forall xy, xy ∈ P -> xy ∈ interior_xy a) ->
  forall d0, length d0 = Z.to_nat (size a) ->
  (forall t, 0 <= t < size a ->
             0 <= rd d0 t /\ rd d0 t + fed a (cells_of a P) t <= 127) ->
  exists d, for_each (count_dependency a) P d0 = Done d /\
            length d = Z.to_nat (size a) /\
            forall t, 0 <= t < size a ->
                      rd d t = rd d0 t + fed a (cells_of a P) t.
Proof.
  intros Hwf Hc. induction P as [|[x y] P IH]; intros Hsub d0 Hlen Hb.
  - exists d0. split_and!; [done..|]. intros t Ht. rewrite fmap_nil, fed_nil. lia.
  - cbn [for_each]. rewrite count_dependency_spec by (done || apply Hsub; left).
    set (s := xyToI a x y) in *.
    assert (interior a s = true) as Hi.
    { apply elem_of_interior_cells, list_elem_of_fmap.
      exists (x, y). split; [done|]. apply Hsub. left. }
    assert (forall t, fed a (cells_of a ((x, y) :: P)) t
                      = (if feeds a t s then 1 else 0) + fed a (cells_of a P) t)
      as Hcons by (intros t; rewrite fmap_cons; apply fed_cons).
    assert (forall t, 0 <= fed a (cells_of a P) t) as Hnn
      by (intros t; unfold fed; lia).
    destruct (active a s && flows a s) eqn:E.
    + apply andb_prop in E as [Ha Hf].
      pose proof (codes_ok_direction a s Hc Ha Hf) as Hd.
      pose proof (target_range a s Hi Hd) as HT.
      pose proof (feeds_intro a s Ha Hf) as HfT.
      set (T := target a s) in *.
      destruct (Hb T HT) as [HT0 HT1]. rewrite Hcons, HfT in HT1.
      rewrite to_int8_small by (specialize (Hnn T); lia).
      assert (forall t, 0 <= t < size a ->
                rd (wr d0 T (rd d0 T + 1)) t
                = rd d0 t + (if feeds a t s then 1 else 0)) as Hrd.
      { intros t Ht. rewrite rd_wr by lia.
        destruct (feeds a t s) eqn:Hft.
        - apply feeds_inv in Hft as (_ & _ & Hft). fold T in Hft.
          rewrite decide_True by done. subst t. lia.
        - rewrite decide_False; [lia|]. intros ->. congruence. }
      destruct (IH (fun xy H => Hsub xy (list_elem_of_further _ _ _ H))
                   (wr d0 T (rd d0 T + 1))) as (d & Hd1 & Hd2 & Hd3).
      * by rewrite length_wr.
      * intros t Ht. rewrite Hrd by done.
        destruct (Hb t Ht) as [H0 H1]. rewrite Hcons in H1.
        destruct (feeds a t s); lia.
      * exists d. split_and!; [done..|]. intros t Ht.
        rewrite Hd3, Hrd, Hcons by done. lia.
    + assert (forall t, feeds a t s = false) as Hno.
      { intros t. unfold feeds. by rewrite E. }
      destruct (IH (fun xy H => Hsub xy (list_elem_of_further _ _ _ H)) d0)
        as (d & Hd1 & Hd2 & Hd3); [done|..].
      * intros t Ht. destruct (Hb t Ht) as [H0 H1].
        rewrite Hcons, Hno in H1. lia.
      * exists d. split_and!; [done..|]. intros t Ht.
        rewrite Hd3, Hcons, Hno by done. lia.
Qed.

(** The counts after the build loop has gone through the cells [P]. *)
Lemma build_deps_over_spec a (P : list (Z * Z)) :
  well_formed a = true -> codes_ok a = true ->
  NoDup P -> (forall xy, xy ∈ P -> xy ∈ interior_xy a) ->
  exists d, build_deps_over a P = Done d /\
            length d = Z.to_nat (size a) /\
            forall t, 0 <= t < size a -> rd d t = fed a (cells_of a P) t.
Proof.
  intros Hwf Hc HP Hsub. unfold build_deps_over.
  destruct (for_each_count_dependency a P Hwf Hc Hsub (zeros a))
    as (d & H1 & H2 & H3).
  - apply length_zeros.
  - intros t Ht. rewrite rd_zeros by done.
    pose proof (fed_bounds a (cells_of a P) t Hc (NoDup_cells_of a P HP Hsub)).
    lia.
  - exists d. split_and!; [done..|]. intros t Ht.
    rewrite H3, rd_zeros by done. lia.
Qed.

Lemma build_deps_spec a :
  well_formed a = true -> codes_ok a = true ->
  exists d, build_deps a = Done d /\
            length d = Z.to_nat (size a) /\
            forall t, 0 <= t < size a -> rd d t = fed a (interior_cells a) t.
Proof.
  intros Hwf Hc.
  apply (build_deps_over_spec a (interior_xy a) Hwf Hc (NoDup_interior_xy a)).
  auto.
Qed.

(** ** Sums over cells *)

Lemma sumZ_ext f g (L : list Z) :
  (forall x, x ∈ L -> f x = g x) -> sumZ f L = sumZ g L.
Proof.
  induction L as [|x L IH]; intros H; simpl; [done|].
  rewrite H by left. rewrite IH; [done|]. intros y Hy. apply H. by right.
Qed.

Lemma sumZ_add f g (L : list Z) :
  sumZ (fun x => f x + g x) L = sumZ f L + sumZ g L.
Proof. induction L as [|x L IH]; simpl; lia. Qed.

Lemma sumZ_nonneg f (L : list Z) :
  (forall x, x ∈ L -> 0 <= f x) -> 0 <= sumZ f L.
Proof.
  induction L as [|x L IH]; intros H; simpl; [done|].
  assert (0 <= f x) by (apply H; left).
  assert (0 <= sumZ f L) by (apply IH; intros y Hy; apply H; by right). lia.
Qed.

Lemma sumZ_delta c k (L : list Z) :
  NoDup L ->
  sumZ (fun x => if decide (x = c) then k else 0) L
  = if decide (c ∈ L) then k else 0.
Proof.
  induction 1 as [|x L Hx HL IH].
  - destruct (decide (c ∈ [])) as [Hin|_]; [|done].
    by apply not_elem_of_nil in Hin.
  - change (sumZ ?f (x :: L)) with (f x + sumZ f L). rewrite IH.
    destruct (decide (x = c)) as [->|Hne], (decide (c ∈ L)) as [Hin|Hin],
      (decide (c ∈ _ :: L)) as [Hin'|Hin']; try done; try lia.
    + exfalso. apply Hin'. left.
    + exfalso. apply Hin'. by right.
    + apply elem_of_cons in Hin' as [?|?]; congruence.
Qed.

Lemma sumZ_ones (L : list Z) : sumZ (fun _ => 1) L = Z.of_nat (length L).
Proof. induction L as [|x L IH]; simpl; lia. Qed.

(** Moving [k] from [c] to [t] leaves the sum as it is. *)
Lemma sumZ_transfer f g c t k (L : list Z) :
  NoDup L -> c ∈ L -> t ∈ L -> c <> t ->
  g c = f c - k -> g t = f t + k ->
  (forall x, x ∈ L -> x <> c -> x <> t -> g x = f x) ->
  sumZ g L = sumZ f L.
Proof.
  intros HL Hc Ht Hne Hgc Hgt Hg.
  rewrite (sumZ_ext g (fun x => (f x + (if decide (x = c) then - k else 0))
                                + (if decide (x = t) then k else 0)) L).
  - rewrite !sumZ_add, !sumZ_delta by done.
    destruct (decide (c ∈ L)), (decide (t ∈ L)); try done. lia.
  - intros x Hx. destruct (decide (x = c)) as [->|?].
    + rewrite decide_False by done. lia.
    + destruct (decide (x = t)) as [->|?]; [lia|]. rewrite Hg by done. lia.
Qed.

(** Two different cells weigh no more than the whole. *)
Lemma sumZ_two f c t (L : list Z) :
  NoDup L -> c ∈ L -> t ∈ L -> c <> t ->
  (forall x, x ∈ L -> 0 <= f x) -> f c + f t <= sumZ f L.
Proof.
  intros HL Hc Ht Hne Hnn.
  pose (g := fun x => if decide (x = c) then 0
                      else if decide (x = t) then 0 else f x).
  assert (sumZ f L
          = sumZ (fun x => (g x + (if decide (x = c) then f c else 0))
                           + (if decide (x = t) then f t else 0)) L) as ->.
  { apply sumZ_ext. intros x _. unfold g.
    destruct (decide (x = c)) as [->|?].
    - rewrite decide_False by done. lia.
    - destruct (decide (x = t)) as [->|?]; lia. }
  rewrite !sumZ_add, !sumZ_delta by done.
  destruct (decide (c ∈ L)), (decide (t ∈ L)); try done.
  assert (0 <= sumZ g L); [|lia].
  apply sumZ_nonneg. intros x Hx. unfold g.
  repeat case_decide; try lia. by apply Hnn.
Qed.

Lemma sumZ_one f c (L : list Z) :
  c ∈ L -> (forall x, x ∈ L -> 0 <= f x) -> f c <= sumZ f L.
Proof.
  induction L as [|x L IH]; intros Hc Hnn; [by apply not_elem_of_nil in Hc|].
  simpl. assert (0 <= f x) by (apply Hnn; left).
  assert (0 <= sumZ f L)
    by (apply sumZ_nonneg; intros y Hy; apply Hnn; by right).
  apply elem_of_cons in Hc as [->|Hc]; [lia|].
  assert (f c <= sumZ f L); [|lia].
  apply IH; [done|]. intros y Hy. apply Hnn. by right.
Qed.

(** ** Pass 2: the sources *)

Lemma find_sources_from a d (P : list (Z * Z)) (acc : list Z) :
  foldl (fun q xy =>
           let '(x, y) := xy in
           if (rd d (xyToI a x y) =? 0) && negb (isNoData_xy a x y)
           then q ++ [xyToI a x y] else q)
        acc P
  = acc ++ filter (fun c => Is_true ((rd d c =? 0) && negb (isNoData a c)))
                  (cells_of a P).
Proof.
  revert acc. induction P as [|[x y] P IH]; intros acc.
  - simpl. by rewrite app_nil_r.
  - cbn [foldl]. rewrite IH, fmap_cons, filter_cons. simpl.
    unfold isNoData_xy.
    destruct ((rd d (xyToI a x y) =? 0) && negb (isNoData a (xyToI a x y)));
      case_decide; try done.
    by rewrite <- app_assoc.
Qed.

Lemma find_sources_spec a d :
  find_sources a d
  = filter (fun c => Is_true ((rd d c =? 0) && negb (isNoData a c)))
           (interior_cells a).
Proof. unfold find_sources. by rewrite find_sources_from. Qed.

Lemma elem_of_find_sources a d c :
  c ∈ find_sources a d <-> active a c = true /\ rd d c = 0.
Proof.
  rewrite find_sources_spec, list_elem_of_filter, elem_of_interior_cells.
  unfold active. rewrite andb_True, Is_true_true, Is_true_true, Z.eqb_eq.
  rewrite andb_true_iff. tauto.
Qed.

Lemma NoDup_find_sources a d : NoDup (find_sources a d).
Proof.
  rewrite find_sources_spec. apply NoDup_filter, NoDup_interior_cells.
Qed.

(** ** Pass 3: one iteration *)

Lemma visit_spec a c st :
  codes_ok a = true -> active a c = true ->
  visit a c st
  = let v := to_uint32 (rd (accum st) c + 1) in
    let accum1 := wr (accum st) c v in
    match next a c with
    | None => Done (mkState accum1 (deps st) (q st) (progress st)
                            (popped st) (decremented st))
    | Some t =>
        let d := to_int8 (rd (deps st) t - 1) in
        if d <? 0 then AssertFailed else
        Done (mkState (wr accum1 t (to_uint32 (rd accum1 t + v)))
                      (wr (deps st) t d)
                      (if d =? 0 then q st ++ [t] else q st)
                      (progress st) (popped st) (decremented st ++ [t]))
    end.
Proof.
  intros Hc Ha. unfold visit, next.
  destruct (iToxy a c) as [cx cy]. rewrite (active_data a c Ha).
  unfold flows at 1.
  destruct (at_i a c =? NO_FLOW) eqn:Hnf; cbn [negb andb]; [done|].
  rewrite (codes_ok_direction a c Hc Ha) by (unfold flows; by rewrite Hnf).
  cbn [negb]. fold (target a c). unfold active at 1, interior.
  destruct (iToxy a (target a c)) as [nx ny].
  destruct (inGrid a nx ny), (isEdgeCell a nx ny), (isNoData a (target a c));
    done.
Qed.

(** ** Pass 3: the invariant *)

Lemma elem_of_snoc (x c : Z) (L : list Z) : x ∈ L ++ [c] <-> x ∈ L \/ x = c.
Proof. by rewrite elem_of_app, list_elem_of_singleton. Qed.

Lemma fed_snoc a L c t :
  fed a (L ++ [c]) t = fed a L t + (if feeds a t c then 1 else 0).
Proof. rewrite fed_app, fed_cons, fed_nil. lia. Qed.

Lemma count_snoc (L : list Z) (x t : Z) :
  count (L ++ [x]) t = count L t + (if decide (x = t) then 1 else 0).
Proof.
  unfold count. rewrite filter_app, length_app, filter_cons, filter_nil.
  destruct (decide (x = t)); simpl; lia.
Qed.

Lemma weight_popped a st c :
  c ∈ popped st ->
  weight a st c = if terminal a c then rd (accum st) c else 0.
Proof. intros H. unfold weight. by rewrite decide_True. Qed.

Lemma weight_pending a st c :
  c ∉ popped st -> weight a st c = rd (accum st) c + 1.
Proof. intros H. unfold weight. by rewrite decide_False. Qed.

Lemma elem_of_actives a c : c ∈ actives a <-> active a c = true.
Proof.
  unfold actives. rewrite list_elem_of_filter, elem_of_interior_cells.
  rewrite Is_true_true. split; [tauto|].
  intros H. split; [done|]. by apply active_interior.
Qed.

Lemma NoDup_actives a : NoDup (actives a).
Proof. apply NoDup_filter, NoDup_interior_cells. Qed.

Lemma length_actives a :
  well_formed a = true -> Z.of_nat (length (actives a)) <= size a.
Proof.
  intros Hwf. pose proof (length_interior_cells a Hwf).
  pose proof (length_filter (fun c => Is_true (active a c)) (interior_cells a)).
  unfold actives. lia.
Qed.

Lemma weight_nonneg a st c :
  inv a st -> c ∈ actives a -> 0 <= weight a st c.
Proof.
  intros Hinv Hc. apply elem_of_actives, active_range in Hc.
  pose proof (inv_nonneg a st Hinv c Hc). unfold weight.
  case_decide; [destruct (terminal a c)|]; lia.
Qed.

Lemma next_feeds a c t t' :
  active a c = true -> next a c = Some t -> feeds a t' c = (t =? t').
Proof.
  intros Ha Hn. unfold next in Hn. unfold feeds. rewrite Ha.
  destruct (flows a c); [|done]. simpl in *.
  destruct (active a (target a c)); [|done]. by injection Hn as ->.
Qed.

Lemma terminal_feeds a c t :
  next a c = None -> active a t = true -> feeds a t c = false.
Proof.
  intros Hn Ht. destruct (feeds a t c) eqn:Hf; [|done].
  apply feeds_next in Hf as [_ Hf]; [congruence|done].
Qed.

(** What the invariant says about the cell at the front of the queue. *)
Lemma front_facts a st c rest :
  inv a st -> q st = c :: rest ->
  active a c = true /\ (c ∉ popped st) /\ (c ∉ rest) /\
  NoDup (popped st) /\ NoDup rest /\
  (forall x, x ∈ popped st -> x ∈ interior_cells a).
Proof.
  intros Hinv Hq.
  pose proof (inv_nodup a st Hinv) as Hnd. rewrite Hq in Hnd.
  apply NoDup_app in Hnd as (Hndp & Hdisj & Hndq).
  apply NoDup_cons in Hndq as [Hcrest Hndrest].
  split_and!; try done.
  - apply (inv_active a st Hinv). rewrite Hq, elem_of_app. right. left.
  - intros H. apply (Hdisj c H). left.
  - intros x Hx. apply elem_of_interior_cells, active_interior.
    apply (inv_active a st Hinv). rewrite elem_of_app. by left.
Qed.

(** A cell that the front of the queue delivers to is still waiting. *)
Lemma pending_deps a st c rest t :
  codes_ok a = true -> inv a st -> q st = c :: rest -> next a c = Some t ->
  1 <= rd (deps st) t <= 8 /\ t ∉ popped st ++ q st.
Proof.
  intros Hc Hinv Hq Hn.
  destruct (front_facts a st c rest Hinv Hq) as (Ha & Hcp & _ & Hndp & _ & Hsub).
  pose proof (next_active a c t Hn) as Hta.
  pose proof (active_range a t Hta) as Htr.
  pose proof (inv_deps a st Hinv t Htr) as Hd. rewrite Hta in Hd.
  assert (feeds a t c = true) as Hf by (by apply feeds_next).
  pose proof (filter_length_extend (fun s => Is_true (feeds a t s))
                (popped st) (interior_cells a) c Hndp Hsub) as Hext.
  unfold fed in *.
  pose proof (feeders_bound a t (interior_cells a) Hc (NoDup_interior_cells a)).
  assert (1 <= rd (deps st) t <= 8) as Hb.
  { rewrite Hd. split; [|lia].
    assert (length (filter (fun s => Is_true (feeds a t s)) (popped st)) + 1
            <= length (filter (fun s => Is_true (feeds a t s)) (interior_cells a)))%nat;
      [|lia].
    apply Hext; [|done|by apply Is_true_true_2].
    by apply elem_of_interior_cells, active_interior. }
  split; [done|]. intros Hin.
  apply (inv_ready a st Hinv t Hta) in Hin. lia.
Qed.

(** The unit a visited cell adds to itself, and what it then passes on, fit
    the 32-bit register. *)
Lemma front_weight a st c rest :
  well_formed a = true -> inv a st -> q st = c :: rest ->
  0 <= rd (accum st) c /\ rd (accum st) c + 1 < 2 ^ 31.
Proof.
  intros Hwf Hinv Hq.
  destruct (front_facts a st c rest Hinv Hq) as (Ha & Hcp & _).
  pose proof (wf_facts a Hwf) as (_ & _ & Hsz & _).
  pose proof (length_actives a Hwf) as Hle.
  pose proof (sumZ_one (weight a st) c (actives a)) as H1.
  rewrite (inv_flow a st Hinv), weight_pending in H1 by done.
  split; [apply (inv_nonneg a st Hinv), active_range, Ha|].
  assert (rd (accum st) c + 1 <= Z.of_nat (length (actives a))); [|lia].
  apply H1; [by apply elem_of_actives|]. intros x Hx. by apply weight_nonneg.
Qed.

(** The visit of a terminal cell. *)
Lemma inv_step_terminal a st c rest :
  well_formed a = true -> codes_ok a = true ->
  inv a st -> q st = c :: rest -> next a c = None ->
  exists st', visit a c (pop c rest st) = Done st' /\ inv a st' /\
              popped st' = popped st ++ [c].
Proof.
  intros Hwf Hc Hinv Hq Hn.
  destruct (front_facts a st c rest Hinv Hq)
    as (Ha & Hcp & Hcrest & Hndp & Hndrest & Hsub).
  destruct (front_weight a st c rest Hwf Hinv Hq) as [Hv0 Hv1].
  pose proof (active_range a c Ha) as Hcr.
  pose proof (inv_accum_len a st Hinv) as Hal.
  rewrite visit_spec by done. rewrite Hn. unfold pop.
  cbn [accum deps q progress popped decremented].
  rewrite to_uint32_small by lia.
  eexists. split; [reflexivity|]. split; [|reflexivity].
  constructor; cbn [accum deps q progress popped decremented].
  - by rewrite length_wr.
  - apply (inv_deps_len a st Hinv).
  - rewrite <- app_assoc. simpl. rewrite <- Hq. apply (inv_nodup a st Hinv).
  - intros x. rewrite <- app_assoc. simpl. rewrite <- Hq.
    apply (inv_active a st Hinv).
  - intros t Ht. rewrite (inv_deps a st Hinv t Ht), fed_snoc.
    destruct (active a t) eqn:Hat; [|done].
    by rewrite (terminal_feeds a c t Hn Hat), Z.add_0_r.
  - intros t Hat. rewrite <- app_assoc. simpl. rewrite <- Hq.
    by apply (inv_ready a st Hinv).
  - rewrite length_app. simpl. rewrite (inv_progress a st Hinv). lia.
  - intros t. rewrite (inv_decremented a st Hinv t), fed_snoc.
    destruct (active a t) eqn:Hat; [|done].
    by rewrite (terminal_feeds a c t Hn Hat), Z.add_0_r.
  - intros t Ht Hat. rewrite rd_wr_ne by (lia || congruence).
    by apply (inv_idle a st Hinv).
  - intros t Ht. rewrite rd_wr by lia. case_decide; [lia|].
    by apply (inv_nonneg a st Hinv).
  - rewrite <- (inv_flow a st Hinv). apply sumZ_ext. intros x Hx.
    destruct (decide (x = c)) as [->|Hne].
    + rewrite (weight_pending a st) by done.
      rewrite weight_popped by (apply elem_of_snoc; by right).
      apply next_terminal in Hn. rewrite Hn. simpl. apply rd_wr_eq. lia.
    + apply elem_of_actives, active_range in Hx.
      unfold weight. simpl. rewrite rd_wr_ne by lia.
      destruct (decide (x ∈ popped st)) as [Hin|Hin].
      * rewrite decide_True; [done|]. apply elem_of_snoc. by left.
      * rewrite decide_False; [done|]. rewrite elem_of_snoc. tauto.
Qed.

(** The visit of a cell that delivers to [t]. *)
Lemma inv_step_deliver a st c rest t :
  well_formed a = true -> codes_ok a = true ->
  inv a st -> q st = c :: rest -> next a c = Some t ->
  exists st', visit a c (pop c rest st) = Done st' /\ inv a st' /\
              popped st' = popped st ++ [c].
Proof.
  intros Hwf Hc Hinv Hq Hn.
  destruct (front_facts a st c rest Hinv Hq)
    as (Ha & Hcp & Hcrest & Hndp & Hndrest & Hsub).
  destruct (front_weight a st c rest Hwf Hinv Hq) as [Hv0 Hv1].
  destruct (pending_deps a st c rest t Hc Hinv Hq Hn) as [Hd Hfresh].
  pose proof (wf_facts a Hwf) as (_ & _ & Hsz & _).
  pose proof (active_range a c Ha) as Hcr.
  pose proof (next_active a c t Hn) as Hta.
  pose proof (active_range a t Hta) as Htr.
  pose proof (inv_accum_len a st Hinv) as Hal.
  pose proof (inv_deps_len a st Hinv) as Hdl.
  pose proof (inv_nonneg a st Hinv t Htr) as Hu0.
  assert (t <> c) as Htc.
  { intros ->. apply Hfresh. rewrite Hq, elem_of_app. right. left. }
  assert (t ∉ popped st) as Htp.
  { intros H. apply Hfresh. rewrite elem_of_app. by left. }
  assert (t ∉ rest) as Htrest.
  { intros H. apply Hfresh. rewrite Hq, elem_of_app. right. by right. }
  assert (rd (accum st) c + 1 + (rd (accum st) t + 1) < 2 ^ 31) as Hsum.
  { pose proof (sumZ_two (weight a st) c t (actives a) (NoDup_actives a)) as H2.
    rewrite (inv_flow a st Hinv), !weight_pending in H2 by done.
    pose proof (length_actives a Hwf).
    assert (rd (accum st) c + 1 + (rd (accum st) t + 1)
            <= Z.of_nat (length (actives a))); [|lia].
    apply H2; [by apply elem_of_actives..|done|].
    intros x Hx. by apply weight_nonneg. }
  assert (forall x, x ∈ (popped st ++ [c]) ++ rest <-> x ∈ popped st ++ q st)
    as Hsame by (intros x; by rewrite <- app_assoc, Hq).
  rewrite visit_spec by done. rewrite Hn. unfold pop.
  cbn [accum deps q progress popped decremented].
  rewrite (to_uint32_small (_ + 1)) by lia.
  rewrite (rd_wr_ne _ c t) by lia.
  rewrite to_uint32_small by lia. rewrite to_int8_small by lia.
  destruct (rd (deps st) t - 1 <? 0) eqn:Hneg; [lia|].
  eexists. split; [reflexivity|]. split; [|reflexivity].
  constructor; cbn [accum deps q progress popped decremented].
  - by rewrite !length_wr.
  - by rewrite length_wr.
  - destruct (rd (deps st) t - 1 =? 0).
    + rewrite app_assoc. apply NoDup_app. split_and!.
      * rewrite <- app_assoc. simpl. rewrite <- Hq. apply (inv_nodup a st Hinv).
      * intros x Hx%Hsame Hxt%list_elem_of_singleton. by subst x.
      * apply NoDup_singleton.
    + rewrite <- app_assoc. simpl. rewrite <- Hq. apply (inv_nodup a st Hinv).
  - intros x Hx.
    assert (x ∈ popped st ++ q st \/ x = t) as [Hx' | ->];
      [|by apply (inv_active a st Hinv)|done].
    destruct (rd (deps st) t - 1 =? 0).
    + rewrite app_assoc in Hx. apply elem_of_snoc in Hx as [Hx|Hx]; [|by right].
      left. by apply Hsame.
    + left. by apply Hsame.
  - intros t' Ht'. rewrite rd_wr by lia.
    rewrite (inv_deps a st Hinv t' Ht'), fed_snoc.
    rewrite (next_feeds a c t t' Ha Hn).
    destruct (decide (t' = t)) as [->|Hne].
    + rewrite (inv_deps a st Hinv t Htr), Hta, Z.eqb_refl. lia.
    + destruct (t =? t') eqn:E; [lia|]. destruct (active a t'); lia.
  - intros t' Hat'. pose proof (active_range a t' Hat') as Ht'.
    rewrite rd_wr by lia.
    destruct (decide (t' = t)) as [->|Hne].
    + destruct (rd (deps st) t - 1 =? 0) eqn:E.
      * split; [lia|]. intros _. rewrite app_assoc. apply elem_of_snoc. by right.
      * split; [|lia]. by intros H%Hsame.
    + rewrite <- (inv_ready a st Hinv t' Hat').
      destruct (rd (deps st) t - 1 =? 0); [|apply Hsame].
      rewrite app_assoc, elem_of_snoc, Hsame. tauto.
  - rewrite length_app. simpl. rewrite (inv_progress a st Hinv). lia.
  - intros t'. rewrite count_snoc, (inv_decremented a st Hinv t'), fed_snoc.
    rewrite (next_feeds a c t t' Ha Hn).
    destruct (decide (t = t')) as [<-|Hne].
    + by rewrite Hta, Z.eqb_refl.
    + destruct (t =? t') eqn:E; [lia|]. destruct (active a t'); lia.
  - intros t' Ht' Hat'.
    rewrite !rd_wr_ne by (lia || congruence).
    by apply (inv_idle a st Hinv).
  - intros t' Ht'. rewrite rd_wr by (rewrite ?length_wr; lia).
    case_decide; [lia|]. rewrite rd_wr by lia. case_decide; [lia|].
    by apply (inv_nonneg a st Hinv).
  - rewrite <- (inv_flow a st Hinv).
    apply (sumZ_transfer _ _ c t (rd (accum st) c + 1));
      [apply NoDup_actives|by apply elem_of_actives..|done| | |].
    + rewrite (weight_pending a st) by done.
      rewrite weight_popped by (apply elem_of_snoc; by right).
      assert (terminal a c = false) as ->; [|lia].
      destruct (terminal a c) eqn:E; [|done].
      apply next_terminal in E. congruence.
    + rewrite (weight_pending a st) by done.
      rewrite weight_pending by (cbn [popped]; rewrite elem_of_snoc; tauto).
      cbn [accum]. rewrite rd_wr_eq by (rewrite length_wr; lia). lia.
    + intros x Hx Hxc Hxt. apply elem_of_actives, active_range in Hx.
      unfold weight. cbn [accum popped]. rewrite !rd_wr_ne by lia.
      destruct (decide (x ∈ popped st)) as [Hin|Hin].
      * rewrite decide_True; [done|]. apply elem_of_snoc. by left.
      * rewrite decide_False; [done|]. rewrite elem_of_snoc. tauto.
Qed.

Lemma inv_step a st c rest :
  well_formed a = true -> codes_ok a = true ->
  inv a st -> q st = c :: rest ->
  exists st', visit a c (pop c rest st) = Done st' /\ inv a st' /\
              popped st' = popped st ++ [c].
Proof.
  intros Hwf Hc Hinv Hq. destruct (next a c) as [t|] eqn:Hn.
  - by apply (inv_step_deliver a st c rest t).
  - by apply inv_step_terminal.
Qed.

(** The invariant holds when the loop starts. *)
Lemma inv_initial a d :
  length d = Z.to_nat (size a) ->
  (forall t, 0 <= t < size a -> rd d t = fed a (interior_cells a) t) ->
  inv a (initial a d).
Proof.
  intros Hlen Hd. unfold initial.
  constructor; cbn [accum deps q progress popped decremented].
  - apply length_zeros.
  - done.
  - apply NoDup_find_sources.
  - intros c Hc. simpl in Hc. by apply elem_of_find_sources in Hc as [? _].
  - intros t Ht. rewrite fed_nil, (Hd t Ht). destruct (active a t); lia.
  - intros t Hat. simpl. rewrite elem_of_find_sources. tauto.
  - done.
  - intros t. rewrite fed_nil. by destruct (active a t).
  - intros t Ht _. by apply rd_zeros.
  - intros t Ht. by rewrite rd_zeros.
  - rewrite <- sumZ_ones. apply sumZ_ext. intros x Hx.
    apply elem_of_actives, active_range in Hx.
    rewrite weight_pending by apply not_elem_of_nil.
    cbn [accum]. by rewrite rd_zeros.
Qed.

(** ** Pass 3: the loop ends *)

Lemma visited_bound a st :
  well_formed a = true -> inv a st ->
  Z.of_nat (length (popped st ++ q st)) <= Z.of_nat (length (actives a)).
Proof.
  intros Hwf Hinv.
  assert (popped st ++ q st ⊆+ actives a) as Hs.
  { apply NoDup_submseteq; [apply (inv_nodup a st Hinv)|].
    intros x Hx. by apply elem_of_actives, (inv_active a st Hinv). }
  apply submseteq_length in Hs. lia.
Qed.

Lemma iterations_inv a k :
  well_formed a = true -> codes_ok a = true ->
  forall st, inv a st ->
  exists st', iterations k a st = Done st' /\ inv a st' /\
              (q st' = [] \/ length (popped st') = (length (popped st) + k)%nat).
Proof.
  intros Hwf Hc. induction k as [|k IH]; intros st Hinv.
  - exists st. split_and!; [done..|]. right. lia.
  - cbn [iterations]. destruct (q st) as [|c rest] eqn:Hq.
    + exists st. split_and!; [done..|]. by left.
    + destruct (inv_step a st c rest Hwf Hc Hinv Hq) as (st1 & Hv & Hinv1 & Hp).
      rewrite Hv. destruct (IH st1 Hinv1) as (st' & Hit & Hinv' & Hlen).
      exists st'. split_and!; [done..|].
      destruct Hlen as [?|Hlen]; [by left|right].
      rewrite Hlen, Hp, length_app. simpl. lia.
Qed.

(** Once the queue is empty, further iterations change nothing. *)
Lemma iterations_stable a k : forall st st' k',
  iterations k a st = Done st' -> q st' = [] -> (k <= k')%nat ->
  iterations k' a st = Done st'.
Proof.
  induction k as [|k IH]; intros st st' k' Hit Hq Hk.
  - injection Hit as ->. destruct k'; cbn [iterations]; by rewrite ?Hq.
  - cbn [iterations] in Hit. destruct (q st) as [|c rest] eqn:Hqst.
    + injection Hit as ->. destruct k'; cbn [iterations]; by rewrite ?Hq.
    + destruct k' as [|k']; [lia|]. cbn [iterations]. rewrite Hqst.
      destruct (visit a c (pop c rest st)) as [st1| | |]; try done.
      apply (IH st1 st' k'); [done..|lia].
Qed.

(** The loop empties the queue within one iteration per cell. *)
Lemma drain_spec a d :
  well_formed a = true -> codes_ok a = true ->
  length d = Z.to_nat (size a) ->
  (forall t, 0 <= t < size a -> rd d t = fed a (interior_cells a) t) ->
  exists st, iterations (enough a) a (initial a d) = Done st /\
             inv a st /\ q st = [].
Proof.
  intros Hwf Hc Hlen Hd.
  destruct (iterations_inv a (enough a) Hwf Hc (initial a d)
              (inv_initial a d Hlen Hd)) as (st & Hit & Hinv & Hend).
  exists st. split_and!; [done..|].
  destruct Hend as [?|Hend]; [done|].
  pose proof (visited_bound a st Hwf Hinv) as Hb.
  pose proof (length_actives a Hwf) as Hle.
  rewrite length_app, Hend in Hb. unfold initial, enough in Hb. simpl in Hb.
  pose proof (wf_facts a Hwf) as (Hw & Hh & _).
  assert (0 <= size a) by (unfold size; nia).
  destruct (q st); [done|]. simpl in Hb. lia.
Qed.

Lemma propagate_within_spec a :
  well_formed a = true -> codes_ok a = true ->
  exists d st,
    build_deps a = Done d /\
    iterations (enough a) a (initial a d) = Done st /\
    inv a st /\ q st = [] /\
    forall fuel, (enough a <= fuel)%nat -> propagate_within fuel a = Done st.
Proof.
  intros Hwf Hc.
  destruct (build_deps_spec a Hwf Hc) as (d & Hb & Hlen & Hd).
  destruct (drain_spec a d Hwf Hc Hlen Hd) as (st & Hit & Hinv & Hq).
  exists d, st. split_and!; [done..|]. intros fuel Hfuel.
  unfold propagate_within, drain. rewrite Hb. simpl.
  rewrite (iterations_stable a (enough a) _ st fuel Hit Hq Hfuel). simpl.
  by rewrite Hq.
Qed.

(** ** Pass 4: the sweep *)

Lemma sweep_over a (L : list Z) : forall acc,
  (forall i, i ∈ L -> 0 <= i < Z.of_nat (length acc)) ->
  let r := foldl (fun acc i =>
                    if isNoData a i then wr acc i (to_uint32 (noData a))
                    else acc) acc L in
  length r = length acc /\
  forall j, 0 <= j ->
    rd r j = if decide (j ∈ L /\ isNoData a j = true)
             then to_uint32 (noData a) else rd acc j.
Proof.
  induction L as [|i L IH]; intros acc HL; cbn [foldl].
  - split; [done|]. intros j Hj. rewrite decide_False; [done|].
    intros [H _]. by apply not_elem_of_nil in H.
  - assert (0 <= i < Z.of_nat (length acc)) as Hi by (apply HL; left).
    set (acc1 := if isNoData a i then wr acc i (to_uint32 (noData a)) else acc).
    assert (length acc1 = length acc) as Hl1
      by (unfold acc1; destruct (isNoData a i); by rewrite ?length_wr).
    destruct (IH acc1) as [Hlen Hrd].
    { intros k Hk. rewrite Hl1. apply HL. by right. }
    split; [congruence|]. intros j Hj. rewrite (Hrd j Hj).
    destruct (decide (j ∈ L /\ isNoData a j = true)) as [[H1 H2]|Hno].
    + rewrite decide_True; [done|]. split; [by right|done].
    + destruct (decide (j = i)) as [->|Hne].
      * unfold acc1. destruct (isNoData a i) eqn:E.
        -- rewrite rd_wr_eq by done. rewrite decide_True; [done|].
           split; [left|done].
        -- rewrite decide_False; [done|]. intros [_ ?]. congruence.
      * assert (rd acc1 j = rd acc j) as ->.
        { unfold acc1. destruct (isNoData a i); [|done].
          apply rd_wr_ne; lia. }
        rewrite decide_False; [done|]. intros [H1 H2]. apply Hno.
        apply elem_of_cons in H1 as [?|?]; [congruence|done].
Qed.

Lemma sweep_spec a acc j :
  length acc = Z.to_nat (size a) -> 0 <= j < size a ->
  rd (sweep a acc) j
  = if isNoData a j then to_uint32 (noData a) else rd acc j.
Proof.
  intros Hlen Hj. unfold sweep, i0.
  destruct (sweep_over a (seqZ 0 (size a - 0)) acc) as [_ H].
  { intros i Hi%elem_of_seqZ. lia. }
  rewrite H by lia. destruct (isNoData a j) eqn:E.
  - rewrite decide_True; [done|]. split; [|done]. apply elem_of_seqZ. lia.
  - rewrite decide_False; [done|]. intros [_ ?]. congruence.
Qed.

(** ** Cycles *)

Lemma walk_last a k c :
  walk a (S k) c
  = match walk a k c with Some p => next a p | None => None end.
Proof.
  revert c. induction k as [|k IH]; intros c.
  - simpl. by destruct (next a c).
  - change (walk a (S (S k)) c)
      with (match next a c with Some t => walk a (S k) t | None => None end).
    change (walk a (S k) c)
      with (match next a c with Some t => walk a k t | None => None end).
    destruct (next a c) as [t|]; [apply IH|done].
Qed.

(** A cell on a cycle is delivered to by a cell on a cycle. *)
Lemma on_cycle_pred a c :
  on_cycle a c -> exists p, on_cycle a p /\ next a p = Some c.
Proof.
  intros [k Hk]. rewrite walk_last in Hk.
  destruct (walk a k c) as [p|] eqn:Hp; [|done].
  exists p. split; [|done]. exists k.
  change (walk a (S k) p)
    with (match next a p with Some t => walk a k t | None => None end).
  by rewrite Hk.
Qed.

Lemma on_cycle_active a c : on_cycle a c -> active a c = true.
Proof. intros (p & _ & Hp)%on_cycle_pred. by apply next_active in Hp. Qed.

(** When the count of an active cell is zero, every cell that feeds it has
    been visited. *)
Lemma ready_feeders a st t s :
  inv a st -> active a t = true -> rd (deps st) t = 0 ->
  feeds a t s = true -> s ∈ popped st.
Proof.
  intros Hinv Hta Hd Hf.
  destruct (decide (s ∈ popped st)) as [|Hs]; [done|exfalso].
  pose proof (inv_nodup a st Hinv) as Hnd.
  apply NoDup_app in Hnd as (Hndp & _ & _).
  pose proof (inv_deps a st Hinv t (active_range a t Hta)) as Hdeps.
  rewrite Hta, Hd in Hdeps.
  pose proof (filter_length_extend (fun x => Is_true (feeds a t x))
                (popped st) (interior_cells a) s Hndp) as Hext.
  unfold fed in Hdeps.
  assert (length (filter (fun x => Is_true (feeds a t x)) (popped st)) + 1
          <= length (filter (fun x => Is_true (feeds a t x)) (interior_cells a)))%nat;
    [|lia].
  apply Hext; [|by apply elem_of_interior_cells, active_interior;
                   apply feeds_inv in Hf as [? _]|done|by apply Is_true_true_2].
  intros x Hx. apply elem_of_interior_cells, active_interior.
  apply (inv_active a st Hinv). rewrite elem_of_app. by left.
Qed.

Lemma cycle_free_queue a st c :
  inv a st -> cycle_free a st -> c ∈ q st -> ~ on_cycle a c.
Proof.
  intros Hinv Hfree Hc Hcyc.
  destruct (on_cycle_pred a c Hcyc) as (p & Hp & Hn).
  pose proof (on_cycle_active a c Hcyc) as Hca.
  pose proof (on_cycle_active a p Hp) as Hpa.
  apply (Hfree p); [|done].
  apply (ready_feeders a st c p Hinv Hca).
  - apply (inv_ready a st Hinv c Hca). rewrite elem_of_app. by right.
  - by apply feeds_next.
Qed.

Lemma iterations_cycle_free a k :
  well_formed a = true -> codes_ok a = true ->
  forall st st', inv a st -> cycle_free a st ->
                 iterations k a st = Done st' -> cycle_free a st'.
Proof.
  intros Hwf Hc. induction k as [|k IH]; intros st st' Hinv Hfree Hit.
  - by injection Hit as <-.
  - cbn [iterations] in Hit. destruct (q st) as [|c rest] eqn:Hq.
    + by injection Hit as <-.
    + destruct (inv_step a st c rest Hwf Hc Hinv Hq) as (st1 & Hv & Hinv1 & Hp).
      rewrite Hv in Hit. apply (IH st1 st' Hinv1); [|done].
      intros x Hx. rewrite Hp in Hx. apply elem_of_snoc in Hx as [Hx| ->].
      * by apply Hfree.
      * apply (cycle_free_queue a st c Hinv Hfree). rewrite Hq. left.
Qed.

(** ** Acyclic fields: every active cell is visited *)

Lemma list_find_or_all (P : Z -> Prop) `{!forall x, Decision (P x)}
    (L : list Z) :
  (exists x, x ∈ L /\ P x) \/ (forall x, x ∈ L -> ~ P x).
Proof.
  induction L as [|x L [(y & Hy & HP)|IH]].
  - right. intros x Hx. by apply not_elem_of_nil in Hx.
  - left. exists y. split; [by right|done].
  - destruct (decide (P x)) as [HP|HP].
    + left. exists x. split; [left|done].
    + right. intros y [->|Hy]%elem_of_cons; [done|by apply IH].
Qed.

(** A cell left unvisited when the queue is empty is fed by another one. *)
Lemma unvisited_pred a st c :
  inv a st -> q st = [] -> active a c = true -> c ∉ popped st ->
  exists p, active a p = true /\ (p ∉ popped st) /\ next a p = Some c.
Proof.
  intros Hinv Hq Hca Hcp.
  destruct (list_find_or_all
              (fun p => Is_true (feeds a c p) /\ p ∉ popped st)
              (interior_cells a)) as [(p & _ & Hf & Hp)|Hall].
  - apply Is_true_true_1 in Hf. apply feeds_next in Hf as [? ?]; [|done].
    by exists p.
  - exfalso. apply Hcp.
    assert (c ∈ popped st ++ q st) as Hin; [|by rewrite Hq, app_nil_r in Hin].
    apply (inv_ready a st Hinv c Hca).
    pose proof (inv_deps a st Hinv c (active_range a c Hca)) as Hd.
    rewrite Hca in Hd. rewrite Hd. unfold fed.
    pose proof (inv_nodup a st Hinv) as Hnd.
    apply NoDup_app in Hnd as (Hndp & _ & _).
    assert (length (filter (fun s => Is_true (feeds a c s)) (interior_cells a))
            <= length (filter (fun s => Is_true (feeds a c s)) (popped st)))%nat.
    { apply filter_length_subset; [apply NoDup_interior_cells|].
      intros x Hx HP. destruct (decide (x ∈ popped st)); [done|].
      exfalso. by apply (Hall x Hx). }
    assert (length (filter (fun s => Is_true (feeds a c s)) (popped st))
            <= length (filter (fun s => Is_true (feeds a c s)) (interior_cells a)))%nat;
      [|lia].
    apply filter_length_subset; [done|]. intros x Hx _.
    apply elem_of_interior_cells, active_interior.
    apply (inv_active a st Hinv). rewrite elem_of_app. by left.
Qed.

Lemma unvisited_chain a st :
  inv a st -> q st = [] ->
  forall n c, active a c = true -> c ∉ popped st ->
  exists p, active a p = true /\ (p ∉ popped st) /\ walk a n p = Some c.
Proof.
  intros Hinv Hq. induction n as [|n IH]; intros c Hca Hcp.
  - by exists c.
  - destruct (IH c Hca Hcp) as (p & Hpa & Hpp & Hw).
    destruct (unvisited_pred a st p Hinv Hq Hpa Hpp) as (p' & Hpa' & Hpp' & Hn).
    exists p'. split_and!; [done..|].
    change (walk a (S n) p')
      with (match next a p' with Some t => walk a n t | None => None end).
    by rewrite Hn.
Qed.

Lemma acyclic_complete a st c :
  acyclic a = true -> inv a st -> q st = [] ->
  active a c = true -> c ∈ popped st.
Proof.
  intros Hac Hinv Hq Hca.
  destruct (decide (c ∈ popped st)) as [|Hcp]; [done|exfalso].
  destruct (unvisited_chain a st Hinv Hq (enough a) c Hca Hcp)
    as (p & Hpa & _ & Hw).
  unfold acyclic in Hac. apply Is_true_true_2, forallb_True in Hac.
  rewrite Forall_forall in Hac. specialize (Hac p).
  rewrite Hw in Hac. apply Hac. by apply elem_of_actives.
Qed.

(** ** The whole run *)

Lemma cycle_free_initial a d : cycle_free a (initial a d).
Proof. intros c Hc. by apply not_elem_of_nil in Hc. Qed.

Lemma reached_exists a k :
  well_formed a = true -> codes_ok a = true ->
  exists st, reached a k st /\ inv a st /\ cycle_free a st.
Proof.
  intros Hwf Hc.
  destruct (build_deps_spec a Hwf Hc) as (d & Hb & Hlen & Hd).
  pose proof (inv_initial a d Hlen Hd) as Hinv0.
  destruct (iterations_inv a k Hwf Hc (initial a d) Hinv0)
    as (st & Hit & Hinv & _).
  exists st. split_and!; [by exists d|done|].
  apply (iterations_cycle_free a k Hwf Hc (initial a d) st Hinv0); [|done].
  apply cycle_free_initial.
Qed.

Lemma reached_inv a k st :
  well_formed a = true -> codes_ok a = true ->
  reached a k st -> inv a st /\ cycle_free a st.
Proof.
  intros Hwf Hc (d & Hb & Hit).
  destruct (reached_exists a k Hwf Hc) as (st' & (d' & Hb' & Hit') & Hinv & Hfree).
  rewrite Hb in Hb'. injection Hb' as <-. rewrite Hit in Hit'.
  by injection Hit' as <-.
Qed.

Lemma run_spec a :
  well_formed a = true -> codes_ok a = true ->
  exists st,
    reached a (enough a) st /\ inv a st /\ cycle_free a st /\ q st = [] /\
    forall fuel, (enough a <= fuel)%nat ->
      propagate_within fuel a = Done st /\
      flow_accumulation_within fuel a = Done (finish a st).
Proof.
  intros Hwf Hc.
  destruct (propagate_within_spec a Hwf Hc) as (d & st & Hb & Hit & Hinv & Hq & Hf).
  assert (reached a (enough a) st) as Hr by (by exists d).
  exists st. split_and!; [done|done|by apply (reached_inv a (enough a))|done|].
  intros fuel Hfuel. unfold flow_accumulation_within.
  by rewrite (Hf fuel Hfuel).
Qed.

(** *** [acyclic] is the absence of cycles *)

Lemma walk_add a i m c :
  walk a (i + m) c
  = match walk a i c with Some x => walk a m x | None => None end.
Proof.
  revert c. induction i as [|i IH]; intros c; [done|].
  change (walk a (S i + m) c)
    with (match next a c with Some t => walk a (i + m) t | None => None end).
  change (walk a (S i) c)
    with (match next a c with Some t => walk a i t | None => None end).
  destruct (next a c); [apply IH|done].
Qed.

Lemma walk_active a k c z :
  active a c = true -> walk a k c = Some z -> active a z = true.
Proof.
  destruct k as [|k]; [by intros ? [= <-]|]. intros _.
  rewrite walk_last. destruct (walk a k c); [|done]. apply next_active.
Qed.

(** Without a cycle, a walk does not come back to a cell: it is shorter
    than the number of active cells. *)
Lemma no_cycle_walk_bound a k c z :
  (forall x, ~ on_cycle a x) -> active a c = true ->
  walk a k c = Some z -> (S k <= length (actives a))%nat.
Proof.
  intros Hno Ha Hw.
  assert (forall i, (i <= k)%nat -> exists x, walk a i c = Some x) as Hpre.
  { intros i Hi. replace k with (i + (k - i))%nat in Hw by lia.
    rewrite walk_add in Hw. destruct (walk a i c) as [x|]; [by exists x|done]. }
  set (L := (fun i => default 0 (walk a i c)) <$> seq 0 (S k)).
  assert (L ⊆+ actives a) as Hs.
  { apply NoDup_submseteq.
    - apply NoDup_fmap_2_strong; [|apply NoDup_seq].
      assert (forall i j, (i < j <= k)%nat ->
                default 0 (walk a i c) <> default 0 (walk a j c)) as Hlt.
      { intros i j Hij Heq.
        destruct (Hpre i) as [x Hx]; [lia|].
        destruct (Hpre j) as [y Hy]; [lia|].
        rewrite Hx, Hy in Heq. simpl in Heq. subst y.
        apply (Hno x). exists (j - i - 1)%nat.
        replace j with (i + S (j - i - 1))%nat in Hy by lia.
        by rewrite walk_add, Hx in Hy. }
      intros i j Hi%elem_of_seq Hj%elem_of_seq Heq.
      destruct (Nat.lt_trichotomy i j) as [?|[?|?]]; [|done|].
      + exfalso. apply (Hlt i j); [lia|done].
      + exfalso. apply (Hlt j i); [lia|done].
    - intros x (i & -> & Hi%elem_of_seq)%list_elem_of_fmap.
      destruct (Hpre i) as [y Hy]; [lia|]. rewrite Hy. simpl.
      by apply elem_of_actives, (walk_active a i c). }
  apply submseteq_length in Hs. unfold L in Hs.
  by rewrite length_fmap, length_seq in Hs.
Qed.

Lemma acyclic_iff a :
  well_formed a = true -> codes_ok a = true ->
  (acyclic a = true <-> forall c, ~ on_cycle a c).
Proof.
  intros Hwf Hc. split.
  - intros Hac c Hcyc.
    destruct (run_spec a Hwf Hc) as (st & _ & Hinv & Hfree & Hq & _).
    apply (Hfree c); [|done].
    by apply (acyclic_complete a st c), on_cycle_active.
  - intros Hno. unfold acyclic.
    apply Is_true_true_1, forallb_True, Forall_forall.
    intros c Hin%elem_of_actives.
    destruct (walk a (enough a) c) as [z|] eqn:Hw; [|done].
    pose proof (no_cycle_walk_bound a (enough a) c z Hno Hin Hw).
    pose proof (length_actives a Hwf).
    pose proof (wf_facts a Hwf) as (? & ? & _).
    assert (0 <= size a) by (unfold size; nia).
    unfold enough in *. lia.
Qed.

Lemma finish_spec a st i :
  inv a st -> 0 <= i < size a ->
  at_i (finish a st) i
  = if isNoData a i then to_uint32 (noData a) else rd (accum st) i.
Proof.
  intros Hinv Hi. unfold at_i, finish. cbn [data].
  apply sweep_spec; [apply (inv_accum_len a st Hinv)|done].
Qed.

(** ** Codes outside the tables *)

Lemma for_each_fails {A S : Type} (f : A -> S -> outcome S) (L : list A) :
  (forall x s, (exists s', f x s = Done s') \/ f x s = OutOfBounds) ->
  (exists x, x ∈ L /\ forall s, f x s = OutOfBounds) ->
  forall s, for_each f L s = OutOfBounds.
Proof.
  intros Hf. induction L as [|x L IH]; intros (y & Hy & Hbad) s.
  - by apply not_elem_of_nil in Hy.
  - cbn [for_each]. destruct (Hf x s) as [[s' Hs]|Hs]; rewrite Hs; [|done].
    simpl. apply elem_of_cons in Hy as [->|Hy].
    + by rewrite Hbad in Hs.
    + apply IH. by exists y.
Qed.

Lemma count_dependency_cases a xy d :
  (exists d', count_dependency a xy d = Done d')
  \/ count_dependency a xy d = OutOfBounds.
Proof.
  unfold count_dependency. destruct xy as [x y].
  destruct (isNoData_xy a x y); [left; by eexists|].
  destruct (at_xy a x y =? NO_FLOW); [left; by eexists|].
  destruct (is_direction (at_xy a x y)); [|by right].
  cbn [negb].
  destruct (inGrid a (x + d8x (at_xy a x y)) (y + d8y (at_xy a x y)));
    left; by eexists.
Qed.

(** Without [codes_ok] the build pass reads the tables out of bounds. *)
Lemma build_deps_fails a : codes_ok a = false -> build_deps a = OutOfBounds.
Proof.
  intros Hc. unfold build_deps, build_deps_over.
  apply for_each_fails; [apply count_dependency_cases|].
  destruct (list_find_or_all
              (fun c => (isNoData a c || (at_i a c =? NO_FLOW)
                         || is_direction (at_i a c)) = false)
              (interior_cells a)) as [(c & Hin & Hbad)|Hall].
  - apply list_elem_of_fmap in Hin as ([x y] & -> & Hxy). simpl in Hbad.
    exists (x, y). split; [done|]. intros s.
    unfold count_dependency, isNoData_xy, at_xy.
    apply orb_false_elim in Hbad as [Hbad Hdir].
    apply orb_false_elim in Hbad as [Hnd Hnf].
    by rewrite Hnd, Hnf, Hdir.
  - exfalso. unfold codes_ok in Hc.
    apply Is_true_false_2 in Hc. apply Hc, forallb_True, Forall_forall.
    intros c Hin. apply Is_true_true_2.
    specialize (Hall c Hin). by apply not_false_is_true in Hall.
Qed.

Lemma run_fails a fuel :
  codes_ok a = false -> flow_accumulation_within fuel a = OutOfBounds.
Proof.
  intros Hc. unfold flow_accumulation_within, propagate_within.
  by rewrite (build_deps_fails a Hc).
Qed.

(** ** Consequences of the invariant *)

Lemma fed_popped_le a st t :
  inv a st -> fed a (popped st) t <= fed a (interior_cells a) t.
Proof.
  intros Hinv. pose proof (inv_nodup a st Hinv) as Hnd.
  apply NoDup_app in Hnd as (Hndp & _ & _).
  assert (length (filter (fun s => Is_true (feeds a t s)) (popped st))
          <= length (filter (fun s => Is_true (feeds a t s)) (interior_cells a)))%nat;
    [|unfold fed; lia].
  apply filter_length_subset; [done|]. intros x Hx _.
  apply elem_of_interior_cells, active_interior.
  apply (inv_active a st Hinv). rewrite elem_of_app. by left.
Qed.

Lemma deps_bounds a st t :
  codes_ok a = true -> inv a st -> 0 <= t < size a ->
  0 <= rd (deps st) t <= 8.
Proof.
  intros Hc Hinv Ht. rewrite (inv_deps a st Hinv t Ht).
  pose proof (fed_popped_le a st t Hinv).
  pose proof (fed_bounds a (interior_cells a) t Hc (NoDup_interior_cells a)).
  assert (0 <= fed a (popped st) t) by (unfold fed; lia).
  destruct (active a t); lia.
Qed.

Lemma border_not_active a i : border a i = true -> active a i = false.
Proof.
  intros Hb. destruct (active a i) eqn:Ha; [|done].
  apply active_interior, interior_not_border in Ha. congruence.
Qed.

Lemma sumZ_filter f (P : Z -> Prop) `{!forall x, Decision (P x)} (L : list Z) :
  sumZ f (filter P L) = sumZ (fun x => if decide (P x) then f x else 0) L.
Proof.
  induction L as [|x L IH]; [done|].
  rewrite filter_cons.
  change (sumZ ?g (x :: L)) with (g x + sumZ g L). cbv beta.
  destruct (decide (P x)); [|by rewrite IH].
  change (sumZ f (x :: filter P L)) with (f x + sumZ f (filter P L)).
  by rewrite IH.
Qed.

Lemma propagate_unfold a : propagate a = propagate_within (enough a) a.
Proof. done. Qed.

Lemma flow_accumulation_unfold a :
  flow_accumulation_from_d8 a = flow_accumulation_within (enough a) a.
Proof. done. Qed.

(** ** The properties of the run *)

(** C1, as amended.  When the queue is empty and a cell that is not no-data
    is left with a dependency count other than zero, nothing is reported:
    the function returns the accumulation grid, which holds at that cell
    whatever its register held when the loop ended. *)
Theorem residual_counts_are_not_reported a :
  well_formed a = true -> codes_ok a = true ->
  exists st,
    propagate a = Done st /\ q st = [] /\
    forall i, 0 <= i < size a -> isNoData a i = false ->
              rd (deps st) i <> 0 ->
      flow_accumulation_from_d8 a = Done (finish a st) /\
      at_i (finish a st) i = rd (accum st) i.
Proof.
  intros Hwf Hc.
  destruct (run_spec a Hwf Hc) as (st & _ & Hinv & _ & Hq & Hrun).
  destruct (Hrun (enough a)) as [Hp Hf]; [done|].
  exists st. split_and!; [done..|]. intros i Hi Hnd _.
  split; [done|]. by rewrite finish_spec, Hnd.
Qed.

(** C3, as amended.  On a 3 x 3 grid without no-data cells whose eight
    border cells route into the centre and whose centre has the no-flow
    code, the function returns 1 at the centre and 0 at each border cell. *)
Theorem star_accumulation a :
  width a = 3 -> height a = 3 -> length (data a) = 9%nat ->
  forallb (fun i => negb (isNoData a i)) (seqZ 0 9) = true ->
  at_i a 4 = NO_FLOW ->
  forallb (fun i => (i =? 4) || routes_to_centre a i) (seqZ 0 9) = true ->
  exists r, flow_accumulation_from_d8 a = Done r /\
            at_i r 4 = 1 /\
            forall i, 0 <= i < 9 -> i <> 4 -> at_i r i = 0.
Proof.
  intros Hw Hh Hlen Hdata Hcentre _.
  assert (forall i, 0 <= i < 9 -> isNoData a i = false) as Hnd.
  { intros i Hi. apply Is_true_true_2, forallb_True in Hdata.
    rewrite Forall_forall in Hdata.
    assert (i ∈ seqZ 0 9) as Hin by (apply elem_of_seqZ; lia).
    apply Hdata, Is_true_true_1 in Hin. by apply negb_true_iff in Hin. }
  assert (size a = 9) as Hsz by (unfold size; lia).
  assert (well_formed a = true) as Hwf by (unfold well_formed; lia).
  assert (interior_cells a = [4]) as Hcells.
  { unfold interior_cells, interior_xy, xyToI. by rewrite Hw, Hh. }
  assert (forall i, interior a i = true <-> i = 4) as Hint.
  { intros i. by rewrite <- elem_of_interior_cells, Hcells,
      list_elem_of_singleton. }
  assert (flows a 4 = false) as Hfl.
  { unfold flows. by rewrite Hcentre, Z.eqb_refl. }
  assert (codes_ok a = true) as Hc.
  { unfold codes_ok. rewrite Hcells. simpl.
    by rewrite Hcentre, Z.eqb_refl, orb_true_r. }
  assert (forall t s, feeds a t s = false) as Hfeeds.
  { intros t s. destruct (feeds a t s) eqn:E; [|done].
    apply feeds_inv in E as (Ha & Hf & _).
    apply active_interior, Hint in Ha. congruence. }
  assert (forall L t, fed a L t = 0) as Hfed.
  { intros L t. induction L as [|s L IH]; [done|].
    by rewrite fed_cons, Hfeeds, IH. }
  assert (active a 4 = true) as Ha4.
  { unfold active. rewrite Hnd by lia. rewrite andb_true_r. by apply Hint. }
  destruct (run_spec a Hwf Hc) as (st & _ & Hinv & _ & Hq & Hrun).
  destruct (Hrun (enough a)) as [_ Hf]; [done|].
  exists (finish a st). split_and!; [done| |].
  - rewrite finish_spec, Hnd by (done || lia).
    assert (4 ∈ popped st) as Hp.
    { assert (4 ∈ popped st ++ q st) as H; [|by rewrite Hq, app_nil_r in H].
      apply (inv_ready a st Hinv 4 Ha4).
      rewrite (inv_deps a st Hinv) by lia. rewrite !Hfed.
      by destruct (active a 4). }
    pose proof (inv_flow a st Hinv) as Hflow.
    assert (actives a = [4]) as Hact.
    { unfold actives. rewrite Hcells, filter_cons, filter_nil.
      rewrite decide_True; [done|]. by apply Is_true_true_2. }
    rewrite Hact in Hflow. simpl in Hflow.
    rewrite weight_popped in Hflow by done.
    assert (terminal a 4 = true) as Ht by (unfold terminal; by rewrite Hfl).
    rewrite Ht in Hflow. lia.
  - intros i Hi Hne. rewrite finish_spec, Hnd by (done || lia).
    apply (inv_idle a st Hinv); [lia|].
    destruct (active a i) eqn:Ha; [|done].
    apply active_interior, Hint in Ha. congruence.
Qed.

(** C4, as amended.  On an acyclic field, the accumulation values of the
    interior terminal cells (no-flow code, or a target that is on the
    border or no-data) add up to the number of interior cells that are not
    no-data. *)
Theorem interior_conservation a :
  well_formed a = true -> codes_ok a = true -> acyclic a = true ->
  exists r, flow_accumulation_from_d8 a = Done r /\
            sumZ (at_i r) (filter (fun c => terminal a c) (actives a))
            = Z.of_nat (length (actives a)).
Proof.
  intros Hwf Hc Hac.
  destruct (run_spec a Hwf Hc) as (st & _ & Hinv & _ & Hq & Hrun).
  destruct (Hrun (enough a)) as [_ Hf]; [done|].
  exists (finish a st). split; [done|].
  rewrite <- (inv_flow a st Hinv), sumZ_filter.
  apply sumZ_ext. intros c Hc'. apply elem_of_actives in Hc' as Ha.
  rewrite weight_popped by (by apply (acyclic_complete a st c)).
  rewrite finish_spec, (active_data a c Ha)
    by (done || by apply active_range).
  destruct (terminal a c); by case_decide.
Qed.

(** ** The border in the build pass *)

Lemma rd_ext (l1 l2 : list Z) (n : nat) :
  length l1 = n -> length l2 = n ->
  (forall i, 0 <= i < Z.of_nat n -> rd l1 i = rd l2 i) -> l1 = l2.
Proof.
  intros H1 H2 Hrd. apply (list_eq_same_length l1 l2 n); [done..|].
  intros i x y Hi Hx Hy. specialize (Hrd (Z.of_nat i)).
  unfold rd in Hrd. rewrite Nat2Z.id in Hrd.
  rewrite (list_lookup_total_correct _ _ _ Hx) in Hrd.
  rewrite (list_lookup_total_correct _ _ _ Hy) in Hrd. apply Hrd. lia.
Qed.

Lemma same_interior_cells a a' :
  same_interior a a' ->
  interior_cells a' = interior_cells a /\
  forall i, interior a' i = interior a i.
Proof.
  intros (Hw & Hh & _ & _). split.
  - unfold interior_cells, interior_xy, xyToI. by rewrite Hw, Hh.
  - intros i. unfold interior, iToxy, inGrid, isEdgeCell. by rewrite Hw, Hh.
Qed.

Lemma same_interior_feeds a a' t s :
  same_interior a a' -> feeds a' t s = feeds a t s.
Proof.
  intros Hs. destruct (same_interior_cells a a' Hs) as [_ Hi].
  destruct Hs as (Hw & Hh & Hnd & Hat).
  unfold feeds, active, flows, target, nshift, isNoData.
  rewrite Hi, Hw, Hnd.
  destruct (interior a s) eqn:E; [|done]. by rewrite (Hat s E).
Qed.

Lemma same_interior_codes a a' :
  same_interior a a' -> codes_ok a = true -> codes_ok a' = true.
Proof.
  intros Hs Hc. destruct (same_interior_cells a a' Hs) as [Hcells _].
  destruct Hs as (_ & _ & Hnd & Hat).
  unfold codes_ok in *. rewrite Hcells.
  apply Is_true_true_1, forallb_True, Forall_forall.
  apply Is_true_true_2, forallb_True in Hc. rewrite Forall_forall in Hc.
  intros c Hin. specialize (Hc c Hin).
  apply elem_of_interior_cells in Hin.
  unfold isNoData. by rewrite (Hat c Hin), Hnd.
Qed.

(** C5.  The build pass leaves in every cell the number of interior cells
    that route into it: no border cell is among the cells counted, a
    border cell that an interior cell routes into has its own count
    incremented, and the counts are the same whatever the border cells
    hold. *)
Theorem border_cells_are_targets_only a :
  well_formed a = true -> codes_ok a = true ->
  exists d,
    build_deps a = Done d /\
    (forall t, 0 <= t < size a -> rd d t = Z.of_nat (length (upstream a t))) /\
    (forall s t, border a s = true -> s ∉ upstream a t) /\
    (forall s t, border a t = true -> s ∈ upstream a t ->
                 0 <= t < size a /\ 1 <= rd d t) /\
    (forall a', well_formed a' = true -> same_interior a a' ->
                build_deps a' = Done d).
Proof.
  intros Hwf Hc. destruct (build_deps_spec a Hwf Hc) as (d & Hb & Hlen & Hd).
  exists d. split_and!; [done|done| | |].
  - intros s t Hs [Hf _]%list_elem_of_filter.
    apply Is_true_true_1, feeds_inv in Hf as (Ha & _).
    apply border_not_active in Hs. congruence.
  - intros s t Ht Hin. pose proof (border_range a t Ht) as Hr.
    split; [done|]. rewrite (Hd t Hr). unfold fed. fold (upstream a t).
    destruct (upstream a t); [by apply not_elem_of_nil in Hin|simpl; lia].
  - intros a' Hwf' Hs.
    pose proof (same_interior_codes a a' Hs Hc) as Hc'.
    destruct (build_deps_spec a' Hwf' Hc') as (d' & Hb' & Hlen' & Hd').
    destruct (same_interior_cells a a' Hs) as [Hcells _].
    assert (size a' = size a) as Hsz.
    { destruct Hs as (Hw & Hh & _). unfold size. by rewrite Hw, Hh. }
    rewrite Hb'. f_equal.
    apply (rd_ext d' d (Z.to_nat (size a))); [congruence|done|].
    intros t Ht. pose proof (wf_facts a Hwf) as (? & ? & _).
    assert (0 <= size a) by (unfold size; nia).
    rewrite Hd', Hd, Hcells by lia. unfold fed. do 2 f_equal.
    apply list_filter_iff. intros s. by rewrite (same_interior_feeds a a' t s Hs).
Qed.

(** C6, as amended.  On an acyclic field, the count of each interior cell
    that is not no-data is decremented once per upstream edge that targets
    it, and the counts of the other cells (border, no-data) are never
    decremented; each such interior cell is put on the queue once and taken
    from it once, the other cells never; and at every point of the run the
    cells that were put on the queue are the interior cells, not no-data,
    whose count is zero. *)
Theorem each_cell_once a :
  well_formed a = true -> codes_ok a = true -> acyclic a = true ->
  exists st,
    propagate a = Done st /\ q st = [] /\
    (forall t, active a t = true ->
               count (decremented st) t = Z.of_nat (length (upstream a t))) /\
    (forall t, active a t = false -> count (decremented st) t = 0) /\
    NoDup (popped st) /\
    (forall t, t ∈ popped st <-> active a t = true) /\
    (forall k st', reached a k st' ->
       NoDup (popped st' ++ q st') /\
       forall t, t ∈ popped st' ++ q st'
                 <-> active a t = true /\ rd (deps st') t = 0).
Proof.
  intros Hwf Hc Hac.
  destruct (run_spec a Hwf Hc) as (st & _ & Hinv & _ & Hq & Hrun).
  destruct (Hrun (enough a)) as [Hp _]; [done|].
  pose proof (inv_nodup a st Hinv) as Hnd. rewrite Hq, app_nil_r in Hnd.
  assert (forall t, t ∈ popped st <-> active a t = true) as Hall.
  { intros t. split; [|by apply acyclic_complete].
    intros Ht. apply (inv_active a st Hinv). rewrite elem_of_app. by left. }
  exists st. split_and!; [done..| | |done|done|].
  - intros t Ht. rewrite (inv_decremented a st Hinv t), Ht.
    pose proof (inv_deps a st Hinv t (active_range a t Ht)) as Hd.
    rewrite Ht in Hd.
    assert (rd (deps st) t = 0) as H0.
    { apply (inv_ready a st Hinv t Ht). rewrite elem_of_app. left.
      by apply Hall. }
    unfold upstream. unfold fed in *. lia.
  - intros t Ht. by rewrite (inv_decremented a st Hinv t), Ht.
  - intros k st' Hr. destruct (reached_inv a k st' Hwf Hc Hr) as [Hinv' _].
    split; [apply (inv_nodup a st' Hinv')|]. intros t. split.
    + intros Ht. pose proof (inv_active a st' Hinv' t Ht) as Ha.
      split; [done|]. by apply (inv_ready a st' Hinv' t Ha).
    + intros [Ha H0]. by apply (inv_ready a st' Hinv' t Ha).
Qed.

(** C7.  The function ends on every grid.  When an interior cell carries a
    code outside the tables it stops in the build pass.  Otherwise the loop
    ends with an empty queue after no more iterations than the grid has
    cells, cycle or not; the cells of a cycle are never visited and keep a
    dependency count other than zero. *)
Theorem loop_terminates a :
  well_formed a = true ->
  (codes_ok a = false ->
   forall fuel, flow_accumulation_within fuel a = OutOfBounds) /\
  (codes_ok a = true ->
   exists st,
     (forall fuel, (enough a <= fuel)%nat ->
        propagate_within fuel a = Done st /\
        flow_accumulation_within fuel a = Done (finish a st)) /\
     q st = [] /\
     progress st = Z.of_nat (length (popped st)) /\
     0 <= progress st <= size a /\
     forall c, on_cycle a c -> (c ∉ popped st) /\ rd (deps st) c <> 0).
Proof.
  intros Hwf. split; [intros Hc fuel; by apply run_fails|]. intros Hc.
  destruct (run_spec a Hwf Hc) as (st & _ & Hinv & Hfree & Hq & Hrun).
  pose proof (visited_bound a st Hwf Hinv) as Hb.
  pose proof (length_actives a Hwf) as Hle. rewrite length_app in Hb.
  exists st. split_and!; [done|done|apply (inv_progress a st Hinv)| | |].
  - rewrite (inv_progress a st Hinv). lia.
  - rewrite (inv_progress a st Hinv). lia.
  - intros c Hcyc. pose proof (on_cycle_active a c Hcyc) as Ha.
    split; [intros Hin; by apply (Hfree c)|]. intros H0.
    apply (inv_ready a st Hinv c Ha) in H0.
    rewrite Hq, app_nil_r in H0. by apply (Hfree c).
Qed.

(** ** The border in the whole run

    What a border cell holds is read by one test only, the no-data test of
    the sweep. *)

Lemma for_each_ext {A S : Type} (f g : A -> S -> outcome S) (L : list A) :
  (forall x s, x ∈ L -> f x s = g x s) ->
  forall s, for_each f L s = for_each g L s.
Proof.
  induction L as [|x L IH]; intros Hfg s; [done|].
  cbn [for_each]. rewrite Hfg by left.
  destruct (g x s) as [s'| | |]; try done. simpl.
  apply IH. intros y s0 Hy. apply Hfg. by right.
Qed.

Lemma filter_ext_elem (P Q : Z -> Prop) `{!forall x, Decision (P x)}
    `{!forall x, Decision (Q x)} (L : list Z) :
  (forall x, x ∈ L -> P x <-> Q x) -> filter P L = filter Q L.
Proof.
  induction L as [|x L IH]; intros HPQ; [done|].
  rewrite !filter_cons. rewrite IH by (intros y Hy; apply HPQ; by right).
  assert (P x <-> Q x) as Hx by (apply HPQ; left).
  destruct (decide (P x)), (decide (Q x)); tauto.
Qed.

Lemma foldl_ext_elem {A B : Type} (f g : A -> B -> A) (L : list B) :
  (forall acc x, x ∈ L -> f acc x = g acc x) ->
  forall acc, foldl f acc L = foldl g acc L.
Proof.
  induction L as [|x L IH]; intros H acc; [done|].
  cbn [foldl]. rewrite H by left. apply IH. intros acc' y Hy. apply H. by right.
Qed.

Lemma same_interior_data a a' i :
  same_interior a a' -> interior a i = true ->
  at_i a' i = at_i a i /\ isNoData a' i = isNoData a i.
Proof.
  intros (_ & _ & Hnd & Hat) Hi. unfold isNoData. by rewrite (Hat i Hi), Hnd.
Qed.

Lemma same_interior_build a a' :
  same_interior a a' -> build_deps a' = build_deps a.
Proof.
  intros Hs. pose proof Hs as (Hw & Hh & Hnd & Hat).
  unfold build_deps, build_deps_over, zeros, size, interior_xy.
  rewrite Hw, Hh. apply for_each_ext. intros [x y] d Hxy.
  fold (interior_xy a) in Hxy. apply elem_of_interior_xy in Hxy as [Hx Hy].
  pose proof (interior_intro a x y Hx Hy) as Hi.
  destruct (same_interior_data a a' _ Hs Hi) as [Hv Hn].
  unfold count_dependency, isNoData_xy, at_xy, inGrid, nshift, xyToI in *.
  by rewrite Hw, Hh, Hv, Hn.
Qed.

Lemma same_interior_sources a a' d :
  same_interior a a' -> find_sources a' d = find_sources a d.
Proof.
  intros Hs. rewrite !find_sources_spec.
  destruct (same_interior_cells a a' Hs) as [-> _].
  apply filter_ext_elem. intros c Hc%elem_of_interior_cells.
  destruct (same_interior_data a a' c Hs Hc) as [_ ->]. done.
Qed.

Lemma same_interior_visit a a' c st :
  same_interior a a' -> interior a c = true -> visit a' c st = visit a c st.
Proof.
  intros Hs Hc. destruct (same_interior_data a a' c Hs Hc) as [Hv Hn].
  pose proof Hs as (Hw & Hh & _).
  unfold visit, iToxy, nshift, inGrid, isEdgeCell. rewrite Hw, Hh, Hv, Hn.
  destruct (isNoData a c); [done|].
  destruct (at_i a c =? NO_FLOW); [done|].
  destruct (negb (is_direction (at_i a c))); [done|].
  set (ni := c + (d8y (at_i a c) * width a + d8x (at_i a c))).
  destruct (interior a ni) eqn:Hni.
  - by destruct (same_interior_data a a' ni Hs Hni) as [_ ->].
  - unfold interior, iToxy, inGrid, isEdgeCell in Hni.
    set (b1 := (0 <=? Z.rem ni (width a)) && (Z.rem ni (width a) <? width a)
               && (0 <=? Z.quot ni (width a))
               && (Z.quot ni (width a) <? height a)) in *.
    set (b2 := (Z.rem ni (width a) =? 0) || (Z.quot ni (width a) =? 0)
               || (Z.rem ni (width a) =? width a - 1)
               || (Z.quot ni (width a) =? height a - 1)) in *.
    destruct b1, b2; simpl in *; try done.
Qed.

Lemma visit_queue_interior a c st st' :
  visit a c st = Done st' ->
  (forall x, x ∈ q st -> interior a x = true) ->
  forall x, x ∈ q st' -> interior a x = true.
Proof.
  unfold visit. destruct (iToxy a c) as [cx cy].
  destruct (isNoData a c); [done|].
  destruct (at_i a c =? NO_FLOW); [by intros [= <-]|].
  destruct (negb (is_direction (at_i a c))); [done|].
  set (ni := c + nshift a (at_i a c)).
  destruct (iToxy a ni) as [nx ny] eqn:Hxy.
  destruct (negb (inGrid a nx ny) || isEdgeCell a nx ny || isNoData a ni)
    eqn:Hchk; [by intros [= <-]|].
  destruct (to_int8 (rd (deps st) ni - 1) <? 0); [done|].
  intros [= <-] Hq x. cbn [q].
  assert (interior a ni = true) as Hni.
  { unfold interior. rewrite Hxy.
    destruct (inGrid a nx ny), (isEdgeCell a nx ny); simpl in *; done. }
  destruct (to_int8 (rd (deps st) ni - 1) =? 0); [|apply Hq].
  intros [Hx| ->]%elem_of_snoc; [by apply Hq|done].
Qed.

Lemma same_interior_iterations a a' k :
  same_interior a a' ->
  forall st, (forall x, x ∈ q st -> interior a x = true) ->
             iterations k a' st = iterations k a st.
Proof.
  intros Hs. induction k as [|k IH]; intros st Hq; [done|].
  cbn [iterations]. destruct (q st) as [|c rest] eqn:E; [done|].
  rewrite (same_interior_visit a a' c _ Hs) by (apply Hq; left).
  destruct (visit a c (pop c rest st)) as [st1| | |] eqn:Hv; try done.
  simpl. apply IH. apply (visit_queue_interior a c _ st1 Hv).
  intros x Hx. apply Hq. by right.
Qed.

(** Two grids that differ on the border only, and not in which border
    cells are no-data, give the same result. *)
Lemma border_values_are_not_read a a' :
  same_interior a a' ->
  (forall i, 0 <= i < size a -> isNoData a' i = isNoData a i) ->
  flow_accumulation_from_d8 a' = flow_accumulation_from_d8 a.
Proof.
  intros Hs Hnd. pose proof Hs as (Hw & Hh & Hno & _).
  assert (size a' = size a) as Hsz by (unfold size; by rewrite Hw, Hh).
  unfold flow_accumulation_from_d8, flow_accumulation_within,
    propagate_within, drain, enough.
  rewrite Hsz, (same_interior_build a a' Hs).
  destruct (build_deps a) as [d| | |]; try done. simpl.
  assert (initial a' d = initial a d) as ->.
  { unfold initial, zeros. by rewrite Hsz, (same_interior_sources a a' d Hs). }
  rewrite (same_interior_iterations a a' _ Hs).
  - destruct (iterations _ a (initial a d)) as [st| | |]; try done. simpl.
    destruct (q st); [|done]. simpl. f_equal.
    unfold finish, sweep, i0. rewrite Hw, Hh, Hsz. f_equal.
    apply foldl_ext_elem. intros acc i Hi%elem_of_seqZ.
    rewrite Hnd, Hno by lia. done.
  - intros x Hx. cbn [initial q] in Hx.
    by apply elem_of_find_sources in Hx as [Hx%active_interior _].
Qed.

(** C8, as amended.  The codes are not validated before the passes start.
    A code outside the domain at a border cell that is not no-data is
    never read: the function returns its grid, with 0 at that cell, the
    same grid as for any other codes on the border. *)
Theorem border_codes_are_not_validated a i :
  well_formed a = true -> codes_ok a = true ->
  border a i = true -> isNoData a i = false ->
  flows a i = true -> is_direction (at_i a i) = false ->
  exists r,
    flow_accumulation_from_d8 a = Done r /\ at_i r i = 0 /\
    forall a', same_interior a a' ->
               (forall j, 0 <= j < size a -> isNoData a' j = isNoData a j) ->
               flow_accumulation_from_d8 a' = Done r.
Proof.
  intros Hwf Hc Hb Hnd _ _.
  destruct (run_spec a Hwf Hc) as (st & _ & Hinv & _ & _ & Hrun).
  destruct (Hrun (enough a)) as [_ Hf]; [done|].
  exists (finish a st). split_and!; [done| |].
  - pose proof (border_range a i Hb) as Hi.
    rewrite finish_spec, Hnd by done.
    apply (inv_idle a st Hinv); [done|]. by apply border_not_active.
  - intros a' Hs Hmask. by rewrite (border_values_are_not_read a a' Hs Hmask).
Qed.

(** C9.  A border cell that is not no-data ends with accumulation 0: at
    no point of the run is it on the queue or taken from it, its register
    stays 0 throughout, and the visit of a cell whose code points at it
    delivers nothing. *)
Theorem border_cells_hold_zero a :
  well_formed a = true -> codes_ok a = true ->
  exists r,
    flow_accumulation_from_d8 a = Done r /\
    forall i, border a i = true -> isNoData a i = false ->
      at_i r i = 0 /\
      (forall k st, reached a k st ->
                    (i ∉ popped st ++ q st) /\ rd (accum st) i = 0) /\
      (forall c, target a c = i -> next a c = None).
Proof.
  intros Hwf Hc.
  destruct (run_spec a Hwf Hc) as (st & _ & Hinv & _ & _ & Hrun).
  destruct (Hrun (enough a)) as [_ Hf]; [done|].
  exists (finish a st). split; [done|]. intros i Hb Hnd.
  pose proof (border_range a i Hb) as Hi.
  pose proof (border_not_active a i Hb) as Hna.
  split_and!.
  - rewrite finish_spec, Hnd by done. by apply (inv_idle a st Hinv).
  - intros k st' Hr. destruct (reached_inv a k st' Hwf Hc Hr) as [Hinv' _].
    split; [|by apply (inv_idle a st' Hinv')].
    intros Hin. apply (inv_active a st' Hinv') in Hin. congruence.
  - intros c <-. unfold next. rewrite Hna. by rewrite andb_false_r.
Qed.

(** C10.  Every dependency count stays within [0, 8], after any number of
    steps of the build loop and after any number of iterations of the
    propagation loop: the 8-bit register never wraps. *)
Theorem dependency_counts_bounded a :
  well_formed a = true -> codes_ok a = true ->
  (forall n, exists d,
     build_deps_over a (take n (interior_xy a)) = Done d /\
     forall t, 0 <= t < size a -> 0 <= rd d t <= 8) /\
  (forall k, exists st,
     reached a k st /\
     forall t, 0 <= t < size a -> 0 <= rd (deps st) t <= 8).
Proof.
  intros Hwf Hc. split.
  - intros n.
    assert (NoDup (take n (interior_xy a))) as Hnd.
    { apply (sublist_NoDup _ (interior_xy a));
        [apply NoDup_interior_xy|apply sublist_take]. }
    assert (forall xy, xy ∈ take n (interior_xy a) -> xy ∈ interior_xy a)
      as Hsub by (intros xy; apply subseteq_take).
    destruct (build_deps_over_spec a _ Hwf Hc Hnd Hsub) as (d & Hb & _ & Hd).
    exists d. split; [done|]. intros t Ht. rewrite (Hd t Ht).
    apply fed_bounds; [done|]. by apply (NoDup_cells_of a).
  - intros k. destruct (reached_exists a k Hwf Hc) as (st & Hr & Hinv & _).
    exists st. split; [done|]. intros t Ht. by apply (deps_bounds a).
Qed.

(** The sweep writes the sentinel of the input grid, whatever sentinel the
    returned grid declares. *)
Lemma sweep_writes_input_sentinel a :
  well_formed a = true -> codes_ok a = true ->
  exists r, flow_accumulation_from_d8 a = Done r /\
            noData r = to_uint32 ACCUM_NO_DATA /\
            forall i, 0 <= i < size a -> isNoData a i = true ->
                      at_i r i = to_uint32 (noData a).
Proof.
  intros Hwf Hc.
  destruct (run_spec a Hwf Hc) as (st & _ & Hinv & _ & _ & Hrun).
  destruct (Hrun (enough a)) as [_ Hf]; [done|].
  exists (finish a st). split_and!; [done..|]. intros i Hi Hnd.
  by rewrite finish_spec, Hnd.
Qed.

(** ** The values of the registers *)

(** One iteration, with the arithmetic of the registers resolved: nothing
    wraps. *)
Lemma visit_exact a st c rest :
  well_formed a = true -> codes_ok a = true ->
  inv a st -> q st = c :: rest ->
  let v := rd (accum st) c + 1 in
  visit a c (pop c rest st)
  = Done match next a c with
         | None =>
             mkState (wr (accum st) c v) (deps st) rest (progress st + 1)
                     (popped st ++ [c]) (decremented st)
         | Some t =>
             mkState (wr (wr (accum st) c v) t (rd (accum st) t + v))
                     (wr (deps st) t (rd (deps st) t - 1))
                     (if rd (deps st) t - 1 =? 0 then rest ++ [t] else rest)
                     (progress st + 1) (popped st ++ [c])
                     (decremented st ++ [t])
         end /\
  0 <= rd (accum st) c /\ v <= population a /\
  forall t, next a c = Some t ->
            t <> c /\ (t ∉ popped st) /\ active a t = true /\
            0 <= rd (accum st) t /\ rd (accum st) t + 1 + v <= population a.
Proof.
  intros Hwf Hc Hinv Hq v.
  destruct (front_facts a st c rest Hinv Hq)
    as (Ha & Hcp & Hcrest & Hndp & Hndrest & Hsub).
  pose proof (wf_facts a Hwf) as (_ & _ & Hsz & _).
  pose proof (length_actives a Hwf) as Hle.
  pose proof (active_range a c Ha) as Hcr.
  pose proof (inv_nonneg a st Hinv c Hcr) as Hv0.
  pose proof (inv_accum_len a st Hinv) as Hal.
  assert (forall x, x ∈ actives a -> 0 <= weight a st x) as Hnn
    by (intros x Hx; by apply weight_nonneg).
  assert (v <= population a) as Hv1.
  { pose proof (sumZ_one (weight a st) c (actives a)) as H1.
    rewrite (inv_flow a st Hinv), weight_pending in H1 by done.
    apply H1; [by apply elem_of_actives|done]. }
  unfold population in *.
  assert (forall t, next a c = Some t ->
            t <> c /\ (t ∉ popped st) /\ active a t = true /\
            0 <= rd (accum st) t /\
            rd (accum st) t + 1 + v <= Z.of_nat (length (actives a)) /\
            1 <= rd (deps st) t <= 8) as Ht.
  { intros t Hn.
    destruct (pending_deps a st c rest t Hc Hinv Hq Hn) as [Hd Hfresh].
    pose proof (next_active a c t Hn) as Hta.
    assert (t <> c) as Htc.
    { intros ->. apply Hfresh. rewrite Hq, elem_of_app. right. left. }
    assert (t ∉ popped st) as Htp.
    { intros H. apply Hfresh. rewrite elem_of_app. by left. }
    split_and!; try done.
    - by apply (inv_nonneg a st Hinv), active_range.
    - pose proof (sumZ_two (weight a st) c t (actives a) (NoDup_actives a))
        as H2.
      rewrite (inv_flow a st Hinv), !weight_pending in H2 by done.
      assert (v + (rd (accum st) t + 1) <= Z.of_nat (length (actives a)));
        [|lia].
      apply H2; [by apply elem_of_actives..|done|done].
    - lia.
    - lia. }
  split_and!; [|done|done|intros t Hn; destruct (Ht t Hn); tauto].
  rewrite visit_spec by done. unfold pop.
  cbn [accum deps q progress popped decremented].
  fold v. rewrite (to_uint32_small v) by lia.
  destruct (next a c) as [t|] eqn:Hn; [|done].
  destruct (Ht t eq_refl) as (Htc & Htp & Hta & Hu0 & Hu1 & Hd).
  pose proof (active_range a t Hta) as Htr.
  rewrite (rd_wr_ne _ c t) by lia.
  rewrite to_uint32_small by lia. rewrite to_int8_small by lia.
  destruct (rd (deps st) t - 1 <? 0) eqn:Hneg; [lia|]. done.
Qed.

(** Induction over the states of the run. *)
Lemma reached_induction a (P : state -> Prop) :
  well_formed a = true -> codes_ok a = true ->
  (forall d, build_deps a = Done d -> P (initial a d)) ->
  (forall st c rest st',
     inv a st -> P st -> q st = c :: rest ->
     visit a c (pop c rest st) = Done st' -> inv a st' -> P st') ->
  forall k st, reached a k st -> P st.
Proof.
  intros Hwf Hc H0 Hstep k st (d & Hb & Hit).
  destruct (build_deps_spec a Hwf Hc) as (d' & Hb' & Hlen & Hd).
  rewrite Hb in Hb'. injection Hb' as <-.
  pose proof (inv_initial a d Hlen Hd) as Hinv0.
  specialize (H0 d Hb). revert Hit Hinv0 H0.
  generalize (initial a d). clear Hb Hlen Hd.
  induction k as [|k IH]; intros st0 Hit Hinv0 HP0.
  - by injection Hit as <-.
  - cbn [iterations] in Hit. destruct (q st0) as [|c rest] eqn:Hq.
    + by injection Hit as <-.
    + destruct (inv_step a st0 c rest Hwf Hc Hinv0 Hq)
        as (st1 & Hv & Hinv1 & _).
      rewrite Hv in Hit. apply (IH st1); [done..|].
      by apply (Hstep st0 c rest st1).
Qed.

Lemma elem_of_upstream a t s : s ∈ upstream a t <-> feeds a t s = true.
Proof.
  unfold upstream. rewrite list_elem_of_filter, elem_of_interior_cells.
  rewrite Is_true_true. split; [tauto|]. intros Hf. split; [done|].
  apply feeds_inv in Hf as (Ha & _). by apply active_interior.
Qed.

Lemma NoDup_upstream a t : NoDup (upstream a t).
Proof. apply NoDup_filter, NoDup_interior_cells. Qed.

Lemma upstream_active a t s : s ∈ upstream a t -> active a s = true.
Proof. intros Hs%elem_of_upstream. by apply feeds_inv in Hs as (? & _). Qed.

(** The state after one iteration, read off [visit_exact]. *)
Lemma step_registers a st c rest st' :
  well_formed a = true -> codes_ok a = true ->
  inv a st -> q st = c :: rest -> visit a c (pop c rest st) = Done st' ->
  let v := rd (accum st) c + 1 in
  popped st' = popped st ++ [c] /\
  active a c = true /\ (c ∉ popped st) /\ 0 < v <= population a /\
  (forall t, next a c = Some t ->
             t <> c /\ (t ∉ popped st) /\ active a t = true /\
             0 <= rd (accum st) t /\ rd (accum st) t + 1 + v <= population a) /\
  (forall x, 0 <= x < size a ->
     rd (accum st') x
     = if decide (x = c) then v
       else if decide (next a c = Some x) then rd (accum st) x + v
       else rd (accum st) x).
Proof.
  intros Hwf Hc Hinv Hq Hv v.
  destruct (visit_exact a st c rest Hwf Hc Hinv Hq) as (Heq & Hv0 & Hv1 & Ht).
  destruct (front_facts a st c rest Hinv Hq) as (Ha & Hcp & _).
  pose proof (active_range a c Ha) as Hcr.
  pose proof (inv_accum_len a st Hinv) as Hal.
  rewrite Heq in Hv. injection Hv as <-. fold v in Hv1, Ht.
  split_and!; try done.
  - by destruct (next a c).
  - fold v. lia.
  - intros x Hx. destruct (next a c) as [t|] eqn:Hn; cbn [accum].
    + destruct (Ht t eq_refl) as (Htc & _ & Hta & _).
      pose proof (active_range a t Hta) as Htr. fold v.
      rewrite rd_wr by (rewrite ?length_wr; lia).
      destruct (decide (x = c)) as [->|Hxc].
      * rewrite decide_False by done. apply rd_wr_eq. lia.
      * destruct (decide (x = t)) as [->|Hxt].
        -- by rewrite decide_True.
        -- rewrite decide_False by congruence. apply rd_wr_ne; lia.
    + fold v. rewrite rd_wr by lia.
      destruct (decide (x = c)); [done|]. by rewrite decide_False.
Qed.

(** No register ever exceeds the number of interior cells that are not
    no-data. *)
Lemma registers_bounded a k st :
  well_formed a = true -> codes_ok a = true -> reached a k st ->
  forall x, 0 <= x < size a -> 0 <= rd (accum st) x <= population a.
Proof.
  intros Hwf Hc Hr.
  destruct (reached_inv a k st Hwf Hc Hr) as [Hinv _].
  assert (forall x, 0 <= x < size a -> rd (accum st) x <= population a) as Hub.
  { revert k st Hr Hinv. apply (reached_induction a
      (fun st => inv a st ->
                 forall x, 0 <= x < size a -> rd (accum st) x <= population a));
      [done..| |].
    - intros d _ _ x Hx. cbn [initial accum]. rewrite rd_zeros by done.
      unfold population. lia.
    - intros st c rest st' Hinv HP Hq Hv _ _ x Hx.
      destruct (step_registers a st c rest st' Hwf Hc Hinv Hq Hv)
        as (_ & _ & _ & Hvb & Ht & Hrd).
      rewrite (Hrd x Hx). destruct (decide (x = c)); [lia|].
      destruct (decide (next a c = Some x)) as [Hn|]; [|by apply HP].
      destruct (Ht x Hn) as (_ & _ & _ & _ & ?). lia. }
  intros x Hx. split; [by apply (inv_nonneg a st Hinv)|by apply Hub].
Qed.

(** One iteration keeps the registers [settled]. *)
Lemma settled_step a st c rest st' :
  well_formed a = true -> codes_ok a = true ->
  inv a st -> settled a st -> q st = c :: rest ->
  visit a c (pop c rest st) = Done st' -> settled a st'.
Proof.
  intros Hwf Hc Hinv HK Hq Hv t Hta.
  destruct (step_registers a st c rest st' Hwf Hc Hinv Hq Hv)
    as (Hp & Hca & Hcp & Hvb & Ht & Hrd).
  set (v := rd (accum st) c + 1) in *.
  rewrite Hp.
  rewrite (sumZ_ext _ (fun s => (if decide (s ∈ popped st)
                                 then rd (accum st) s else 0)
                                + (if decide (s = c) then v else 0))).
  + rewrite sumZ_add, sumZ_delta by apply NoDup_upstream.
    rewrite (Hrd t) by (by apply active_range).
    specialize (HK t Hta).
    assert (c ∈ upstream a t <-> next a c = Some t) as Hup.
    { rewrite elem_of_upstream, feeds_next by done. tauto. }
    destruct (decide (t = c)) as [->|Htc].
    * rewrite decide_True by (apply elem_of_snoc; by right).
      rewrite decide_False in HK by done.
      rewrite decide_False; [unfold v; lia|].
      intros Hin%Hup. destruct (Ht c Hin) as [? _]. done.
    * destruct (decide (next a c = Some t)) as [Hn|Hn].
      -- destruct (Ht t Hn) as (_ & Htp & _).
         rewrite decide_False in HK by done.
         rewrite decide_False by (rewrite elem_of_snoc; tauto).
         rewrite decide_True by (by apply Hup). lia.
      -- rewrite (decide_False (P := c ∈ upstream a t)) by tauto.
         destruct (decide (t ∈ popped st)) as [Hin|Hin].
         ++ rewrite decide_True by (apply elem_of_snoc; by left). lia.
         ++ rewrite decide_False by (rewrite elem_of_snoc; tauto). lia.
  + intros s Hs. pose proof (upstream_active a t s Hs) as Hsa.
    pose proof (active_range a s Hsa) as Hsr.
    rewrite (Hrd s Hsr).
    destruct (decide (s = c)) as [->|Hsc].
    * rewrite decide_True by (apply elem_of_snoc; by right).
      rewrite decide_False by done. lia.
    * destruct (decide (s ∈ popped st)) as [Hin|Hin].
      -- rewrite decide_True by (apply elem_of_snoc; by left).
         rewrite decide_False; [lia|].
         intros Hn. destruct (Ht s Hn) as (_ & ? & _). done.
      -- rewrite decide_False by (rewrite elem_of_snoc; tauto). lia.
Qed.

(** The registers are [settled] throughout the run. *)
Lemma reached_settled a k st :
  well_formed a = true -> codes_ok a = true -> reached a k st ->
  settled a st.
Proof.
  intros Hwf Hc. revert k st.
  apply (reached_induction a (settled a)); [done..| |].
  - intros d _ t Ha. cbn [initial accum popped].
    rewrite rd_zeros by (by apply active_range).
    rewrite decide_False by apply not_elem_of_nil.
    rewrite (sumZ_ext _ (fun _ => 0)).
    + induction (upstream a t) as [|x L IH]; [done|]. simpl. by rewrite <- IH.
    + intros s _. rewrite decide_False; [done|]. apply not_elem_of_nil.
  - intros st c rest st' Hinv HK Hq Hv _.
    by apply (settled_step a st c rest st').
Qed.

(** ** Basins *)

Lemma sumZ_zero (L : list Z) : sumZ (fun _ => 0) L = 0.
Proof. induction L as [|x L IH]; [done|]. simpl. by rewrite IH. Qed.

Lemma sumZ_swap (f : Z -> Z -> Z) (S P : list Z) :
  sumZ (fun s => sumZ (fun p => f s p) P) S
  = sumZ (fun p => sumZ (fun s => f s p) S) P.
Proof.
  induction S as [|s S IH].
  - simpl. by rewrite sumZ_zero.
  - change (sumZ ?g (s :: S)) with (g s + sumZ g S). cbv beta.
    rewrite IH, <- sumZ_add. done.
Qed.

Lemma length_filter_sumZ (f : Z -> bool) (L : list Z) :
  Z.of_nat (length (filter (fun x => Is_true (f x)) L))
  = sumZ (fun x => if f x then 1 else 0) L.
Proof.
  induction L as [|x L IH]; [done|]. rewrite filter_cons.
  change (sumZ ?g (x :: L)) with (g x + sumZ g L). cbv beta.
  destruct (f x); case_decide; simpl in *; try done; lia.
Qed.

Lemma walk_step a k c :
  walk a (S k) c = match next a c with Some t => walk a k t | None => None end.
Proof. done. Qed.

Lemma reaches_elim a s t :
  reaches a s t = true -> exists k, walk a k s = Some t.
Proof.
  unfold reaches. intros (k & _ & Hk)%existsb_exists. exists k.
  destruct (walk a k s) as [z|]; [|done]. apply Z.eqb_eq in Hk. by subst.
Qed.

Lemma reaches_intro a s t k :
  well_formed a = true -> (forall x, ~ on_cycle a x) -> active a s = true ->
  walk a k s = Some t -> reaches a s t = true.
Proof.
  intros Hwf Hno Ha Hw. unfold reaches. apply existsb_exists. exists k.
  split; [|by rewrite Hw, Z.eqb_refl]. apply in_seq.
  pose proof (no_cycle_walk_bound a k s t Hno Ha Hw).
  pose proof (length_actives a Hwf).
  pose proof (wf_facts a Hwf) as (? & ? & _).
  assert (0 <= size a) by (unfold size; nia). unfold enough. lia.
Qed.

(** A walk that leaves a cell fed into [t] and comes back to a cell fed
    into [t] goes round a cycle. *)
Lemma feeders_apart a t p p' m :
  next a p = Some t -> next a p' = Some t ->
  walk a (S m) p = Some p' -> on_cycle a t.
Proof.
  intros Hp Hp' Hw. exists m. rewrite walk_step, Hp in Hw.
  by rewrite walk_last, Hw.
Qed.

(** The flow of [s] passes through [t] when [s] is [t], or when it passes
    through one of the cells that feed [t]; on a field without cycles,
    through one of them only. *)
Lemma reaches_split a s t :
  well_formed a = true -> (forall x, ~ on_cycle a x) ->
  active a s = true -> active a t = true ->
  (if reaches a s t then 1 else 0)
  = (if decide (s = t) then 1 else 0)
    + sumZ (fun p => if reaches a s p then 1 else 0) (upstream a t).
Proof.
  intros Hwf Hno Hsa Hta.
  assert (forall p, p ∈ upstream a t -> next a p = Some t) as Hnext.
  { intros p Hp%elem_of_upstream. by apply feeds_next in Hp as [_ ?]. }
  destruct (decide (s = t)) as [->|Hst].
  - rewrite (reaches_intro a t t 0%nat) by done.
    rewrite (sumZ_ext _ (fun _ => 0)); [by rewrite sumZ_zero|].
    intros p Hp. destruct (reaches a t p) eqn:Hr; [exfalso|done].
    apply reaches_elim in Hr as [k Hk]. apply (Hno t). exists k.
    by rewrite walk_last, Hk, (Hnext p Hp).
  - destruct (reaches a s t) eqn:Hr.
    + apply reaches_elim in Hr as [k Hk].
      destruct k as [|k]; [simpl in Hk; congruence|].
      rewrite walk_last in Hk.
      destruct (walk a k s) as [p|] eqn:Hp; [|done].
      assert (p ∈ upstream a t) as Hpin.
      { apply elem_of_upstream, feeds_next; [done|]. split; [|done].
        by apply (walk_active a k s). }
      rewrite (sumZ_ext _ (fun p' => if decide (p' = p) then 1 else 0)).
      { rewrite sumZ_delta by apply NoDup_upstream. by rewrite decide_True. }
      intros p' Hp'. destruct (decide (p' = p)) as [->|Hne].
      { by rewrite (reaches_intro a s p k). }
      destruct (reaches a s p') eqn:Hr'; [exfalso|done].
      apply reaches_elim in Hr' as [j Hj]. apply (Hno t).
      destruct (Nat.lt_trichotomy j k) as [Hlt|[->|Hlt]].
      * apply (feeders_apart a t p' p (k - j - 1)); [by apply Hnext|done|].
        replace k with (j + S (k - j - 1))%nat in Hp by lia.
        by rewrite walk_add, Hj in Hp.
      * congruence.
      * apply (feeders_apart a t p p' (j - k - 1)); [done|by apply Hnext|].
        replace j with (k + S (j - k - 1))%nat in Hj by lia.
        by rewrite walk_add, Hp in Hj.
    + rewrite (sumZ_ext _ (fun _ => 0)); [by rewrite sumZ_zero|].
      intros p Hp. destruct (reaches a s p) eqn:Hr'; [exfalso|done].
      apply reaches_elim in Hr' as [k Hk].
      assert (reaches a s t = true); [|congruence].
      apply (reaches_intro a s t (S k)); [done..|].
      by rewrite walk_last, Hk, (Hnext p Hp).
Qed.

Lemma basin_recurrence a t :
  well_formed a = true -> (forall x, ~ on_cycle a x) -> active a t = true ->
  Z.of_nat (length (basin a t))
  = 1 + sumZ (fun p => Z.of_nat (length (basin a p))) (upstream a t).
Proof.
  intros Hwf Hno Hta. unfold basin at 1. rewrite length_filter_sumZ.
  rewrite (sumZ_ext _ (fun s => (if decide (s = t) then 1 else 0)
             + sumZ (fun p => if reaches a s p then 1 else 0) (upstream a t))).
  - rewrite sumZ_add, sumZ_delta by apply NoDup_actives.
    rewrite decide_True by (by apply elem_of_actives).
    rewrite (sumZ_swap (fun s p => if reaches a s p then 1 else 0)).
    f_equal. apply sumZ_ext. intros p _. unfold basin.
    by rewrite length_filter_sumZ.
  - intros s Hs%elem_of_actives. by apply reaches_split.
Qed.

(** On a field without cycles, a visited cell holds the size of its
    basin. *)
Lemma reached_counted a k st :
  well_formed a = true -> codes_ok a = true -> (forall x, ~ on_cycle a x) ->
  reached a k st ->
  forall x, x ∈ popped st -> rd (accum st) x = Z.of_nat (length (basin a x)).
Proof.
  intros Hwf Hc Hno Hr.
  assert (settled a st /\
          forall x, x ∈ popped st ->
                    rd (accum st) x = Z.of_nat (length (basin a x))) as [_ H];
    [|done].
  revert k st Hr. apply (reached_induction a
    (fun st => settled a st /\
               forall x, x ∈ popped st ->
                         rd (accum st) x = Z.of_nat (length (basin a x))));
    [done..| |].
  - intros d Hb. split.
    + apply (reached_settled a 0); [done..|]. by exists d.
    + intros x Hx. by apply not_elem_of_nil in Hx.
  - intros st c rest st' Hinv [HK HM] Hq Hv Hinv'.
    pose proof (settled_step a st c rest st' Hwf Hc Hinv HK Hq Hv) as HK'.
    split; [done|].
    destruct (step_registers a st c rest st' Hwf Hc Hinv Hq Hv)
      as (Hp & Hca & Hcp & Hvb & Ht & Hrd).
    assert (forall s, s ∈ popped st -> rd (accum st') s = rd (accum st) s)
      as Hkeep.
    { intros s Hs. rewrite Hrd.
      - rewrite decide_False by congruence.
        rewrite decide_False; [done|]. intros Hn.
        destruct (Ht s Hn) as (_ & ? & _). done.
      - apply active_range, (inv_active a st Hinv).
        rewrite elem_of_app. by left. }
    intros x Hx. rewrite Hp in Hx. apply elem_of_snoc in Hx as [Hx| ->].
    + rewrite Hkeep by done. by apply HM.
    + rewrite (HK' c Hca), basin_recurrence by done.
      rewrite decide_True by (rewrite Hp; apply elem_of_snoc; by right).
      f_equal. apply sumZ_ext. intros s Hs.
      assert (s ∈ popped st) as Hsp.
      { apply (ready_feeders a st c s Hinv Hca); [|by apply elem_of_upstream].
        apply (inv_ready a st Hinv c Hca). rewrite Hq, elem_of_app.
        right. left. }
      rewrite decide_True by (rewrite Hp; apply elem_of_snoc; by left).
      rewrite Hkeep by done. by apply HM.
Qed.

Lemma length_sweep a acc :
  length acc = Z.to_nat (size a) -> length (sweep a acc) = length acc.
Proof.
  intros Hlen. unfold sweep, i0.
  destruct (sweep_over a (seqZ 0 (size a - 0)) acc) as [H _]; [|done].
  intros i Hi%elem_of_seqZ. lia.
Qed.

(** X1.  On a field without cycles, every interior cell that is not
    no-data ends with the number of cells whose flow passes through it,
    itself included. *)
Theorem accumulation_is_basin_size a :
  well_formed a = true -> codes_ok a = true -> acyclic a = true ->
  exists r, flow_accumulation_from_d8 a = Done r /\
            forall t, active a t = true ->
                      at_i r t = Z.of_nat (length (basin a t)).
Proof.
  intros Hwf Hc Hac.
  destruct (run_spec a Hwf Hc) as (st & Hr & Hinv & _ & Hq & Hrun).
  destruct (Hrun (enough a)) as [_ Hf]; [done|].
  exists (finish a st). split; [done|]. intros t Ha.
  rewrite finish_spec, (active_data a t Ha) by (done || by apply active_range).
  apply (reached_counted a (enough a)); [done..| |done|].
  - by apply acyclic_iff.
  - by apply (acyclic_complete a).
Qed.

(** X2.  Cycles or not, a visited cell ends with 1 plus the values of the
    cells that feed it, all of them visited; an interior cell that was
    never visited ends with the values of its visited feeders only. *)
Theorem accumulation_recurrence a :
  well_formed a = true -> codes_ok a = true ->
  exists st r,
    propagate a = Done st /\ flow_accumulation_from_d8 a = Done r /\
    (forall t, t ∈ popped st ->
       (forall s, s ∈ upstream a t -> s ∈ popped st) /\
       at_i r t = 1 + sumZ (at_i r) (upstream a t)) /\
    (forall t, active a t = true -> t ∉ popped st ->
       at_i r t
       = sumZ (fun s => if decide (s ∈ popped st) then at_i r s else 0)
              (upstream a t)).
Proof.
  intros Hwf Hc.
  destruct (run_spec a Hwf Hc) as (st & Hr & Hinv & _ & Hq & Hrun).
  destruct (Hrun (enough a)) as [Hp Hf]; [done|].
  pose proof (reached_settled a (enough a) st Hwf Hc Hr) as HK.
  assert (forall s, active a s = true -> at_i (finish a st) s = rd (accum st) s)
    as Hval.
  { intros s Hs.
    by rewrite finish_spec, (active_data a s Hs)
      by (done || by apply active_range). }
  exists st, (finish a st). split_and!; [done..| |].
  - intros t Ht.
    assert (active a t = true) as Hta.
    { apply (inv_active a st Hinv). rewrite elem_of_app. by left. }
    assert (forall s, s ∈ upstream a t -> s ∈ popped st) as Hup.
    { intros s Hs. apply (ready_feeders a st t s Hinv Hta);
        [|by apply elem_of_upstream].
      apply (inv_ready a st Hinv t Hta). rewrite elem_of_app. by left. }
    split; [done|]. rewrite Hval, (HK t Hta) by done.
    rewrite decide_True by done. f_equal. apply sumZ_ext. intros s Hs.
    rewrite decide_True by (by apply Hup).
    symmetry. by apply Hval, (upstream_active a t).
  - intros t Hta Ht. rewrite Hval, (HK t Hta) by done.
    rewrite decide_False by done. simpl. apply sumZ_ext. intros s Hs.
    case_decide; [|done]. symmetry. by apply Hval, (upstream_active a t).
Qed.

(** X3.  The returned grid has the shape of the input, and no register
    ever holds more than the number of interior cells that are not
    no-data, which is below 2^31: the 32-bit registers never wrap. *)
Theorem accumulation_fits a :
  well_formed a = true -> codes_ok a = true ->
  exists r,
    flow_accumulation_from_d8 a = Done r /\
    width r = width a /\ height r = height a /\
    length (data r) = length (data a) /\
    population a < 2 ^ 31 /\
    (forall i, 0 <= i < size a -> isNoData a i = false ->
               0 <= at_i r i <= population a) /\
    (forall k st, reached a k st ->
       forall x, 0 <= x < size a -> 0 <= rd (accum st) x <= population a).
Proof.
  intros Hwf Hc.
  destruct (run_spec a Hwf Hc) as (st & Hr & Hinv & _ & Hq & Hrun).
  destruct (Hrun (enough a)) as [_ Hf]; [done|].
  pose proof (wf_facts a Hwf) as (Hw & Hh & Hsz & Hlen).
  pose proof (length_actives a Hwf) as Hle.
  exists (finish a st). split_and!; [done|done|done| | | |].
  - unfold finish. cbn [data].
    rewrite length_sweep by apply (inv_accum_len a st Hinv).
    rewrite (inv_accum_len a st Hinv). lia.
  - unfold population. lia.
  - intros i Hi Hnd. rewrite finish_spec, Hnd by done.
    by apply (registers_bounded a (enough a) st).
  - intros k st' Hr' x Hx. by apply (registers_bounded a k st').
Qed.

Lemma sumZ_ge_elem (f : Z -> Z) (L : list Z) c :
  (forall x, x ∈ L -> 0 <= f x) -> c ∈ L -> f c <= sumZ f L.
Proof.
  induction L as [|x L IH]; intros Hf Hc; [by apply elem_of_nil in Hc|].
  change (sumZ f (x :: L)) with (f x + sumZ f L).
  assert (0 <= sumZ f L).
  { apply sumZ_nonneg. intros y Hy. apply Hf. by right. }
  apply elem_of_cons in Hc as [->|Hc].
  - lia.
  - assert (0 <= f x) by (apply Hf; by left).
    assert (f c <= sumZ f L) by (apply IH; [|done]; intros y Hy; apply Hf; by right).
    lia.
Qed.

Lemma narrow_no_interior a :
  width a <= 2 \/ height a <= 2 -> interior_cells a = [].
Proof.
  intros Hsmall. unfold interior_cells.
  assert (interior_xy a = []) as ->; [|done].
  apply elem_of_nil_inv.
  intros [x y] Hin. apply elem_of_interior_xy in Hin. lia.
Qed.

(** X22.  A raster with fewer than three columns or fewer than three rows
    has no interior cell: whatever its codes, the run returns, with 0 at
    every cell that is not no-data and the input's sentinel at the
    others. *)
Theorem narrow_rasters_accumulate_nothing a :
  well_formed a = true -> width a <= 2 \/ height a <= 2 ->
  exists r,
    flow_accumulation_from_d8 a = Done r /\
    forall i, 0 <= i < size a ->
      at_i r i = if isNoData a i then to_uint32 (noData a) else 0.
Proof.
  intros Hwf Hsmall.
  pose proof (narrow_no_interior a Hsmall) as Hnil.
  assert (codes_ok a = true) as Hc by (unfold codes_ok; by rewrite Hnil).
  destruct (run_spec a Hwf Hc) as (st & _ & Hinv & _ & _ & Hrun).
  destruct (Hrun (enough a)) as [_ Hf]; [done|].
  exists (finish a st). split; [done|]. intros i Hi.
  rewrite finish_spec by done. destruct (isNoData a i); [done|].
  apply (inv_idle a st Hinv); [done|].
  destruct (active a i) eqn:Ha; [|done].
  apply active_interior, elem_of_interior_cells in Ha.
  rewrite Hnil in Ha. by apply elem_of_nil in Ha.
Qed.

(** X23.  On a field without cycles the accumulation grows along every
    delivery: a cell that delivers to another ends with at least 1 and with
    strictly less than the cell it delivers to. *)
Theorem accumulation_grows_downstream a :
  well_formed a = true -> codes_ok a = true -> acyclic a = true ->
  exists r,
    flow_accumulation_from_d8 a = Done r /\
    forall c t, active a c = true -> next a c = Some t ->
                1 <= at_i r c < at_i r t.
Proof.
  intros Hwf Hc Hac.
  destruct (run_spec a Hwf Hc) as (st & Hr & Hinv & _ & Hq & Hrun).
  destruct (Hrun (enough a)) as [_ Hf]; [done|].
  pose proof (reached_settled a (enough a) st Hwf Hc Hr) as HK.
  assert (forall s, active a s = true ->
            s ∈ popped st /\ at_i (finish a st) s = rd (accum st) s /\
            rd (accum st) s
            = 1 + sumZ (fun u => if decide (u ∈ popped st)
                                 then rd (accum st) u else 0) (upstream a s))
    as Hval.
  { intros s Hs.
    assert (s ∈ popped st) as Hp by (by apply (acyclic_complete a)).
    split_and!; [done| |].
    - by rewrite finish_spec, (active_data a s Hs)
        by (done || by apply active_range).
    - rewrite (HK s Hs). by rewrite decide_True. }
  assert (forall s u, u ∈ upstream a s ->
            0 <= (if decide (u ∈ popped st) then rd (accum st) u else 0))
    as Hnn.
  { intros s u Hu. case_decide; [|done].
    apply (inv_nonneg a st Hinv), active_range. by apply (upstream_active a s). }
  exists (finish a st). split; [done|]. intros c t Hca Hn.
  pose proof (next_active a c t Hn) as Hta.
  destruct (Hval c Hca) as (Hcp & -> & Ec).
  destruct (Hval t Hta) as (_ & -> & Et).
  assert (c ∈ upstream a t) as Hup.
  { apply elem_of_upstream, feeds_next; [done|]. by split. }
  pose proof (sumZ_ge_elem _ (upstream a t) c (Hnn t) Hup) as Hge.
  cbv beta in Hge. rewrite decide_True in Hge by done.
  assert (0 <= sumZ (fun u => if decide (u ∈ popped st)
                              then rd (accum st) u else 0) (upstream a c)).
  { apply sumZ_nonneg. apply Hnn. }
  lia.
Qed.

End Properties.

(** * The library's constants: instances and counterexamples *)

Lemma richdem_tables : table_ok = true.
Proof. reflexivity. Qed.

(** Three interior cells in a row, each routing to the next: 1, 2, 3. *)
Example chain_accumulates :
  flow_accumulation_from_d8 chain
  = Done (mkArray2D 5 3 [0; 0; 0; 0; 0;
                         0; 1; 2; 3; 0;
                         0; 0; 0; 0; 0] 4294967295).
Proof. reflexivity. Qed.

(** ** C1 *)

(** The two interior cells of [two_cycle] route into each other.  The queue
    starts empty, both cells keep a count of 1, and the function returns a
    grid of zeros. *)
Lemma two_cycle_returns_a_grid :
  next two_cycle 5 = Some 6 /\ next two_cycle 6 = Some 5 /\
  isNoData two_cycle 5 = false /\ isNoData two_cycle 6 = false /\
  exists st r,
    propagate two_cycle = Done st /\ q st = [] /\
    rd (deps st) 5 = 1 /\ rd (deps st) 6 = 1 /\
    flow_accumulation_from_d8 two_cycle = Done r /\
    data r = [0; 0; 0; 0; 0; 0; 0; 0; 0; 0; 0; 0].
Proof.
  split_and!; [reflexivity..|].
  exists (mkState [0; 0; 0; 0; 0; 0; 0; 0; 0; 0; 0; 0]
                  [0; 0; 0; 0; 0; 1; 1; 0; 0; 0; 0; 0] [] 0 [] []).
  eexists. split_and!; reflexivity.
Qed.

Lemma residual_counts_are_not_reported_witness :
  table_ok = true /\ well_formed two_cycle = true /\
  codes_ok two_cycle = true /\
  exists st,
    propagate two_cycle = Done st /\ q st = [] /\
    forall i, 0 <= i < size two_cycle -> isNoData two_cycle i = false ->
              rd (deps st) i <> 0 ->
      flow_accumulation_from_d8 two_cycle = Done (finish two_cycle st) /\
      at_i (finish two_cycle st) i = rd (accum st) i.
Proof.
  split_and!; [reflexivity..|].
  apply residual_counts_are_not_reported; reflexivity.
Defined.

(** ** C2 *)

(** C2.  The cell 0 of [hole] is no-data.  The returned grid declares the
    sentinel 4294967295 ([ACCUM_NO_DATA] as a [uint32_t]) and holds 255,
    the sentinel of the input grid, at that cell. *)
Theorem no_data_cell_gets_the_input_sentinel :
  isNoData hole 0 = true /\
  exists r, flow_accumulation_from_d8 hole = Done r /\
            noData r = 4294967295 /\ at_i r 0 = 255.
Proof.
  split; [reflexivity|]. eexists. split_and!; reflexivity.
Qed.

(** ** C3 *)

(** [star] is the grid of the claim; the centre comes out with 1, not 9,
    and the border cells with 0, not 1. *)
Lemma star_centre_is_one :
  forallb (fun i => negb (isNoData star i)) (seqZ 0 9) = true /\
  at_i star 4 = NO_FLOW /\
  forallb (fun i => (i =? 4) || routes_to_centre star i) (seqZ 0 9) = true /\
  ~ (exists r, flow_accumulation_from_d8 star = Done r /\
               at_i r 4 = 9 /\
               forall i, 0 <= i < 9 -> i <> 4 -> at_i r i = 1).
Proof.
  split_and!; [reflexivity..|]. intros (r & Hr & H4 & _).
  vm_compute in Hr. injection Hr as <-. vm_compute in H4. discriminate.
Qed.

Lemma star_accumulation_witness :
  table_ok = true /\
  width star = 3 /\ height star = 3 /\ length (data star) = 9%nat /\
  forallb (fun i => negb (isNoData star i)) (seqZ 0 9) = true /\
  at_i star 4 = NO_FLOW /\
  forallb (fun i => (i =? 4) || routes_to_centre star i) (seqZ 0 9) = true /\
  exists r, flow_accumulation_from_d8 star = Done r /\
            at_i r 4 = 1 /\
            forall i, 0 <= i < 9 -> i <> 4 -> at_i r i = 0.
Proof.
  split_and!; [reflexivity..|].
  apply star_accumulation; reflexivity.
Defined.

(** ** C4 *)

(** [west] has no cycle: every cell reaches a terminal cell.  The terminal
    cells of the claim are the eight border cells; their values add up to
    0, and 9 cells reach them. *)
Lemma west_loses_its_flow :
  acyclic west = true /\
  data_cells west (spec_reaches_terminal west (enough west)) = cells west /\
  exists r, flow_accumulation_from_d8 west = Done r /\
            sumZ (at_i r) (data_cells west (spec_terminal west)) = 0 /\
            ~ spec_conservation west r.
Proof.
  split_and!; [reflexivity..|]. eexists. split_and!; [reflexivity..|].
  unfold spec_conservation. vm_compute. discriminate.
Qed.

Lemma interior_conservation_witness :
  table_ok = true /\ well_formed chain = true /\ codes_ok chain = true /\
  acyclic chain = true /\
  exists r, flow_accumulation_from_d8 chain = Done r /\
            sumZ (at_i r) (filter (fun c => terminal chain c) (actives chain))
            = Z.of_nat (length (actives chain)).
Proof.
  split_and!; [reflexivity..|].
  apply interior_conservation; reflexivity.
Defined.

(** ** C5 *)

Lemma border_cells_are_targets_only_witness :
  table_ok = true /\ well_formed west = true /\ codes_ok west = true /\
  exists d,
    build_deps west = Done d /\
    (forall t, 0 <= t < size west ->
               rd d t = Z.of_nat (length (upstream west t))) /\
    (forall s t, border west s = true -> s ∉ upstream west t) /\
    (forall s t, border west t = true -> s ∈ upstream west t ->
                 0 <= t < size west /\ 1 <= rd d t) /\
    (forall a', well_formed a' = true -> same_interior west a' ->
                build_deps a' = Done d).
Proof.
  split_and!; [reflexivity..|].
  apply border_cells_are_targets_only; reflexivity.
Defined.

(** In [west] the border cell 3 is counted once, for the centre. *)
Example west_border_count :
  border west 3 = true /\ upstream west 3 = [4] /\
  build_deps west = Done [0; 0; 0; 1; 0; 0; 0; 0; 0].
Proof. split_and!; reflexivity. Qed.

(** ** C6 *)

(** In [west], which has no cycle, one upstream edge targets the border
    cell 3; its count is never decremented and ends at 1. *)
Lemma west_border_count_is_kept :
  acyclic west = true /\
  Z.of_nat (length (upstream west 3)) = 1 /\
  exists st, propagate west = Done st /\
             count (decremented st) 3 = 0 /\ rd (deps st) 3 = 1.
Proof.
  split_and!; [reflexivity..|]. eexists. split_and!; reflexivity.
Qed.

Lemma each_cell_once_witness :
  table_ok = true /\ well_formed chain = true /\ codes_ok chain = true /\
  acyclic chain = true /\
  exists st,
    propagate chain = Done st /\ q st = [] /\
    (forall t, active chain t = true ->
               count (decremented st) t
               = Z.of_nat (length (upstream chain t))) /\
    (forall t, active chain t = false -> count (decremented st) t = 0) /\
    NoDup (popped st) /\
    (forall t, t ∈ popped st <-> active chain t = true) /\
    (forall k st', reached chain k st' ->
       NoDup (popped st' ++ q st') /\
       forall t, t ∈ popped st' ++ q st'
                 <-> active chain t = true /\ rd (deps st') t = 0).
Proof.
  split_and!; [reflexivity..|].
  apply each_cell_once; reflexivity.
Defined.

(** ** C7 *)

Lemma loop_terminates_witness :
  table_ok = true /\ well_formed two_cycle = true /\
  (codes_ok two_cycle = false ->
   forall fuel, flow_accumulation_within fuel two_cycle = OutOfBounds) /\
  (codes_ok two_cycle = true ->
   exists st,
     (forall fuel, (enough two_cycle <= fuel)%nat ->
        propagate_within fuel two_cycle = Done st /\
        flow_accumulation_within fuel two_cycle
        = Done (finish two_cycle st)) /\
     q st = [] /\
     progress st = Z.of_nat (length (popped st)) /\
     0 <= progress st <= size two_cycle /\
     forall c, on_cycle two_cycle c ->
               (c ∉ popped st) /\ rd (deps st) c <> 0).
Proof.
  split; [reflexivity|]. split; [reflexivity|].
  apply loop_terminates; reflexivity.
Defined.

(** The cell 5 of [two_cycle] lies on a cycle. *)
Example two_cycle_has_a_cycle : on_cycle two_cycle 5.
Proof. exists 1%nat. reflexivity. Qed.

(** ** C8 *)

(** The border cell 0 of [bad_border] is not no-data and carries the code
    9; the function returns a grid. *)
Lemma bad_border_is_accepted :
  isNoData bad_border 0 = false /\ at_i bad_border 0 = 9 /\
  is_direction 9 = false /\ 9 <> NO_FLOW /\
  exists r, flow_accumulation_from_d8 bad_border = Done r.
Proof.
  split_and!; [reflexivity| reflexivity| reflexivity| discriminate|].
  eexists. reflexivity.
Qed.

Lemma border_codes_are_not_validated_witness :
  table_ok = true /\ well_formed bad_border = true /\
  codes_ok bad_border = true /\
  border bad_border 0 = true /\ isNoData bad_border 0 = false /\
  flows bad_border 0 = true /\ is_direction (at_i bad_border 0) = false /\
  exists r,
    flow_accumulation_from_d8 bad_border = Done r /\ at_i r 0 = 0 /\
    forall a', same_interior bad_border a' ->
               (forall j, 0 <= j < size bad_border ->
                          isNoData a' j = isNoData bad_border j) ->
               flow_accumulation_from_d8 a' = Done r.
Proof.
  split_and!; [reflexivity..|].
  apply border_codes_are_not_validated; reflexivity.
Defined.

(** ** C9 *)

Lemma border_cells_hold_zero_witness :
  table_ok = true /\ well_formed west = true /\ codes_ok west = true /\
  exists r,
    flow_accumulation_from_d8 west = Done r /\
    forall i, border west i = true -> isNoData west i = false ->
      at_i r i = 0 /\
      (forall k st, reached west k st ->
                    (i ∉ popped st ++ q st) /\ rd (accum st) i = 0) /\
      (forall c, target west c = i -> next west c = None).
Proof.
  split_and!; [reflexivity..|].
  apply border_cells_hold_zero; reflexivity.
Defined.

(** ** C10 *)

Lemma dependency_counts_bounded_witness :
  table_ok = true /\ well_formed chain = true /\ codes_ok chain = true /\
  (forall n, exists d,
     build_deps_over chain (take n (interior_xy chain)) = Done d /\
     forall t, 0 <= t < size chain -> 0 <= rd d t <= 8) /\
  (forall k, exists st,
     reached chain k st /\
     forall t, 0 <= t < size chain -> 0 <= rd (deps st) t <= 8).
Proof.
  split; [reflexivity|]. split; [reflexivity|]. split; [reflexivity|].
  apply dependency_counts_bounded; reflexivity.
Defined.

(** * More of the run: the values *)

(** In [chain] the flow of cells 6 and 7 passes through cell 7. *)
Example chain_basin : basin chain 7 = [6; 7] /\ upstream chain 7 = [6].
Proof. split; reflexivity. Qed.

Lemma accumulation_is_basin_size_witness :
  table_ok = true /\ well_formed chain = true /\ codes_ok chain = true /\
  acyclic chain = true /\
  exists r, flow_accumulation_from_d8 chain = Done r /\
            forall t, active chain t = true ->
                      at_i r t = Z.of_nat (length (basin chain t)).
Proof.
  split_and!; [reflexivity..|].
  apply accumulation_is_basin_size; reflexivity.
Defined.

Lemma accumulation_recurrence_witness :
  table_ok = true /\ well_formed two_cycle = true /\
  codes_ok two_cycle = true /\
  exists st r,
    propagate two_cycle = Done st /\
    flow_accumulation_from_d8 two_cycle = Done r /\
    (forall t, t ∈ popped st ->
       (forall s, s ∈ upstream two_cycle t -> s ∈ popped st) /\
       at_i r t = 1 + sumZ (at_i r) (upstream two_cycle t)) /\
    (forall t, active two_cycle t = true -> t ∉ popped st ->
       at_i r t
       = sumZ (fun s => if decide (s ∈ popped st) then at_i r s else 0)
              (upstream two_cycle t)).
Proof.
  split_and!; [reflexivity..|].
  apply accumulation_recurrence; reflexivity.
Defined.

Lemma accumulation_fits_witness :
  table_ok = true /\ well_formed chain = true /\ codes_ok chain = true /\
  exists r,
    flow_accumulation_from_d8 chain = Done r /\
    width r = width chain /\ height r = height chain /\
    length (data r) = length (data chain) /\
    population chain < 2 ^ 31 /\
    (forall i, 0 <= i < size chain -> isNoData chain i = false ->
               0 <= at_i r i <= population chain) /\
    (forall k st, reached chain k st ->
       forall x, 0 <= x < size chain ->
                 0 <= rd (accum st) x <= population chain).
Proof.
  split_and!; [reflexivity..|].
  apply accumulation_fits; reflexivity.
Defined.

(** No cell of [strip] is interior: the code 9 of cell 2 is never read. *)
Example strip_accumulates_nothing :
  exists r, flow_accumulation_from_d8 strip = Done r /\
            data r = [0; 255; 0; 0;
                      0; 0;   0; 0].
Proof. eexists. split; reflexivity. Qed.

Lemma narrow_rasters_accumulate_nothing_witness :
  table_ok = true /\ well_formed strip = true /\
  (width strip <= 2 \/ height strip <= 2) /\
  exists r,
    flow_accumulation_from_d8 strip = Done r /\
    forall i, 0 <= i < size strip ->
      at_i r i = if isNoData strip i then to_uint32 (noData strip) else 0.
Proof.
  split; [reflexivity|]. split; [reflexivity|].
  split; [right; vm_compute; discriminate|].
  apply narrow_rasters_accumulate_nothing;
    [reflexivity|reflexivity|right; vm_compute; discriminate].
Defined.

Lemma accumulation_grows_downstream_witness :
  table_ok = true /\ well_formed chain = true /\ codes_ok chain = true /\
  acyclic chain = true /\
  exists r,
    flow_accumulation_from_d8 chain = Done r /\
    forall c t, active chain c = true -> next chain c = Some t ->
                1 <= at_i r c < at_i r t.
Proof.
  split_and!; [reflexivity..|].
  apply accumulation_grows_downstream; reflexivity.
Defined.

(** * The disjoint-set class: properties *)

Module DisjointDenseIntSetFacts.
Import DisjointDenseIntSet.

Lemma bounded_nodup_length (L : list Z) (n : Z) :
  NoDup L -> (forall x, x ∈ L -> 0 <= x < n) -> Z.of_nat (length L) <= Z.max n 0.
Proof.
  intros Hnd Hin.
  assert (Hsub : L ⊆+ seqZ 0 (Z.max n 0)).
  { apply NoDup_submseteq; [done|]. intros x Hx. apply elem_of_seqZ.
    specialize (Hin x Hx). lia. }
  apply submseteq_length in Hsub. rewrite length_seqZ in Hsub. lia.
Qed.

Lemma length_resize v count value :
  0 <= count -> length (resize v count value) = Z.to_nat count.
Proof.
  intros. unfold resize. rewrite length_app, length_take, length_replicate. lia.
Qed.

Lemma rd_resize v count value i :
  0 <= i < count ->
  rd (resize v count value) i = if i <? vsize v then rd v i else value.
Proof.
  intros Hi. unfold rd, resize, vsize.
  destruct (Z.ltb_spec i (Z.of_nat (length v))) as [Hlt|Hge].
  - rewrite !list_lookup_total_alt, lookup_app_l by (rewrite length_take; lia).
    by rewrite lookup_take_lt by lia.
  - rewrite list_lookup_total_alt, lookup_app_r by (rewrite length_take; lia).
    rewrite lookup_replicate_2; [done|]. rewrite length_take. lia.
Qed.

Lemma length_fill_identity p from upto :
  length (fill_identity p from upto) = length p.
Proof.
  unfold fill_identity. generalize (seqZ from (upto - from)). intros L.
  revert p. induction L as [|i L IH]; intros p; [done|].
  cbn [foldl]. rewrite IH. apply length_wr.
Qed.

Lemma rd_fill_identity p from upto i :
  0 <= from -> upto <= vsize p -> upto <= 2 ^ 32 -> 0 <= i ->
  rd (fill_identity p from upto) i
  = if (from <=? i) && (i <? upto) then i else rd p i.
Proof.
  intros Hfrom Hupto H32 Hi. unfold fill_identity.
  assert (Hgen : forall L q,
             (forall x, x ∈ L -> 0 <= x < Z.of_nat (length q) /\ x < 2 ^ 32) ->
             rd (foldl (fun p i => wr p i (to_uint32 i)) q L) i
             = if bool_decide (i ∈ L) then i else rd q i).
  { induction L as [|x L IH]; intros q HL; [done|].
    cbn [foldl]. rewrite IH.
    2:{ intros y Hy. rewrite length_wr. apply HL. by right. }
    destruct (HL x) as [Hx Hx32]; [by left|].
    destruct (decide (i = x)) as [->|Hne].
    - rewrite rd_wr_eq by done. rewrite to_uint32_small by lia.
      rewrite (bool_decide_eq_true_2 (x ∈ x :: L)) by by left.
      by destruct (bool_decide (x ∈ L)).
    - rewrite rd_wr_ne by lia.
      destruct (bool_decide_reflect (i ∈ L)) as [Hin|Hnin].
      + rewrite bool_decide_eq_true_2; [done|by right].
      + rewrite bool_decide_eq_false_2; [done|].
        intros [?|?]%elem_of_cons; done. }
  rewrite Hgen.
  2:{ intros x Hx%elem_of_seqZ. unfold vsize in Hupto. lia. }
  destruct (bool_decide_reflect (i ∈ seqZ from (upto - from))) as [Hin|Hnin].
  - apply elem_of_seqZ in Hin.
    destruct (Z.leb_spec from i), (Z.ltb_spec i upto); try lia. done.
  - destruct (Z.leb_spec from i), (Z.ltb_spec i upto); try done.
    exfalso. apply Hnin, elem_of_seqZ. lia.
Qed.

(** ** Chains of parents *)

Lemma find_root_S s k n r :
  find_root s k n = Some r -> find_root s (S k) n = Some r.
Proof.
  revert n. induction k as [|k IH]; intros n; cbn [find_root].
  - destruct (rd (parent s) n =? n); [done|discriminate].
  - destruct (rd (parent s) n =? n); [done|]. intros H. by apply IH in H.
Qed.

Lemma find_root_mono s k k' n r :
  (k <= k')%nat -> find_root s k n = Some r -> find_root s k' n = Some r.
Proof.
  induction 1 as [|k' _ IH]; [done|]. intros H. by apply find_root_S, IH.
Qed.

Lemma find_root_det s k k' n r r' :
  find_root s k n = Some r -> find_root s k' n = Some r' -> r = r'.
Proof.
  intros H H'.
  apply (find_root_mono s k (k + k')) in H; [|lia].
  apply (find_root_mono s k' (k + k')) in H'; [|lia]. congruence.
Qed.

Lemma find_root_of_root s k r : rd (parent s) r = r -> find_root s k r = Some r.
Proof. intros H. destruct k; cbn [find_root]; by rewrite H, Z.eqb_refl. Qed.

Lemma find_root_is_root s k n r :
  find_root s k n = Some r -> rd (parent s) r = r.
Proof.
  revert n. induction k as [|k IH]; intros n; cbn [find_root];
    destruct (Z.eqb_spec (rd (parent s) n) n) as [He|Hne]; try congruence.
  apply IH.
Qed.

Lemma find_root_in_range s k n r :
  closed s -> in_range s n -> find_root s k n = Some r -> in_range s r.
Proof.
  intros Hc. revert n. induction k as [|k IH]; intros n Hn; cbn [find_root];
    destruct (Z.eqb_spec (rd (parent s) n) n) as [He|Hne]; try congruence.
  apply IH, Hc, Hn.
Qed.

Lemma find_root_step s k n :
  rd (parent s) n <> n -> find_root s (S k) n = find_root s k (rd (parent s) n).
Proof. intros H. cbn [find_root]. by destruct (Z.eqb_spec (rd (parent s) n) n). Qed.

(** A chain that ends visits each id once, so it ends within the number of
    ids. *)
Lemma find_root_path s k n r :
  closed s -> in_range s n -> find_root s k n = Some r ->
  exists L : list Z,
    NoDup L /\ (0 < length L)%nat /\
    (forall x, x ∈ L ->
       in_range s x /\
       exists d, (d < length L)%nat /\ find_root s d x = Some r) /\
    find_root s (length L - 1) n = Some r /\
    (forall d, (d < length L - 1)%nat -> find_root s d n = None).
Proof.
  intros Hc. revert n. induction k as [|k IH]; intros n Hn Hk.
  - exists [n]. cbn [length]. split_and!; [apply NoDup_singleton|lia| |done|lia].
    intros x ->%list_elem_of_singleton. split; [done|]. exists 0%nat.
    split; [lia|done].
  - destruct (Z.eq_dec (rd (parent s) n) n) as [He|Hne].
    + exists [n]. rewrite (find_root_of_root s _ n He) in Hk.
      cbn [length]. split_and!; [apply NoDup_singleton|lia| | |lia].
      * intros x ->%list_elem_of_singleton. split; [done|]. exists 0%nat.
        split; [lia|]. rewrite <- Hk. by apply find_root_of_root.
      * rewrite <- Hk. by apply find_root_of_root.
    + rewrite find_root_step in Hk by done.
      destruct (IH _ (Hc _ Hn) Hk) as (L & Hnd & Hpos & HL & Hlast & Hmin).
      assert (Hexact : forall d, (d < length L)%nat -> find_root s d n = None).
      { intros [|d] Hd.
        - cbn [find_root]. by destruct (Z.eqb_spec (rd (parent s) n) n).
        - rewrite find_root_step by done. apply Hmin. lia. }
      exists (n :: L). cbn [length]. split_and!.
      * apply NoDup_cons. split; [|done]. intros Hin.
        destruct (HL n Hin) as (_ & d & Hd & Hfd).
        rewrite Hexact in Hfd by done. discriminate.
      * lia.
      * intros x [->|Hx]%elem_of_cons.
        -- split; [done|]. exists (length L). split; [lia|].
           replace (length L) with (S (length L - 1)) by lia.
           by rewrite find_root_step.
        -- destruct (HL x Hx) as (Hr & d & Hd & Hfd). split; [done|].
           exists d. split; [lia|done].
      * replace (S (length L) - 1)%nat with (S (length L - 1)) by lia.
        by rewrite find_root_step.
      * intros d Hd. apply Hexact. lia.
Qed.

Lemma find_root_bound s k n r :
  closed s -> in_range s n -> find_root s k n = Some r ->
  find_root s (length (parent s) - 1) n = Some r.
Proof.
  intros Hc Hn Hk.
  destruct (find_root_path s k n r Hc Hn Hk) as (L & Hnd & Hpos & HL & Hlast & _).
  assert (Z.of_nat (length L) <= Z.max (vsize (parent s)) 0).
  { apply bounded_nodup_length; [done|]. intros x Hx. by apply HL. }
  unfold vsize in *. eapply find_root_mono; [|exact Hlast]. lia.
Qed.

Lemma rep_intro s k n r :
  closed s -> in_range s n -> find_root s k n = Some r -> rep s n = Some r.
Proof.
  intros Hc Hn Hk. unfold rep.
  eapply find_root_mono; [|by eapply find_root_bound]. lia.
Qed.

Lemma wf_elim s :
  wf s = true ->
  length (rank s) = length (parent s) /\ vsize (parent s) < 2 ^ 32 /\
  closed s /\ forall n, in_range s n -> exists r, rep s n = Some r.
Proof.
  unfold wf. intros H.
  apply andb_prop in H as [H H3]. apply andb_prop in H as [H1 H2].
  apply Nat.eqb_eq in H1. apply Z.ltb_lt in H2.
  rewrite forallb_forall in H3.
  assert (H' : forall n, in_range s n ->
             in_range s (rd (parent s) n) /\ exists r, rep s n = Some r).
  { intros n Hn. specialize (H3 n).
    rewrite <- list_elem_of_In, elem_of_seqZ in H3. unfold in_range in *.
    specialize (H3 ltac:(lia)).
    apply andb_prop in H3 as [H3 H5]. apply andb_prop in H3 as [H3 H4].
    apply Z.leb_le in H3. apply Z.ltb_lt in H4. split; [lia|].
    destruct (rep s n); [by eexists|discriminate]. }
  split_and!; [done|done| |]; intros n Hn; by apply H'.
Qed.

Lemma wf_intro s :
  length (rank s) = length (parent s) -> vsize (parent s) < 2 ^ 32 ->
  closed s -> (forall n, in_range s n -> exists r, rep s n = Some r) ->
  wf s = true.
Proof.
  intros H1 H2 Hc Hr. unfold wf.
  apply andb_true_intro; split; [apply andb_true_intro; split|].
  - by apply Nat.eqb_eq.
  - by apply Z.ltb_lt.
  - apply forallb_forall. intros n Hn.
    rewrite <- list_elem_of_In, elem_of_seqZ in Hn.
    assert (Hin : in_range s n) by (unfold in_range; lia).
    destruct (Hc n Hin) as [Ha Hb]. destruct (Hr n Hin) as [r ->].
    apply andb_true_intro; split; [apply andb_true_intro; split|done].
    + by apply Z.leb_le.
    + by apply Z.ltb_lt.
Qed.

Lemma unranked_elim s :
  roots_unranked s = true ->
  forall n, in_range s n -> rd (parent s) n = n -> rd (rank s) n = 0.
Proof.
  unfold roots_unranked. rewrite forallb_forall. intros H n Hn Hroot.
  specialize (H n). rewrite <- list_elem_of_In, elem_of_seqZ in H.
  unfold in_range in Hn. specialize (H ltac:(lia)).
  rewrite Hroot, Z.eqb_refl in H. cbn in H. by apply Z.eqb_eq.
Qed.

Lemma unranked_intro s :
  (forall n, in_range s n -> rd (parent s) n = n -> rd (rank s) n = 0) ->
  roots_unranked s = true.
Proof.
  intros H. unfold roots_unranked. apply forallb_forall. intros n Hn.
  rewrite <- list_elem_of_In, elem_of_seqZ in Hn.
  destruct (Z.eqb_spec (rd (parent s) n) n) as [He|Hne]; [|done].
  cbn. apply Z.eqb_eq, H; [unfold in_range; lia|done].
Qed.

(** ** findSet *)

Lemma findSet_unfold fuel s n :
  findSet fuel s n
  = if vsize (parent s) <=? n then Thrown s
    else if rd (parent s) n =? n then Returned n s
    else match fuel with
         | O => NoFuel
         | S fuel' =>
             match findSet fuel' s (rd (parent s) n) with
             | Returned r s' => Returned r (mk (rank s') (wr (parent s') n r))
             | Thrown s' => Thrown s'
             | NoFuel => NoFuel
             end
         end.
Proof. by destruct fuel. Qed.

Lemma ancestor_in_range s i n : closed s -> in_range s n -> in_range s (ancestor s i n).
Proof.
  intros Hc Hn. induction i as [|i IH]; [done|]. unfold ancestor in *.
  cbn [Nat.iter]. by apply Hc.
Qed.

Lemma ancestor_succ s i n :
  ancestor s (S i) n = ancestor s i (rd (parent s) n).
Proof. unfold ancestor. by rewrite Nat.iter_succ_r. Qed.

Lemma ancestor_of_root s i n : rd (parent s) n = n -> ancestor s i n = n.
Proof.
  intros H. induction i as [|i IH]; [done|]. by rewrite ancestor_succ, H.
Qed.

Lemma compressed_refl s r : compressed s s r.
Proof. split_and!; [done|done|]. intros x _. by left. Qed.

Lemma findSet_spec s fuel n r :
  closed s -> in_range s n -> find_root s fuel n = Some r ->
  exists s', findSet fuel s n = Returned r s' /\ compressed s s' r /\
             forall i, rd (parent s') (ancestor s i n) = r.
Proof.
  intros Hc. revert n.
  induction fuel as [|fuel IH]; intros n Hn Hf; rewrite findSet_unfold;
    cbn [find_root] in Hf;
    (destruct (Z.leb_spec (vsize (parent s)) n) as [Hout|_];
     [unfold in_range in Hn; lia|]);
    destruct (Z.eqb_spec (rd (parent s) n) n) as [He|Hne]; try discriminate.
  - injection Hf as <-. exists s. split_and!; [done|apply compressed_refl|].
    intros i. by rewrite ancestor_of_root.
  - injection Hf as <-. exists s. split_and!; [done|apply compressed_refl|].
    intros i. by rewrite ancestor_of_root.
  - destruct (IH _ (Hc n Hn) Hf) as (s1 & Hs1 & (Hrk & Hlen & Hpar) & Hanc).
    rewrite Hs1. eexists. split; [done|].
    assert (Hn1 : 0 <= n < Z.of_nat (length (parent s1))).
    { rewrite Hlen. exact Hn. }
    split; [split_and!|]; cbn [rank parent].
    + done.
    + by rewrite length_wr.
    + intros x Hx. destruct (decide (x = n)) as [->|Hxn].
      * right. rewrite rd_wr_eq by done. split_and!; [done|done|].
        exists (S fuel). by rewrite find_root_step.
      * rewrite rd_wr_ne by (unfold in_range in *; lia).
        destruct (Hpar x Hx) as [?|(? & ? & k & ?)]; [by left|right].
        split_and!; [done|done|by exists k].
    + intros [|i].
      * cbn. by rewrite rd_wr_eq.
      * rewrite ancestor_succ.
        destruct (decide (ancestor s i (rd (parent s) n) = n)) as [->|Hxn].
        -- by rewrite rd_wr_eq.
        -- pose proof (ancestor_in_range s i _ Hc (Hc n Hn)) as Hr.
           rewrite rd_wr_ne; [apply Hanc|lia| |congruence].
           unfold in_range in Hr. lia.
Qed.

Lemma findSet_more_fuel s k n r s' :
  findSet k s n = Returned r s' -> findSet (S k) s n = Returned r s'.
Proof.
  revert n r s'. induction k as [|k IH]; intros n r s' H;
    rewrite findSet_unfold in H; rewrite (findSet_unfold (S _));
    destruct (vsize (parent s) <=? n); try done;
    destruct (rd (parent s) n =? n); try done.
  destruct (findSet k s (rd (parent s) n)) as [r1 s1| |] eqn:E; try done.
  apply IH in E. by rewrite E.
Qed.

Lemma compressed_root s s' r x :
  compressed s s' r -> in_range s x -> rd (parent s) x = x ->
  rd (parent s') x = x.
Proof.
  intros (_ & _ & H) Hx Hroot.
  destruct (H x Hx) as [->|(_ & Hne & _)]; [done|contradiction].
Qed.

Lemma compressed_in_range s s' r x : compressed s s' r -> in_range s' x <-> in_range s x.
Proof. intros (_ & Hlen & _). unfold in_range, vsize. by rewrite Hlen. Qed.

Lemma compressed_find_root s s' r :
  closed s -> compressed s s' r -> rd (parent s) r = r -> in_range s r ->
  forall k x r0, in_range s x -> find_root s k x = Some r0 ->
                 find_root s' k x = Some r0.
Proof.
  intros Hc Hcomp Hroot Hr.
  assert (Hroot' : rd (parent s') r = r) by by eapply compressed_root.
  induction k as [|k IH]; intros x r0 Hx Hf.
  - cbn [find_root] in *.
    destruct (Z.eqb_spec (rd (parent s) x) x) as [He|Hne]; [|discriminate].
    by rewrite (compressed_root _ _ _ _ Hcomp Hx He), Z.eqb_refl.
  - destruct (Z.eq_dec (rd (parent s) x) x) as [He|Hne].
    + rewrite find_root_of_root in Hf by done.
      rewrite find_root_of_root; [done|]. by eapply compressed_root.
    + rewrite find_root_step in Hf by done.
      destruct Hcomp as (_ & _ & Hpar).
      destruct (Hpar x Hx) as [Hsame|(Hnew & _ & k0 & Hk0)].
      * rewrite find_root_step by congruence. rewrite Hsame.
        apply IH; [by apply Hc|done].
      * assert (r0 = r) as ->.
        { eapply find_root_det; [|exact Hk0]. by rewrite find_root_step. }
        assert (r <> x) by congruence.
        rewrite find_root_step by congruence. rewrite Hnew.
        by apply find_root_of_root.
Qed.

Lemma compressed_closed s s' r :
  closed s -> compressed s s' r -> in_range s r -> closed s'.
Proof.
  intros Hc Hcomp Hr x Hx.
  apply (compressed_in_range _ _ _ _ Hcomp).
  apply (compressed_in_range _ _ _ _ Hcomp) in Hx.
  destruct Hcomp as (_ & _ & Hpar).
  destruct (Hpar x Hx) as [->|(-> & _)]; [by apply Hc|done].
Qed.

Lemma compressed_wf s s' r :
  wf s = true -> compressed s s' r -> rd (parent s) r = r -> in_range s r ->
  wf s' = true /\ forall x, in_range s x -> rep s' x = rep s x.
Proof.
  intros Hwf Hcomp Hroot Hr.
  destruct (wf_elim s Hwf) as (Hlen & H32 & Hc & Hrep).
  assert (Hreps : forall x, in_range s x -> rep s' x = rep s x).
  { intros x Hx. destruct (Hrep x Hx) as [r0 Hr0]. rewrite Hr0.
    unfold rep in *. destruct Hcomp as (? & Hl & ?). rewrite Hl.
    eapply compressed_find_root; try done. }
  split; [|done].
  pose proof Hcomp as (Hrk & Hl & _).
  apply wf_intro.
  - by rewrite Hrk, Hl.
  - unfold vsize in *. by rewrite Hl.
  - by eapply compressed_closed.
  - intros x Hx. apply (compressed_in_range _ _ _ _ Hcomp) in Hx.
    rewrite Hreps by done. by apply Hrep.
Qed.

(** What one call of findSet on an id of a well-formed structure does. *)
Lemma findSet_wf s fuel n :
  wf s = true -> in_range s n -> (length (parent s) - 1 <= fuel)%nat ->
  exists r s',
    findSet fuel s n = Returned r s' /\ rep s n = Some r /\
    in_range s r /\ rd (parent s) r = r /\ compressed s s' r /\
    wf s' = true /\ (forall x, in_range s x -> rep s' x = rep s x) /\
    forall i, rd (parent s') (ancestor s i n) = r.
Proof.
  intros Hwf Hn Hfuel.
  destruct (wf_elim s Hwf) as (Hlen & H32 & Hc & Hrep).
  destruct (Hrep n Hn) as [r Hr].
  assert (Hk : find_root s fuel n = Some r).
  { eapply find_root_mono; [exact Hfuel|]. by eapply find_root_bound. }
  destruct (findSet_spec s fuel n r Hc Hn Hk) as (s' & Hs' & Hcomp & Hanc).
  assert (Hroot : rd (parent s) r = r) by by eapply find_root_is_root.
  assert (Hrr : in_range s r) by by eapply find_root_in_range.
  destruct (compressed_wf s s' r Hwf Hcomp Hroot Hrr) as [Hwf' Hreps].
  exists r, s'. split_and!; done.
Qed.


(** X4. findSet on an id of a well-formed structure returns the
    representative of its set, the id its chain of parents ends in; it
    leaves a well-formed structure of the same size with the same ranks, in
    which every id has the representative it had; and it does so for every
    recursion depth of at least the number of ids less one. *)
Theorem findSet_returns_the_representative s fuel n :
  wf s = true -> in_range s n -> (length (parent s) - 1 <= fuel)%nat ->
  exists r s',
    findSet fuel s n = Returned r s' /\
    rep s n = Some r /\ in_range s r /\ rd (parent s) r = r /\
    wf s' = true /\ rank s' = rank s /\
    vsize (parent s') = vsize (parent s) /\
    forall x, in_range s x -> rep s' x = rep s x.
Proof.
  intros Hwf Hn Hfuel.
  destruct (findSet_wf s fuel n Hwf Hn Hfuel)
    as (r & s' & Hs' & Hr & Hrr & Hroot & (Hrk & Hlen & _) & Hwf' & Hreps & _).
  exists r, s'. split_and!; try done. unfold vsize. by rewrite Hlen.
Qed.



(** ** Making one root a child *)

Lemma link_in_range s rk x0 y0 x : in_range (link s rk x0 y0) x <-> in_range s x.
Proof. unfold in_range, vsize, link. cbn [parent]. by rewrite length_wr. Qed.

Lemma link_parent s rk x0 y0 x :
  in_range s x0 -> in_range s x ->
  rd (parent (link s rk x0 y0)) x = if decide (x = x0) then y0 else rd (parent s) x.
Proof.
  intros Hx0 Hx. unfold link. cbn [parent]. unfold in_range, vsize in *.
  destruct (decide (x = x0)) as [->|Hne].
  - by rewrite rd_wr_eq.
  - rewrite rd_wr_ne; [done|lia|lia|congruence].
Qed.

Lemma link_keep s rk x0 y0 :
  closed s -> in_range s x0 -> rd (parent s) x0 = x0 ->
  forall k z r0, in_range s z -> find_root s k z = Some r0 -> r0 <> x0 ->
                 find_root (link s rk x0 y0) k z = Some r0.
Proof.
  intros Hc Hx0 Hroot. induction k as [|k IH]; intros z r0 Hz Hf Hne.
  - cbn [find_root] in *.
    destruct (Z.eqb_spec (rd (parent s) z) z) as [He|Hnr]; [|discriminate].
    injection Hf as <-. rewrite link_parent by done.
    rewrite decide_False by done. by rewrite He, Z.eqb_refl.
  - destruct (Z.eq_dec (rd (parent s) z) z) as [He|Hnr].
    + rewrite find_root_of_root in Hf by done. injection Hf as <-.
      apply find_root_of_root. rewrite link_parent by done.
      by rewrite decide_False.
    + assert (z <> x0) by congruence.
      rewrite find_root_step in Hf by done.
      rewrite find_root_step; rewrite link_parent by done;
        rewrite decide_False by done; [|done].
      apply IH; [by apply Hc|done|done].
Qed.

Lemma link_move s rk x0 y0 ry ky :
  closed s -> in_range s x0 -> rd (parent s) x0 = x0 ->
  in_range s y0 -> find_root s ky y0 = Some ry -> ry <> x0 ->
  forall k z, in_range s z -> find_root s k z = Some x0 ->
              find_root (link s rk x0 y0) (k + S ky) z = Some ry.
Proof.
  intros Hc Hx0 Hroot Hy0 Hry Hne.
  assert (Hyx : y0 <> x0).
  { intros ->. rewrite find_root_of_root in Hry by done. congruence. }
  assert (Hfrom : forall k, find_root (link s rk x0 y0) (k + S ky) x0 = Some ry).
  { intros k. replace (k + S ky)%nat with (S (k + ky)) by lia.
    rewrite find_root_step; rewrite link_parent by done;
      rewrite decide_True by done; [|done].
    eapply find_root_mono; [|by eapply link_keep]. lia. }
  induction k as [|k IH]; intros z Hz Hf.
  - cbn [find_root] in Hf.
    destruct (Z.eqb_spec (rd (parent s) z) z) as [He|Hnr]; [|discriminate].
    injection Hf as ->. apply Hfrom.
  - destruct (Z.eq_dec (rd (parent s) z) z) as [He|Hnr].
    + rewrite find_root_of_root in Hf by done. injection Hf as ->. apply Hfrom.
    + assert (z <> x0) by congruence.
      rewrite find_root_step in Hf by done.
      replace (S k + S ky)%nat with (S (k + S ky)) by lia.
      rewrite find_root_step; rewrite link_parent by done;
        rewrite decide_False by done; [|done].
      apply IH; [by apply Hc|done].
Qed.

Lemma link_closed s rk x0 y0 :
  closed s -> in_range s x0 -> in_range s y0 -> closed (link s rk x0 y0).
Proof.
  intros Hc Hx0 Hy0 x Hx. apply (proj2 (link_in_range _ _ _ _ _)). apply (proj1 (link_in_range _ _ _ _ _)) in Hx.
  rewrite link_parent by done. destruct (decide (x = x0)); [done|by apply Hc].
Qed.

Lemma link_wf s rk x0 y0 ry :
  wf s = true -> length rk = length (rank s) ->
  in_range s x0 -> rd (parent s) x0 = x0 ->
  in_range s y0 -> rep s y0 = Some ry -> ry <> x0 ->
  wf (link s rk x0 y0) = true /\
  forall z r0, in_range s z -> rep s z = Some r0 ->
               rep (link s rk x0 y0) z = Some (if decide (r0 = x0) then ry else r0).
Proof.
  intros Hwf Hrk Hx0 Hroot Hy0 Hry Hne.
  destruct (wf_elim s Hwf) as (Hlen & H32 & Hc & Hrep).
  assert (Hc' : closed (link s rk x0 y0)) by by apply link_closed.
  assert (Hreps : forall z r0, in_range s z -> rep s z = Some r0 ->
             rep (link s rk x0 y0) z = Some (if decide (r0 = x0) then ry else r0)).
  { intros z r0 Hz Hr0. destruct (decide (r0 = x0)) as [->|Hr0x].
    - eapply rep_intro; [done|by apply (proj2 (link_in_range _ _ _ _ _))|].
      by eapply (link_move s rk x0 y0 ry).
    - eapply rep_intro; [done|by apply (proj2 (link_in_range _ _ _ _ _))|].
      by eapply (link_keep s rk x0 y0). }
  split; [|done]. apply wf_intro.
  - unfold link. cbn [rank parent]. by rewrite length_wr, Hrk.
  - unfold link, vsize in *. cbn [parent]. by rewrite length_wr.
  - done.
  - intros z Hz. apply (proj1 (link_in_range _ _ _ _ _)) in Hz. destruct (Hrep z Hz) as [r0 Hr0].
    rewrite (Hreps z r0) by done. by eexists.
Qed.

Lemma compressed_root_inv s s' r x :
  compressed s s' r -> rd (parent s) r = r -> in_range s x ->
  rd (parent s') x = x -> rd (parent s) x = x.
Proof.
  intros (_ & _ & Hpar) Hroot Hx H'.
  destruct (Hpar x Hx) as [<-|(Hr & _)]; [done|]. congruence.
Qed.

Lemma compressed_unranked s s' r :
  compressed s s' r -> rd (parent s) r = r ->
  roots_unranked s = true -> roots_unranked s' = true.
Proof.
  intros Hcomp Hroot Hun. apply unranked_intro. intros x Hx Hx'.
  apply (compressed_in_range _ _ _ _ Hcomp) in Hx.
  destruct Hcomp as (Hrk & ?). rewrite Hrk.
  apply (unranked_elim s Hun x Hx).
  eapply compressed_root_inv; [|done..]. by split.
Qed.

(** ** unionSet and sameSet *)

Lemma two_finds s fuel a b :
  wf s = true -> in_range s a -> in_range s b ->
  (length (parent s) - 1 <= fuel)%nat ->
  exists ra s1 rb s2,
    findSet fuel s a = Returned ra s1 /\ findSet fuel s1 b = Returned rb s2 /\
    rep s a = Some ra /\ rep s b = Some rb /\
    in_range s2 ra /\ in_range s2 rb /\
    rd (parent s2) ra = ra /\ rd (parent s2) rb = rb /\
    wf s2 = true /\ rank s2 = rank s /\ length (parent s2) = length (parent s) /\
    (forall x, in_range s x -> rep s2 x = rep s x) /\
    (roots_unranked s = true -> roots_unranked s2 = true).
Proof.
  intros Hwf Ha Hb Hfuel.
  destruct (findSet_wf s fuel a Hwf Ha Hfuel)
    as (ra & s1 & Hs1 & Hra & Hrar & Hraroot & Hcomp1 & Hwf1 & Hreps1 & _).
  pose proof Hcomp1 as (Hrk1 & Hlen1 & _).
  assert (Hb1 : in_range s1 b) by by apply (compressed_in_range _ _ _ _ Hcomp1).
  assert (Hfuel1 : (length (parent s1) - 1 <= fuel)%nat) by by rewrite Hlen1.
  destruct (findSet_wf s1 fuel b Hwf1 Hb1 Hfuel1)
    as (rb & s2 & Hs2 & Hrb & Hrbr & Hrbroot & Hcomp2 & Hwf2 & Hreps2 & _).
  pose proof Hcomp2 as (Hrk2 & Hlen2 & _).
  assert (Hra1 : in_range s1 ra) by by apply (compressed_in_range _ _ _ _ Hcomp1).
  exists ra, s1, rb, s2. split_and!; try done.
  - by rewrite <- Hreps1.
  - by apply (compressed_in_range _ _ _ _ Hcomp2).
  - by apply (compressed_in_range _ _ _ _ Hcomp2).
  - eapply compressed_root; [done|done|]. by eapply compressed_root.
  - by eapply compressed_root.
  - by rewrite Hrk2.
  - by rewrite Hlen2.
  - intros x Hx. rewrite Hreps2, Hreps1; try done.
    by apply (compressed_in_range _ _ _ _ Hcomp1).
  - intros Hun. eapply compressed_unranked; [done|done|].
    by eapply compressed_unranked.
Qed.

Lemma unionSet_wf s fuel a b :
  wf s = true -> in_range s a -> in_range s b ->
  (length (parent s) - 1 <= fuel)%nat ->
  exists ra rb w s',
    unionSet fuel s a b = Returned tt s' /\
    rep s a = Some ra /\ rep s b = Some rb /\ (w = ra \/ w = rb) /\
    wf s' = true /\ length (parent s') = length (parent s) /\
    (forall z r0, in_range s z -> rep s z = Some r0 ->
       rep s' z = Some (if decide (r0 = ra \/ r0 = rb) then w else r0)) /\
    (roots_unranked s = true -> w = rb /\ roots_unranked s' = true).
Proof.
  intros Hwf Ha Hb Hfuel.
  destruct (two_finds s fuel a b Hwf Ha Hb Hfuel)
    as (ra & s1 & rb & s2 & Hs1 & Hs2 & Hra & Hrb & Hrar & Hrbr & Hraroot
        & Hrbroot & Hwf2 & Hrk2 & Hlen2 & Hreps2 & Hun2).
  assert (Hin2 : forall x, in_range s x -> in_range s2 x).
  { intros x. unfold in_range, vsize. by rewrite Hlen2. }
  destruct (wf_elim s2 Hwf2) as (_ & _ & Hc2 & _).
  unfold unionSet. rewrite Hs1, Hs2.
  destruct (Z.eqb_spec ra rb) as [Heq|Hne].
  - exists ra, rb, ra, s2. split_and!; try done; [by left| |].
    + intros z r0 Hz Hr0. rewrite Hreps2, Hr0 by done.
      destruct (decide (r0 = ra \/ r0 = rb)) as [[->| ->]|]; congruence.
    + intros Hun. split; [done|by apply Hun2].
  - set (x0 := if rd (rank s2) rb <? rd (rank s2) ra then rb else ra).
    set (y0 := if rd (rank s2) rb <? rd (rank s2) ra then ra else rb).
    set (rank3 := if rd (rank s2) x0 =? rd (rank s2) y0
                  then wr (rank s2) x0 (to_uint32 (rd (rank s2) x0 + 1))
                  else rank s2).
    assert (Hs' : (let '(roota, rootb) :=
                     if rd (rank s2) rb <? rd (rank s2) ra
                     then (rb, ra) else (ra, rb) in
                   let parent3 := wr (parent s2) roota rootb in
                   let rank3 :=
                     if rd (rank s2) roota =? rd (rank s2) rootb
                     then wr (rank s2) roota (to_uint32 (rd (rank s2) roota + 1))
                     else rank s2 in
                   Returned tt (mk rank3 parent3))
                  = Returned tt (link s2 rank3 x0 y0)).
    { unfold rank3, x0, y0, link.
      by destruct (rd (rank s2) rb <? rd (rank s2) ra). }
    cbv zeta in Hs'. rewrite Hs'. clear Hs'.
    assert (Hxy : (x0 = ra /\ y0 = rb) \/ (x0 = rb /\ y0 = ra)).
    { unfold x0, y0. destruct (rd (rank s2) rb <? rd (rank s2) ra); auto. }
    assert (Hx0 : in_range s2 x0) by (destruct Hxy as [[-> _]|[-> _]]; done).
    assert (Hy0 : in_range s2 y0) by (destruct Hxy as [[_ ->]|[_ ->]]; done).
    assert (Hx0r : rd (parent s2) x0 = x0) by (destruct Hxy as [[-> _]|[-> _]]; done).
    assert (Hy0r : rd (parent s2) y0 = y0) by (destruct Hxy as [[_ ->]|[_ ->]]; done).
    assert (Hyx : y0 <> x0) by (destruct Hxy as [[-> ->]|[-> ->]]; congruence).
    assert (Hrk3 : length rank3 = length (rank s2)).
    { unfold rank3. destruct (_ =? _); [apply length_wr|done]. }
    assert (Hrepy : rep s2 y0 = Some y0).
    { eapply (rep_intro _ 0%nat); [done|done|]. by apply find_root_of_root. }
    destruct (link_wf s2 rank3 x0 y0 y0 Hwf2 Hrk3 Hx0 Hx0r Hy0 Hrepy Hyx)
      as [Hwf3 Hreps3].
    exists ra, rb, y0, (link s2 rank3 x0 y0). split_and!; try done.
    + destruct Hxy as [[_ ->]|[_ ->]]; auto.
    + unfold link. cbn [parent]. by rewrite length_wr.
    + intros z r0 Hz Hr0.
      rewrite (Hreps3 z r0); [|by apply Hin2|by rewrite Hreps2].
      f_equal. destruct (decide (r0 = x0)) as [->|Hr0x].
      * rewrite decide_True; [done|]. destruct Hxy as [[-> _]|[-> _]]; auto.
      * destruct (decide (r0 = ra \/ r0 = rb)) as [Hor|]; [|done].
        destruct Hxy as [[-> ->]|[-> ->]]; destruct Hor; congruence.
    + intros Hun. specialize (Hun2 Hun).
      pose proof (unranked_elim s2 Hun2 ra Hrar Hraroot) as Hra0.
      pose proof (unranked_elim s2 Hun2 rb Hrbr Hrbroot) as Hrb0.
      assert (x0 = ra /\ y0 = rb) as [Ex Ey].
      { unfold x0, y0. rewrite Hra0, Hrb0. done. }
      split; [done|]. apply unranked_intro. intros z Hz Hzroot.
      apply (proj1 (link_in_range _ _ _ _ _)) in Hz. rewrite link_parent in Hzroot by done.
      destruct (decide (z = x0)) as [->|Hzx]; [congruence|].
      unfold link, rank3. cbn [rank]. rewrite Ex, Ey, Hra0, Hrb0. cbn.
      rewrite rd_wr_ne; [by apply (unranked_elim s2 Hun2)| | |congruence];
        unfold in_range in *; lia.
Qed.

(** X7. unionSet(a,b) on two ids of a well-formed structure returns, leaves
    a well-formed structure of the same size, and merges the sets of [a]
    and [b] and nothing else: two ids are in one set afterwards exactly
    when they were before or each was in the set of [a] or of [b]. The
    representative of the merged set is one of the two old ones. *)
Theorem unionSet_merges_the_two_sets s fuel a b :
  wf s = true -> in_range s a -> in_range s b ->
  (length (parent s) - 1 <= fuel)%nat ->
  exists s',
    unionSet fuel s a b = Returned tt s' /\ wf s' = true /\
    vsize (parent s') = vsize (parent s) /\
    rep s' a = rep s' b /\ (rep s' a = rep s a \/ rep s' a = rep s b) /\
    forall x y, in_range s x -> in_range s y ->
      (rep s' x = rep s' y <->
       rep s x = rep s y \/
       ((rep s x = rep s a \/ rep s x = rep s b) /\
        (rep s y = rep s a \/ rep s y = rep s b))).
Proof.
  intros Hwf Ha Hb Hfuel.
  destruct (unionSet_wf s fuel a b Hwf Ha Hb Hfuel)
    as (ra & rb & w & s' & Hs' & Hra & Hrb & Hw & Hwf' & Hlen & Hreps & _).
  destruct (wf_elim s Hwf) as (_ & _ & _ & Hrep).
  exists s'. split_and!; try done.
  - unfold vsize. by rewrite Hlen.
  - rewrite (Hreps a ra), (Hreps b rb) by done.
    rewrite !decide_True by auto. done.
  - rewrite (Hreps a ra) by done. rewrite decide_True by auto.
    rewrite Hra, Hrb. destruct Hw as [->| ->]; auto.
  - intros x y Hx Hy.
    destruct (Hrep x Hx) as [rx Hrx]. destruct (Hrep y Hy) as [ry Hry].
    rewrite (Hreps x rx), (Hreps y ry) by done. rewrite Hrx, Hry, Hra, Hrb.
    destruct (decide (rx = ra \/ rx = rb)) as [Hox|Hnx];
      destruct (decide (ry = ra \/ ry = rb)) as [Hoy|Hny].
    + split; [intros _; right|done].
      split; [destruct Hox as [->| ->]|destruct Hoy as [->| ->]]; auto.
    + split.
      * intros [= <-]. destruct Hny. destruct Hw; auto.
      * intros [[= ->]|[_ [[= ->]|[= ->]]]]; destruct Hny; auto.
    + split.
      * intros [= ->]. destruct Hnx. destruct Hw; auto.
      * intros [[= ->]|[[[= ->]|[= ->]] _]]; destruct Hnx; auto.
    + split; [auto|]. intros [?|[[[= ->]|[= ->]] _]]; [done| |]; destruct Hnx; auto.
Qed.

(** X8. unionSet increments the rank of the root it has just made a child,
    so in a structure in which every root has rank 0 (as the constructors
    and makeSet give) every root still has rank 0 afterwards, the comparison
    of ranks never swaps, and the representative of the merged set is
    always the one of [b]: the result does not depend on the sizes or
    heights of the two sets. *)
Theorem unionSet_attaches_a_under_b s fuel a b :
  wf s = true -> roots_unranked s = true -> in_range s a -> in_range s b ->
  (length (parent s) - 1 <= fuel)%nat ->
  exists s',
    unionSet fuel s a b = Returned tt s' /\
    wf s' = true /\ roots_unranked s' = true /\
    forall z, in_range s z ->
      rep s' z = if decide (rep s z = rep s a) then rep s b else rep s z.
Proof.
  intros Hwf Hun Ha Hb Hfuel.
  destruct (unionSet_wf s fuel a b Hwf Ha Hb Hfuel)
    as (ra & rb & w & s' & Hs' & Hra & Hrb & _ & Hwf' & _ & Hreps & Hw).
  destruct (Hw Hun) as [-> Hun'].
  destruct (wf_elim s Hwf) as (_ & _ & _ & Hrep).
  exists s'. split_and!; try done.
  intros z Hz. destruct (Hrep z Hz) as [r0 Hr0].
  rewrite (Hreps z r0), Hr0, Hra, Hrb by done.
  destruct (decide (r0 = ra \/ r0 = rb)) as [[->| ->]|Hno].
  - by rewrite decide_True.
  - by destruct (decide (Some rb = Some ra)).
  - rewrite decide_False; [done|]. intros [= ->]. auto.
Qed.

(** X9. sameSet(a,b) on two ids of a well-formed structure returns true
    exactly when the two ids have the same representative, and leaves a
    well-formed structure with the same ranks and the same sets. *)
Theorem sameSet_compares_representatives s fuel a b :
  wf s = true -> in_range s a -> in_range s b ->
  (length (parent s) - 1 <= fuel)%nat ->
  exists s',
    sameSet fuel s a b = Returned (bool_decide (rep s a = rep s b)) s' /\
    wf s' = true /\ rank s' = rank s /\
    vsize (parent s') = vsize (parent s) /\
    forall x, in_range s x -> rep s' x = rep s x.
Proof.
  intros Hwf Ha Hb Hfuel.
  destruct (two_finds s fuel a b Hwf Ha Hb Hfuel)
    as (ra & s1 & rb & s2 & Hs1 & Hs2 & Hra & Hrb & _ & _ & _
        & _ & Hwf2 & Hrk2 & Hlen2 & Hreps2 & _).
  exists s2. unfold sameSet. rewrite Hs1, Hs2, Hra, Hrb.
  split_and!; try done; [|unfold vsize; by rewrite Hlen2].
  f_equal. destruct (Z.eqb_spec ra rb) as [->|Hne].
  - by rewrite bool_decide_eq_true_2.
  - rewrite bool_decide_eq_false_2; [done|congruence].
Qed.

(** ** checkSize, makeSet and the constructors *)

Lemma checkSize_spec s n :
  length (rank s) = length (parent s) -> 0 <= n < 2 ^ 32 - 1 ->
  let s' := checkSize s n in
  length (rank s') = length (parent s') /\
  vsize (parent s') = Z.max (vsize (parent s)) (n + 1) /\
  (n < vsize (parent s) -> s' = s) /\
  forall i, 0 <= i < vsize (parent s') ->
    rd (parent s') i = (if i <? vsize (parent s) then rd (parent s) i else i) /\
    rd (rank s') i = (if i <? vsize (parent s) then rd (rank s) i else 0).
Proof.
  intros Hlen Hn. unfold checkSize, vsize. rewrite Hlen.
  destruct (Z.ltb_spec n (Z.of_nat (length (parent s)))) as [Hlt|Hge]; cbn zeta.
  - split_and!; [done|lia|done|]. intros i Hi.
    by destruct (Z.ltb_spec i (Z.of_nat (length (parent s)))); [|lia].
  - rewrite to_uint32_small by lia. cbn [rank parent].
    rewrite length_fill_identity, !length_resize by lia.
    split_and!; [done|lia|lia|]. intros i Hi.
    rewrite rd_fill_identity;
      [|lia|unfold vsize; rewrite length_resize; lia|lia|lia].
    rewrite !rd_resize by lia. unfold vsize. rewrite Hlen.
    destruct (Z.ltb_spec i (Z.of_nat (length (parent s)))),
             (Z.leb_spec (Z.of_nat (length (parent s))) i),
             (Z.ltb_spec i (n + 1)); try lia; done.
Qed.

Lemma find_root_agree s s' :
  closed s ->
  (forall x, in_range s x -> rd (parent s') x = rd (parent s) x) ->
  forall k x, in_range s x -> find_root s' k x = find_root s k x.
Proof.
  intros Hc Hag. induction k as [|k IH]; intros x Hx; cbn [find_root];
    rewrite (Hag x Hx); [done|].
  destruct (rd (parent s) x =? x); [done|]. by apply IH, Hc.
Qed.

Lemma checkSize_wf s n :
  wf s = true -> 0 <= n < 2 ^ 32 - 1 ->
  let s' := checkSize s n in
  wf s' = true /\
  vsize (parent s') = Z.max (vsize (parent s)) (n + 1) /\
  (n < vsize (parent s) -> s' = s) /\
  (forall x, in_range s x ->
     rep s' x = rep s x /\ rd (parent s') x = rd (parent s) x /\
     rd (rank s') x = rd (rank s) x) /\
  (forall x, vsize (parent s) <= x <= n ->
     rep s' x = Some x /\ rd (parent s') x = x /\ rd (rank s') x = 0) /\
  (roots_unranked s = true -> roots_unranked s' = true).
Proof.
  intros Hwf Hn s'.
  destruct (wf_elim s Hwf) as (Hlen & H32 & Hc & Hrep).
  destruct (checkSize_spec s n Hlen Hn) as (Hlen' & Hsize & Hsame & Hrd).
  fold s' in Hlen', Hsize, Hsame, Hrd.
  assert (Hold : forall x, in_range s x ->
             rd (parent s') x = rd (parent s) x /\ rd (rank s') x = rd (rank s) x).
  { intros x Hx. unfold in_range in Hx. destruct (Hrd x) as [-> ->]; [lia|].
    by destruct (Z.ltb_spec x (vsize (parent s))); [|lia]. }
  assert (Hnew : forall x, vsize (parent s) <= x <= n ->
             rd (parent s') x = x /\ rd (rank s') x = 0).
  { intros x Hx. pose proof (Zle_0_nat (length (parent s))).
    unfold vsize in *. destruct (Hrd x) as [-> ->]; [lia|].
    by destruct (Z.ltb_spec x (Z.of_nat (length (parent s)))); [lia|]. }
  assert (Hc' : closed s').
  { intros x Hx. unfold in_range in *.
    destruct (Z.lt_ge_cases x (vsize (parent s))) as [Hlt|Hge].
    - destruct (Hold x) as [-> _]; [unfold in_range; lia|].
      pose proof (Hc x ltac:(unfold in_range; lia)) as Hp. unfold in_range in Hp. lia.
    - destruct (Hnew x) as [-> _]; lia. }
  assert (Hreps : forall x, in_range s x -> rep s' x = rep s x).
  { intros x Hx. destruct (Hrep x Hx) as [r Hr]. rewrite Hr.
    apply (rep_intro s' (length (parent s))); [done|unfold in_range in *; lia|].
    rewrite (find_root_agree s s'); [done|done| |done].
    intros y Hy. by apply Hold. }
  assert (Hrepn : forall x, vsize (parent s) <= x <= n -> rep s' x = Some x).
  { intros x Hx. apply find_root_of_root. by apply Hnew. }
  split_and!.
  - apply wf_intro; [done|lia|done|]. intros x Hx.
    destruct (Z.lt_ge_cases x (vsize (parent s))) as [Hlt|Hge].
    + rewrite Hreps by (unfold in_range in *; lia).
      apply Hrep. unfold in_range in *; lia.
    + exists x. apply Hrepn. unfold in_range in *. lia.
  - done.
  - done.
  - intros x Hx. destruct (Hold x Hx). split_and!; auto.
  - intros x Hx. destruct (Hnew x Hx). split_and!; auto.
  - intros Hun. apply unranked_intro. intros x Hx Hroot.
    destruct (Z.lt_ge_cases x (vsize (parent s))) as [Hlt|Hge].
    + assert (Hxs : in_range s x) by (unfold in_range in *; lia).
      destruct (Hold x Hxs) as [Hp ->]. apply (unranked_elim s Hun x Hxs).
      by rewrite <- Hp.
    + apply Hnew. unfold in_range in *. lia.
Qed.

(** X10. makeSet(n), for n below 2^32-1, leaves a well-formed structure
    with max(size, n+1) ids in which every old id has the representative,
    the parent and the rank it had, and every new id is a set of its own
    with rank 0; it changes nothing when [n] is an id already, and
    maxElement() then returns the largest id. *)
Theorem makeSet_adds_singletons s n :
  wf s = true -> 0 <= n < 2 ^ 32 - 1 ->
  wf (makeSet s n) = true /\
  vsize (parent (makeSet s n)) = Z.max (vsize (parent s)) (n + 1) /\
  maxElement (makeSet s n) = Z.max (vsize (parent s) - 1) n /\
  (n < vsize (parent s) -> makeSet s n = s) /\
  (forall x, in_range s x ->
     rep (makeSet s n) x = rep s x /\
     rd (parent (makeSet s n)) x = rd (parent s) x /\
     rd (rank (makeSet s n)) x = rd (rank s) x) /\
  (forall x, vsize (parent s) <= x <= n ->
     rep (makeSet s n) x = Some x /\ rd (rank (makeSet s n)) x = 0) /\
  (roots_unranked s = true -> roots_unranked (makeSet s n) = true).
Proof.
  intros Hwf Hn. unfold makeSet.
  destruct (checkSize_wf s n Hwf Hn) as (Hwf' & Hsize & Hsame & Hold & Hnew & Hun).
  split_and!; try done.
  - destruct (wf_elim _ Hwf') as (Hlen' & _). unfold maxElement, vsize in *.
    rewrite Hlen', Hsize. pose proof (Zle_0_nat (length (parent s))).
    destruct (wf_elim _ Hwf) as (_ & H32 & _). unfold vsize in H32.
    rewrite to_uint32_small by lia. lia.
  - intros x Hx. destruct (Hnew x Hx) as (? & _ & ?). done.
Qed.

(** X11. makeSet(4294967295): `newN + 1` wraps to 0 in uint32_t, both
    vectors are resized to length 0 and every set of the structure is
    gone; maxElement() of the empty structure is 4294967295 again, and
    findSet then throws for every id. *)
Theorem makeSet_of_the_largest_id_empties s :
  vsize (rank s) <= 2 ^ 32 - 1 ->
  makeSet s (2 ^ 32 - 1) = no_sets /\
  maxElement (makeSet s (2 ^ 32 - 1)) = 2 ^ 32 - 1 /\
  forall fuel n, 0 <= n ->
    findSet fuel (makeSet s (2 ^ 32 - 1)) n = Thrown no_sets.
Proof.
  intros Hsize.
  assert (E : makeSet s (2 ^ 32 - 1) = no_sets).
  { unfold makeSet, checkSize.
    destruct (Z.ltb_spec (2 ^ 32 - 1) (vsize (rank s))) as [?|_]; [lia|].
    cbn zeta. replace (to_uint32 (2 ^ 32 - 1 + 1)) with 0 by done.
    unfold no_sets, resize, fill_identity. cbn [Z.to_nat take replicate app Nat.sub].
    rewrite seqZ_nil; [done|]. unfold vsize. lia. }
  rewrite E. split_and!; [done|done|].
  intros fuel n Hn. rewrite findSet_unfold.
  change (vsize (parent no_sets)) with 0.
  by destruct (Z.leb_spec 0 n); [|lia].
Qed.

Lemma with_sets_spec N :
  0 <= N < 2 ^ 32 ->
  length (rank (with_sets N)) = Z.to_nat N /\
  length (parent (with_sets N)) = Z.to_nat N /\
  forall i, 0 <= i < N ->
    rd (parent (with_sets N)) i = i /\ rd (rank (with_sets N)) i = 0.
Proof.
  intros HN. unfold with_sets. cbn [rank parent].
  rewrite length_fill_identity, !length_resize by lia.
  split_and!; [done|done|]. intros i Hi.
  rewrite rd_fill_identity;
    [|lia|unfold vsize; rewrite length_resize; lia|lia|lia].
  rewrite rd_resize by lia.
  destruct (Z.leb_spec 0 i), (Z.ltb_spec i N); try lia. split; [done|].
  change (vsize []) with 0. by destruct (Z.ltb_spec i 0); [lia|].
Qed.

(** X12. The constructor with [N] preallocated sets, N below 2^32, gives a
    well-formed structure of [N] ids in which every id is the
    representative of its own set and has rank 0: findSet(i) returns [i]
    and changes nothing, sameSet(i,j) returns whether i = j, findSet
    throws from [N] on, and maxElement() is N-1 when N is not 0. *)
Theorem with_sets_are_singletons N :
  0 <= N < 2 ^ 32 ->
  wf (with_sets N) = true /\ roots_unranked (with_sets N) = true /\
  vsize (parent (with_sets N)) = N /\
  (0 < N -> maxElement (with_sets N) = N - 1) /\
  (forall fuel i, 0 <= i < N ->
     rep (with_sets N) i = Some i /\
     findSet fuel (with_sets N) i = Returned i (with_sets N)) /\
  (forall fuel i j, 0 <= i < N -> 0 <= j < N ->
     sameSet fuel (with_sets N) i j = Returned (i =? j) (with_sets N)) /\
  (forall fuel i, N <= i -> findSet fuel (with_sets N) i = Thrown (with_sets N)).
Proof.
  intros HN. destruct (with_sets_spec N HN) as (Hrk & Hpa & Hrd).
  assert (Hsize : vsize (parent (with_sets N)) = N) by (unfold vsize; lia).
  assert (Hfind : forall fuel i, 0 <= i < N ->
            findSet fuel (with_sets N) i = Returned i (with_sets N)).
  { intros fuel i Hi. rewrite findSet_unfold, Hsize.
    destruct (Z.leb_spec N i); [lia|]. destruct (Hrd i Hi) as [-> _].
    by rewrite Z.eqb_refl. }
  split_and!.
  - apply wf_intro; [lia|lia| |].
    + intros i Hi. unfold in_range in *. rewrite Hsize in *.
      by destruct (Hrd i Hi) as [-> _].
    + intros i Hi. unfold in_range in *. rewrite Hsize in *. exists i.
      apply find_root_of_root. by apply Hrd.
  - apply unranked_intro. intros i Hi _. unfold in_range in *.
    rewrite Hsize in *. by apply Hrd.
  - done.
  - intros HN0. unfold maxElement, vsize. rewrite Hrk.
    rewrite to_uint32_small by lia. lia.
  - intros fuel i Hi. split; [|by apply Hfind].
    apply find_root_of_root. by apply Hrd.
  - intros fuel i j Hi Hj. unfold sameSet. by rewrite !Hfind.
  - intros fuel i Hi. rewrite findSet_unfold, Hsize.
    by destruct (Z.leb_spec N i); [|lia].
Qed.

(** ** mergeAintoB *)

Lemma mergeAintoB_link s a b :
  exists rk,
    mergeAintoB s a b = link (checkSize (checkSize s a) b) rk a b /\
    length rk = length (rank (checkSize (checkSize s a) b)).
Proof.
  unfold mergeAintoB, link. cbn zeta.
  set (s2 := checkSize (checkSize s a) b).
  eexists. split; [reflexivity|].
  destruct (_ =? _); [apply length_wr|].
  destruct (_ <? _); [apply length_wr|done].
Qed.

(** X13. mergeAintoB(a,b), for ids below 2^32-1, first creates the ids
    that are missing and then makes [b] the parent of [a]. When [a] is the
    representative of its set and [b] is in another set, the result is
    well formed, the ids of the set of [a] get the representative of [b],
    and every other id keeps its representative. *)
Theorem mergeAintoB_moves_the_set_of_a s a b rb :
  wf s = true -> 0 <= a < 2 ^ 32 - 1 -> 0 <= b < 2 ^ 32 - 1 ->
  rd (parent (makeSet (makeSet s a) b)) a = a ->
  rep (makeSet (makeSet s a) b) b = Some rb -> rb <> a ->
  wf (mergeAintoB s a b) = true /\
  vsize (parent (mergeAintoB s a b))
  = Z.max (vsize (parent s)) (Z.max (a + 1) (b + 1)) /\
  rd (parent (mergeAintoB s a b)) a = b /\
  forall z r0, in_range (makeSet (makeSet s a) b) z ->
    rep (makeSet (makeSet s a) b) z = Some r0 ->
    rep (mergeAintoB s a b) z = Some (if decide (r0 = a) then rb else r0).
Proof.
  unfold makeSet. intros Hwf Ha Hb Hroot Hrb Hne.
  destruct (checkSize_wf s a Hwf Ha) as (Hwf1 & Hsize1 & _).
  destruct (checkSize_wf _ b Hwf1 Hb) as (Hwf2 & Hsize2 & _).
  destruct (mergeAintoB_link s a b) as (rk & -> & Hrk).
  set (s2 := checkSize (checkSize s a) b) in *.
  assert (Ha2 : in_range s2 a) by (unfold in_range; lia).
  assert (Hb2 : in_range s2 b) by (unfold in_range; lia).
  destruct (link_wf s2 rk a b rb Hwf2 Hrk Ha2 Hroot Hb2 Hrb Hne) as [Hwf3 Hreps].
  split_and!; [done| | |done].
  - unfold link, vsize in *. cbn [parent]. rewrite length_wr. lia.
  - rewrite link_parent by done. by rewrite decide_True.
Qed.

(** X14. mergeAintoB does not look at the sets of its arguments: after
    mergeAintoB(a,b) and mergeAintoB(b,a), for two different ids below
    2^32-1, each of the two is the parent of the other, and the recursion
    of findSet on either of them does not end, whatever depth it is
    given. *)
Theorem mergeAintoB_both_ways_never_ends s a b :
  length (rank s) = length (parent s) ->
  0 <= a < 2 ^ 32 - 1 -> 0 <= b < 2 ^ 32 - 1 -> a <> b ->
  let s' := mergeAintoB (mergeAintoB s a b) b a in
  rd (parent s') a = b /\ rd (parent s') b = a /\
  forall fuel, findSet fuel s' a = NoFuel /\ findSet fuel s' b = NoFuel.
Proof.
  intros Hlen Ha Hb Hab s'.
  destruct (checkSize_spec s a Hlen Ha) as (Hlen1 & Hsize1 & _).
  destruct (checkSize_spec _ b Hlen1 Hb) as (Hlen2 & Hsize2 & _).
  destruct (mergeAintoB_link s a b) as (rk & E1 & Hrk).
  set (s2 := checkSize (checkSize s a) b) in *.
  set (m := mergeAintoB s a b) in *.
  assert (Ha2 : in_range s2 a) by (unfold in_range; lia).
  assert (Hb2 : in_range s2 b) by (unfold in_range; lia).
  assert (Hlenm : length (rank m) = length (parent m)).
  { rewrite E1. unfold link. cbn [rank parent]. rewrite length_wr. lia. }
  assert (Ham : in_range m a) by (rewrite E1; by apply (proj2 (link_in_range _ _ _ _ _))).
  assert (Hbm : in_range m b) by (rewrite E1; by apply (proj2 (link_in_range _ _ _ _ _))).
  assert (Hpa : rd (parent m) a = b).
  { rewrite E1, link_parent by done. by rewrite decide_True. }
  destruct (checkSize_spec m b Hlenm Hb) as (_ & _ & Hsame3 & _).
  destruct (checkSize_spec m a Hlenm Ha) as (_ & _ & Hsame4 & _).
  destruct (mergeAintoB_link m b a) as (rk' & E2 & _).
  rewrite Hsame3 in E2 by (unfold in_range in Hbm; lia).
  rewrite Hsame4 in E2 by (unfold in_range in Ham; lia).
  fold s' in E2.
  assert (Ha' : in_range s' a) by (rewrite E2; by apply (proj2 (link_in_range _ _ _ _ _))).
  assert (Hb' : in_range s' b) by (rewrite E2; by apply (proj2 (link_in_range _ _ _ _ _))).
  assert (Hpa' : rd (parent s') a = b).
  { rewrite E2, link_parent by done. by rewrite decide_False. }
  assert (Hpb' : rd (parent s') b = a).
  { rewrite E2, link_parent by done. by rewrite decide_True. }
  split_and!; [done|done|].
  induction fuel as [|fuel [IHa IHb]]; split; rewrite findSet_unfold.
  - destruct (Z.leb_spec (vsize (parent s')) a); [unfold in_range in Ha'; lia|].
    rewrite Hpa'. by destruct (Z.eqb_spec b a).
  - destruct (Z.leb_spec (vsize (parent s')) b); [unfold in_range in Hb'; lia|].
    rewrite Hpb'. by destruct (Z.eqb_spec a b).
  - destruct (Z.leb_spec (vsize (parent s')) a); [unfold in_range in Ha'; lia|].
    rewrite Hpa'. destruct (Z.eqb_spec b a); [done|]. by rewrite IHb.
  - destruct (Z.leb_spec (vsize (parent s')) b); [unfold in_range in Hb'; lia|].
    rewrite Hpb'. destruct (Z.eqb_spec a b); [done|]. by rewrite IHa.
Qed.

(** ** Unions in a row *)

Lemma chain_up_to_union fuel N k s :
  0 <= k -> k + 1 < N -> chain_up_to N k s ->
  exists s', unionSet fuel s k (k + 1) = Returned tt s' /\
             chain_up_to N (k + 1) s'.
Proof.
  intros Hk HkN (Hpa & Hrk & Hrd).
  assert (Hroot : forall i, k <= i < N -> findSet fuel s i = Returned i s).
  { intros i Hi. rewrite findSet_unfold, Hpa.
    destruct (Z.leb_spec N i); [lia|]. destruct (Hrd i) as [-> _]; [lia|].
    destruct (Z.ltb_spec i k); [lia|]. by rewrite Z.eqb_refl. }
  unfold unionSet. rewrite !Hroot by lia.
  destruct (Z.eqb_spec k (k + 1)); [lia|].
  assert (Hrk0 : rd (rank s) k = 0).
  { destruct (Hrd k) as [_ ->]; [lia|]. by destruct (Z.ltb_spec k k); [lia|]. }
  assert (Hrk1 : rd (rank s) (k + 1) = 0).
  { destruct (Hrd (k + 1)) as [_ ->]; [lia|].
    by destruct (Z.ltb_spec (k + 1) k); [lia|]. }
  rewrite Hrk0, Hrk1. cbn [Z.ltb Z.compare Z.eqb].
  eexists. split; [reflexivity|].
  split_and!; unfold vsize in *; cbn [rank parent];
    rewrite ?Hrk0, ?Hrk1; cbn [Z.eqb].
  - by rewrite length_wr.
  - by rewrite length_wr.
  - intros i Hi. destruct (Hrd i Hi) as [Hp Hr].
    destruct (decide (i = k)) as [->|Hne].
    + rewrite !rd_wr_eq by lia. by destruct (Z.ltb_spec k (k + 1)); [|lia].
    + rewrite !rd_wr_ne by lia. rewrite Hp, Hr.
      destruct (Z.ltb_spec i k), (Z.ltb_spec i (k + 1)); try lia; done.
Qed.

Lemma chain_up_to_depth N k s :
  chain_up_to N k s -> k < N ->
  forall fuel i, 0 <= i -> (Z.of_nat fuel < k - i) -> findSet fuel s i = NoFuel.
Proof.
  intros (Hpa & Hrk & Hrd) HkN.
  induction fuel as [|fuel IH]; intros i Hi Hfuel; rewrite findSet_unfold, Hpa;
    (destruct (Z.leb_spec N i); [lia|]);
    (destruct (Hrd i) as [-> _]; [lia|]);
    (destruct (Z.ltb_spec i k); [|lia]);
    (destruct (Z.eqb_spec (i + 1) i); [lia|]); [done|].
  rewrite IH; [done|lia|lia].
Qed.

Lemma chain_up_to_root N k s :
  chain_up_to N k s -> 0 <= k < N ->
  closed s /\
  forall i (d : nat), 0 <= i -> i + Z.of_nat d = k -> find_root s d i = Some k.
Proof.
  intros (Hpa & Hrk & Hrd) HkN. split.
  - intros i Hi. unfold in_range in *. rewrite Hpa in *.
    destruct (Hrd i Hi) as [-> _]. destruct (Z.ltb_spec i k); lia.
  - intros i d. revert i. induction d as [|d IH]; intros i Hi Hd.
    + assert (i = k) as -> by lia. apply find_root_of_root.
      destruct (Hrd k) as [-> _]; [lia|]. by destruct (Z.ltb_spec k k); [lia|].
    + assert (Hp : rd (parent s) i = i + 1).
      { destruct (Hrd i) as [-> _]; [lia|]. by destruct (Z.ltb_spec i k); [|lia]. }
      rewrite find_root_step by lia. rewrite Hp. apply IH; lia.
Qed.

(** X24. Because unionSet never meets a root whose rank differs from 0,
    unions do not keep the trees low:
    after unionSet(0,1), unionSet(1,2), ..., unionSet(k-1,k) on [N]
    preallocated sets, the ids 0..k form one chain of parents, and
    findSet(0) needs a recursion of depth exactly [k]: it returns [k] with
    that depth and runs out with any smaller one. The unions themselves
    need no recursion at all. *)
Theorem unions_in_a_row_make_a_chain fuel N (k : nat) :
  0 <= N < 2 ^ 32 -> Z.of_nat k < N ->
  exists s,
    unions_in_a_row fuel (with_sets N) k = Returned tt s /\
    vsize (parent s) = N /\
    (forall i, 0 <= i < Z.of_nat k -> rd (parent s) i = i + 1) /\
    (forall i, Z.of_nat k <= i < N -> rd (parent s) i = i) /\
    (forall d, (d < k)%nat -> findSet d s 0 = NoFuel) /\
    exists s', findSet k s 0 = Returned (Z.of_nat k) s'.
Proof.
  intros HN Hk.
  assert (Hchain : exists s, unions_in_a_row fuel (with_sets N) k = Returned tt s /\
                             chain_up_to N (Z.of_nat k) s).
  { induction k as [|k IH].
    - exists (with_sets N). split; [done|].
      destruct (with_sets_spec N HN) as (Hrk & Hpa & Hrd).
      split; [unfold vsize; lia|]. split; [unfold vsize; lia|]. intros i Hi.
      destruct (Hrd i Hi) as [-> ->]. by destruct (Z.ltb_spec i (Z.of_nat 0)); [lia|].
    - destruct IH as (s & Hs & Hc); [lia|].
      destruct (chain_up_to_union fuel N (Z.of_nat k) s) as (s' & Hs' & Hc');
        [lia|lia|done|].
      exists s'. cbn [unions_in_a_row]. rewrite Hs. split; [done|].
      by replace (Z.of_nat (S k)) with (Z.of_nat k + 1) by lia. }
  destruct Hchain as (s & Hs & Hc).
  pose proof Hc as (Hpa & Hrk & Hrd).
  exists s. split_and!; [done|done| | | |].
  - intros i Hi. destruct (Hrd i) as [-> _]; [lia|].
    by destruct (Z.ltb_spec i (Z.of_nat k)); [|lia].
  - intros i Hi. destruct (Hrd i) as [-> _]; [lia|].
    by destruct (Z.ltb_spec i (Z.of_nat k)); [lia|].
  - intros d Hd. apply (chain_up_to_depth N (Z.of_nat k) s Hc); lia.
  - destruct (chain_up_to_root N (Z.of_nat k) s Hc) as [Hcl Hroot]; [lia|].
    destruct (findSet_spec s k 0 (Z.of_nat k) Hcl) as (s' & Hs' & _).
    + unfold in_range. lia.
    + apply Hroot; lia.
    + by exists s'.
Qed.

(** ** The theorems at [forest] *)

Example forest_is_built_by_unions :
  exists s1,
    unionSet 3 (with_sets 4) 2 1 = Returned tt s1 /\
    unionSet 3 s1 1 0 = Returned tt forest.
Proof. eexists. split; reflexivity. Qed.

Lemma findSet_returns_the_representative_witness :
  wf forest = true /\ in_range forest 2 /\
  (length (parent forest) - 1 <= 3)%nat /\
  exists r s',
    findSet 3 forest 2 = Returned r s' /\
    rep forest 2 = Some r /\ in_range forest r /\ rd (parent forest) r = r /\
    wf s' = true /\ rank s' = rank forest /\
    vsize (parent s') = vsize (parent forest) /\
    forall x, in_range forest x -> rep s' x = rep forest x.
Proof.
  split_and!; [reflexivity|vm_compute; by split|simpl; lia|].
  apply findSet_returns_the_representative;
    [reflexivity|vm_compute; by split|simpl; lia].
Defined.



Lemma unionSet_merges_the_two_sets_witness :
  wf forest = true /\ in_range forest 2 /\ in_range forest 3 /\
  (length (parent forest) - 1 <= 3)%nat /\
  exists s',
    unionSet 3 forest 2 3 = Returned tt s' /\ wf s' = true /\
    vsize (parent s') = vsize (parent forest) /\
    rep s' 2 = rep s' 3 /\
    (rep s' 2 = rep forest 2 \/ rep s' 2 = rep forest 3) /\
    forall x y, in_range forest x -> in_range forest y ->
      (rep s' x = rep s' y <->
       rep forest x = rep forest y \/
       ((rep forest x = rep forest 2 \/ rep forest x = rep forest 3) /\
        (rep forest y = rep forest 2 \/ rep forest y = rep forest 3))).
Proof.
  split_and!; [reflexivity|vm_compute; by split|vm_compute; by split|simpl; lia|].
  apply unionSet_merges_the_two_sets;
    [reflexivity|vm_compute; by split|vm_compute; by split|simpl; lia].
Defined.

Lemma unionSet_attaches_a_under_b_witness :
  wf forest = true /\ roots_unranked forest = true /\
  in_range forest 2 /\ in_range forest 3 /\
  (length (parent forest) - 1 <= 3)%nat /\
  exists s',
    unionSet 3 forest 2 3 = Returned tt s' /\
    wf s' = true /\ roots_unranked s' = true /\
    forall z, in_range forest z ->
      rep s' z = if decide (rep forest z = rep forest 2)
                 then rep forest 3 else rep forest z.
Proof.
  split_and!;
    [reflexivity|reflexivity|vm_compute; by split|vm_compute; by split|simpl; lia|].
  apply unionSet_attaches_a_under_b;
    [reflexivity|reflexivity|vm_compute; by split|vm_compute; by split|simpl; lia].
Defined.

Lemma sameSet_compares_representatives_witness :
  wf forest = true /\ in_range forest 2 /\ in_range forest 0 /\
  (length (parent forest) - 1 <= 3)%nat /\
  exists s',
    sameSet 3 forest 2 0
    = Returned (bool_decide (rep forest 2 = rep forest 0)) s' /\
    wf s' = true /\ rank s' = rank forest /\
    vsize (parent s') = vsize (parent forest) /\
    forall x, in_range forest x -> rep s' x = rep forest x.
Proof.
  split_and!; [reflexivity|vm_compute; by split|vm_compute; by split|simpl; lia|].
  apply sameSet_compares_representatives;
    [reflexivity|vm_compute; by split|vm_compute; by split|simpl; lia].
Defined.

Lemma makeSet_adds_singletons_witness :
  wf forest = true /\ 0 <= 6 < 2 ^ 32 - 1 /\
  wf (makeSet forest 6) = true /\
  vsize (parent (makeSet forest 6)) = Z.max (vsize (parent forest)) (6 + 1) /\
  maxElement (makeSet forest 6) = Z.max (vsize (parent forest) - 1) 6 /\
  (6 < vsize (parent forest) -> makeSet forest 6 = forest) /\
  (forall x, in_range forest x ->
     rep (makeSet forest 6) x = rep forest x /\
     rd (parent (makeSet forest 6)) x = rd (parent forest) x /\
     rd (rank (makeSet forest 6)) x = rd (rank forest) x) /\
  (forall x, vsize (parent forest) <= x <= 6 ->
     rep (makeSet forest 6) x = Some x /\ rd (rank (makeSet forest 6)) x = 0) /\
  (roots_unranked forest = true -> roots_unranked (makeSet forest 6) = true).
Proof.
  split; [reflexivity|]. split; [lia|].
  apply makeSet_adds_singletons; [reflexivity|lia].
Defined.

Lemma makeSet_of_the_largest_id_empties_witness :
  vsize (rank forest) <= 2 ^ 32 - 1 /\
  makeSet forest (2 ^ 32 - 1) = no_sets /\
  maxElement (makeSet forest (2 ^ 32 - 1)) = 2 ^ 32 - 1 /\
  forall fuel n, 0 <= n ->
    findSet fuel (makeSet forest (2 ^ 32 - 1)) n = Thrown no_sets.
Proof.
  split; [vm_compute; discriminate|].
  apply makeSet_of_the_largest_id_empties. vm_compute; discriminate.
Defined.

Lemma with_sets_are_singletons_witness :
  0 <= 3 < 2 ^ 32 /\
  wf (with_sets 3) = true /\ roots_unranked (with_sets 3) = true /\
  vsize (parent (with_sets 3)) = 3 /\
  (0 < 3 -> maxElement (with_sets 3) = 3 - 1) /\
  (forall fuel i, 0 <= i < 3 ->
     rep (with_sets 3) i = Some i /\
     findSet fuel (with_sets 3) i = Returned i (with_sets 3)) /\
  (forall fuel i j, 0 <= i < 3 -> 0 <= j < 3 ->
     sameSet fuel (with_sets 3) i j = Returned (i =? j) (with_sets 3)) /\
  (forall fuel i, 3 <= i -> findSet fuel (with_sets 3) i = Thrown (with_sets 3)).
Proof.
  split; [lia|]. apply with_sets_are_singletons. lia.
Defined.

Lemma mergeAintoB_moves_the_set_of_a_witness :
  wf forest = true /\ 0 <= 3 < 2 ^ 32 - 1 /\ 0 <= 2 < 2 ^ 32 - 1 /\
  rd (parent (makeSet (makeSet forest 3) 2)) 3 = 3 /\
  rep (makeSet (makeSet forest 3) 2) 2 = Some 0 /\ 0 <> 3 /\
  wf (mergeAintoB forest 3 2) = true /\
  vsize (parent (mergeAintoB forest 3 2))
  = Z.max (vsize (parent forest)) (Z.max (3 + 1) (2 + 1)) /\
  rd (parent (mergeAintoB forest 3 2)) 3 = 2 /\
  forall z r0, in_range (makeSet (makeSet forest 3) 2) z ->
    rep (makeSet (makeSet forest 3) 2) z = Some r0 ->
    rep (mergeAintoB forest 3 2) z = Some (if decide (r0 = 3) then 0 else r0).
Proof.
  split; [reflexivity|]. split; [lia|]. split; [lia|].
  split; [reflexivity|]. split; [reflexivity|]. split; [lia|].
  apply (mergeAintoB_moves_the_set_of_a forest 3 2 0);
    [reflexivity|lia|lia|reflexivity|reflexivity|lia].
Defined.

Lemma mergeAintoB_both_ways_never_ends_witness :
  length (rank forest) = length (parent forest) /\
  0 <= 1 < 2 ^ 32 - 1 /\ 0 <= 3 < 2 ^ 32 - 1 /\ 1 <> 3 /\
  let s' := mergeAintoB (mergeAintoB forest 1 3) 3 1 in
  rd (parent s') 1 = 3 /\ rd (parent s') 3 = 1 /\
  forall fuel, findSet fuel s' 1 = NoFuel /\ findSet fuel s' 3 = NoFuel.
Proof.
  split; [reflexivity|]. split; [lia|]. split; [lia|]. split; [lia|].
  apply mergeAintoB_both_ways_never_ends; [reflexivity|lia|lia|lia].
Defined.

Lemma unions_in_a_row_make_a_chain_witness :
  0 <= 5 < 2 ^ 32 /\ Z.of_nat 4 < 5 /\
  exists s,
    unions_in_a_row 0 (with_sets 5) 4 = Returned tt s /\
    vsize (parent s) = 5 /\
    (forall i, 0 <= i < Z.of_nat 4 -> rd (parent s) i = i + 1) /\
    (forall i, Z.of_nat 4 <= i < 5 -> rd (parent s) i = i) /\
    (forall d, (d < 4)%nat -> findSet d s 0 = NoFuel) /\
    exists s', findSet 4 s 0 = Returned (Z.of_nat 4) s'.
Proof.
  split; [lia|]. split; [simpl; lia|].
  apply unions_in_a_row_make_a_chain; [lia|simpl; lia].
Defined.

End DisjointDenseIntSetFacts.

(** * Bucket fill and perimeter: properties *)

Module TerrainFacts.
Import Terrain.

Lemma distinct_cells_bound (L : list Z) (n : Z) :
  NoDup L -> (forall x, x ∈ L -> 0 <= x < n) -> (length L <= Z.to_nat n)%nat.
Proof.
  intros Hnd Hin.
  assert (Hsub : L ⊆+ seqZ 0 n).
  { apply NoDup_submseteq; [done|]. intros x Hx. apply elem_of_seqZ.
    specialize (Hin x Hx). lia. }
  apply submseteq_length in Hsub. by rewrite length_seqZ in Hsub.
Qed.

Lemma inGrid_range a x y :
  inGrid a x y = true -> 0 <= xyToI a x y < size a.
Proof. unfold inGrid, xyToI, size. intros H. nia. Qed.

Lemma push_neighbours_over topo check set_data cv sv cx cy (L stack : list Z) x :
  x ∈ foldl (fun seeds n =>
               if negb (inGrid check (cx + dx topo n) (cy + dy topo n))
               then seeds
               else
                 let ni := xyToI check (cx + dx topo n) (cy + dy topo n) in
                 if (at_i check ni =? cv) && negb (rd set_data ni =? sv)
                 then ni :: seeds
                 else seeds) stack L
  <-> x ∈ stack \/
      exists n, n ∈ L /\ inGrid check (cx + dx topo n) (cy + dy topo n) = true /\
                x = xyToI check (cx + dx topo n) (cy + dy topo n) /\
                at_i check x = cv /\ rd set_data x <> sv.
Proof.
  revert stack. induction L as [|n L IH]; intros stack; cbn [foldl].
  - split; [auto|]. intros [?|(n & Hn & _)]; [done|]. by apply elem_of_nil in Hn.
  - rewrite IH. clear IH.
    destruct (inGrid check (cx + dx topo n) (cy + dy topo n)) eqn:Hg; cbn [negb].
    + cbv zeta.
      destruct (Z.eqb_spec (at_i check (xyToI check (cx + dx topo n) (cy + dy topo n))) cv)
        as [Hc|Hc];
        destruct (Z.eqb_spec (rd set_data (xyToI check (cx + dx topo n) (cy + dy topo n))) sv)
        as [Hs|Hs]; cbn [andb negb].
      * split.
        -- intros [?|(m & Hm & ?)]; [by left|right]. exists m. split; [by right|done].
        -- intros [?|(m & [->|Hm]%elem_of_cons & Hg' & -> & Hc' & Hs')];
             [by left|done|right]. by exists m.
      * split.
        -- intros [[->|?]%elem_of_cons|(m & Hm & ?)].
           ++ right. exists n. split; [by left|done].
           ++ by left.
           ++ right. exists m. split; [by right|done].
        -- intros [?|(m & [->|Hm]%elem_of_cons & Hg' & -> & Hc' & Hs')].
           ++ left. by right.
           ++ left. by left.
           ++ right. by exists m.
      * split.
        -- intros [?|(m & Hm & ?)]; [by left|right]. exists m. split; [by right|done].
        -- intros [?|(m & [->|Hm]%elem_of_cons & Hg' & -> & Hc' & Hs')];
             [by left|done|right]. by exists m.
      * split.
        -- intros [?|(m & Hm & ?)]; [by left|right]. exists m. split; [by right|done].
        -- intros [?|(m & [->|Hm]%elem_of_cons & Hg' & -> & Hc' & Hs')];
             [by left|done|right]. by exists m.
    + split.
      * intros [?|(m & Hm & ?)]; [by left|right]. exists m. split; [by right|done].
      * intros [?|(m & [->|Hm]%elem_of_cons & Hg' & ?)];
          [by left|congruence|right]. by exists m.
Qed.

Lemma push_neighbours_spec topo check set_data cv sv cx cy stack x :
  x ∈ push_neighbours topo check set_data cv sv cx cy stack
  <-> x ∈ stack \/
      exists n, 1 <= n <= nmax topo /\
                inGrid check (cx + dx topo n) (cy + dy topo n) = true /\
                x = xyToI check (cx + dx topo n) (cy + dy topo n) /\
                at_i check x = cv /\ rd set_data x <> sv.
Proof.
  unfold push_neighbours. rewrite push_neighbours_over.
  split; (intros [?|(n & Hn & ?)]; [by left|right]); exists n;
    (split; [|done]).
  - apply elem_of_seqZ in Hn. lia.
  - apply elem_of_seqZ. lia.
Qed.

Lemma push_neighbours_length topo check set_data cv sv cx cy stack :
  (length (push_neighbours topo check set_data cv sv cx cy stack)
   <= length stack + Z.to_nat (nmax topo))%nat.
Proof.
  unfold push_neighbours.
  rewrite <- (length_seqZ 1 (nmax topo)).
  generalize (seqZ 1 (nmax topo)). intros L. revert stack.
  induction L as [|n L IH]; intros stack; cbn [foldl length]; [lia|].
  etransitivity; [apply IH|].
  destruct (negb _); [lia|]. cbv zeta. destruct (_ && _); cbn [length]; lia.
Qed.

Section Fill.
Variables (topo : Topology) (check : Array2D) (set0 : list Z) (cv sv : Z).
Variable seeds : list Z.
Hypothesis Hlen0 : Z.of_nat (length set0) = size check.

Lemma connected_paintable c :
  connected topo check set0 cv sv seeds c -> paintable check set0 cv sv c.
Proof. by destruct 1. Qed.

Lemma fill_inv_initial : fill_inv topo check set0 cv sv seeds set0 (reverse seeds).
Proof.
  split_and!.
  - done.
  - intros i _. by left.
  - intros c Hc Hp. apply connected_seed; [|done]. by apply elem_of_reverse.
  - intros p n Hp Hsv. apply connected_paintable in Hp as (_ & _ & Hne). done.
  - intros c Hc _ _. right. by apply elem_of_reverse.
Qed.

Lemma fill_inv_skip set_data c rest :
  fill_inv topo check set0 cv sv seeds set_data (c :: rest) ->
  at_i check c <> cv \/ rd set_data c = sv ->
  fill_inv topo check set0 cv sv seeds set_data rest.
Proof.
  intros (Hlen & Hframe & Hstack & Hclosed & Hseeds) Hskip.
  split_and!; [done|done| | |].
  - intros x Hx. apply Hstack. by right.
  - intros p n Hp Hsv Hn Hg Hc.
    destruct (Hclosed p n Hp Hsv Hn Hg Hc) as [?|[E|?]%elem_of_cons]; auto.
    left. rewrite E in *. by destruct Hskip.
  - intros x Hx Hr Hc.
    destruct (Hseeds x Hx Hr Hc) as [?|[E|?]%elem_of_cons]; auto.
    left. rewrite E in *. by destruct Hskip.
Qed.

Lemma fill_inv_paint set_data c rest :
  fill_inv topo check set0 cv sv seeds set_data (c :: rest) ->
  0 <= c < size check -> at_i check c = cv -> rd set_data c <> sv ->
  fill_inv topo check set0 cv sv seeds (wr set_data c sv)
           (push_neighbours topo check (wr set_data c sv) cv sv
                            (iToxy check c).1 (iToxy check c).2 rest).
Proof.
  intros (Hlen & Hframe & Hstack & Hclosed & Hseeds) Hc Hcv Hsv.
  assert (Hcl : 0 <= c < Z.of_nat (length set_data)) by (rewrite Hlen; lia).
  assert (Hrd : forall i, 0 <= i -> rd set_data i = sv -> rd (wr set_data c sv) i = sv).
  { intros i Hi Hs. destruct (decide (i = c)) as [->|Hne].
    - by rewrite rd_wr_eq.
    - rewrite rd_wr_ne; [done|lia|lia|congruence]. }
  assert (Hcp : paintable check set0 cv sv c).
  { split; [done|]. split; [done|]. destruct (Hframe c Hc) as [<-|[? _]]; done. }
  assert (Hcc : connected topo check set0 cv sv seeds c).
  { apply Hstack; [by left|done]. }
  split_and!.
  - by rewrite length_wr.
  - intros i Hi. destruct (decide (i = c)) as [->|Hne].
    + right. by rewrite rd_wr_eq.
    + rewrite rd_wr_ne; [by apply Hframe|lia|lia|congruence].
  - intros x Hx Hp. apply push_neighbours_spec in Hx
      as [Hx|(n & Hn & Hg & -> & _)].
    + apply Hstack; [by right|done].
    + by apply (connected_step _ _ _ _ _ _ c n).
  - intros p n Hp Hs Hn Hg Hcn.
    pose proof (inGrid_range _ _ _ Hg) as Hnr. fold (neighbour topo check p n) in Hnr.
    destruct (Z.eq_dec (rd (wr set_data c sv) (neighbour topo check p n)) sv)
      as [?|Hns]; [by left|right].
    apply push_neighbours_spec.
    destruct (decide (p = c)) as [->|Hpc].
    + right. exists n. split; [done|]. split; [exact Hg|]. by split.
    + left. rewrite rd_wr_ne in Hs;
        [|lia|apply connected_paintable in Hp as (? & _); lia|congruence].
      destruct (Hclosed p n Hp Hs Hn Hg Hcn) as [Hold|[E|?]%elem_of_cons]; [| |done].
      * destruct Hns. apply Hrd; [lia|done].
      * destruct Hns. rewrite E. by rewrite rd_wr_eq.
  - intros x Hx Hr Hxc.
    destruct (Z.eq_dec (rd (wr set_data c sv) x) sv) as [?|Hns]; [by left|right].
    apply push_neighbours_spec. left.
    destruct (Hseeds x Hx Hr Hxc) as [Hold|[E|?]%elem_of_cons]; [| |done].
    + destruct Hns. apply Hrd; [lia|done].
    + destruct Hns. rewrite E. by rewrite rd_wr_eq.
Qed.

Lemma fill_spec fuel :
  forall set_data stack painted,
    fill_inv topo check set0 cv sv seeds set_data stack ->
    NoDup painted ->
    (forall p, p ∈ painted -> 0 <= p < size check /\ rd set_data p = sv) ->
    (length stack
     + (Z.to_nat (nmax topo) + 1) * (Z.to_nat (size check) - length painted)
     <= fuel)%nat ->
    (fill fuel topo check set_data cv sv stack = OutOfRange /\
     exists c, c ∈ stack /\ ~ 0 <= c < size check) \/
    (exists set', fill fuel topo check set_data cv sv stack = Filled set' /\
                  fill_inv topo check set0 cv sv seeds set' [] /\
                  forall c, c ∈ stack -> 0 <= c < size check).
Proof.
  induction fuel as [|fuel IH]; intros set_data stack painted Hinv Hnd Hpainted Hfuel.
  - destruct stack as [|c rest]; [|].
    2:{ cbn [length] in Hfuel. revert Hfuel.
        generalize ((Z.to_nat (nmax topo) + 1)
                    * (Z.to_nat (size check) - length painted))%nat. lia. }
    right. exists set_data. split_and!; [done|done|]. intros c Hc.
    by apply elem_of_nil in Hc.
  - destruct stack as [|c rest].
    { right. exists set_data. split_and!; [done|done|]. intros c Hc.
      by apply elem_of_nil in Hc. }
    cbn [fill].
    destruct (Z.leb_spec 0 c) as [Hc0|Hc0]; cbn [andb negb];
      [destruct (Z.ltb_spec c (size check)) as [Hc1|Hc1]; cbn [negb]|].
    2:{ left. split; [done|]. exists c. split; [by left|lia]. }
    2:{ left. split; [done|]. exists c. split; [by left|lia]. }
    assert (Hc : 0 <= c < size check) by lia.
    cbn [length] in Hfuel.
    assert (Hfuel' : (length rest
                      + (Z.to_nat (nmax topo) + 1)
                        * (Z.to_nat (size check) - length painted) <= fuel)%nat).
    { revert Hfuel. generalize ((Z.to_nat (nmax topo) + 1)
                        * (Z.to_nat (size check) - length painted))%nat. lia. }
    destruct (Z.eqb_spec (at_i check c) cv) as [Hcv|Hcv]; cbn [negb orb];
      [destruct (Z.eqb_spec (rd set_data c) sv) as [Hsv|Hsv]|].
    + destruct (IH set_data rest painted) as [(E & b & Hb & Hbr)|(s' & E & Hi & Hr)];
        [eapply fill_inv_skip; eauto|done|done|done| |].
      * left. split; [done|]. exists b. split; [by right|done].
      * right. exists s'. split_and!; [done|done|].
        intros x [->|?]%elem_of_cons; auto.
    + destruct (iToxy check c) as [cx cy] eqn:Exy.
      pose proof (fill_inv_paint set_data c rest Hinv Hc Hcv Hsv) as Hinv'.
      rewrite Exy in Hinv'. cbn [fst snd] in Hinv'.
      destruct Hinv as (Hlen & _).
      assert (Hcl : 0 <= c < Z.of_nat (length set_data)) by (rewrite Hlen; lia).
      assert (Hnd' : NoDup (c :: painted)).
      { apply NoDup_cons. split; [|done]. intros Hin.
        by destruct (Hpainted c Hin) as [_ ?]. }
      assert (Hbound : (length (c :: painted) <= Z.to_nat (size check))%nat).
      { apply distinct_cells_bound; [done|].
        intros x [->|Hx]%elem_of_cons; [done|]. by apply Hpainted. }
      cbn [length] in Hbound.
      pose proof (push_neighbours_length topo check (wr set_data c sv) cv sv
                    cx cy rest) as Hpush.
      destruct (IH (wr set_data c sv)
                   (push_neighbours topo check (wr set_data c sv) cv sv cx cy rest)
                   (c :: painted))
        as [(E & b & Hb & Hbr)|(s' & E & Hi & Hr)]; [done|done| | | |].
      * intros p [->|Hp]%elem_of_cons.
        -- split; [done|]. by rewrite rd_wr_eq.
        -- destruct (Hpainted p Hp) as [Hpr Hps]. split; [done|].
           destruct (decide (p = c)) as [->|Hne]; [by rewrite rd_wr_eq|].
           rewrite rd_wr_ne; [done|lia|lia|congruence].
      * cbn [length].
        replace (Z.to_nat (size check) - length painted)%nat
          with (S (Z.to_nat (size check) - S (length painted))) in Hfuel by lia.
        rewrite Nat.mul_succ_r in Hfuel. revert Hfuel Hpush.
        generalize ((Z.to_nat (nmax topo) + 1)
                    * (Z.to_nat (size check) - S (length painted)))%nat. lia.
      * left. split; [done|]. exists b. split; [|done].
        apply push_neighbours_spec in Hb as [?|(n & _ & Hg & -> & _)]; [by right|].
        destruct Hbr. by apply inGrid_range.
      * right. exists s'. split_and!; [done|done|].
        intros x [->|Hx]%elem_of_cons; [done|]. apply Hr.
        apply push_neighbours_spec. by left.
    + destruct (IH set_data rest painted) as [(E & b & Hb & Hbr)|(s' & E & Hi & Hr)];
        [eapply fill_inv_skip; eauto|done|done|done| |].
      * left. split; [done|]. exists b. split; [by right|done].
      * right. exists s'. split_and!; [done|done|].
        intros x [->|?]%elem_of_cons; auto.
Qed.

Lemma fill_inv_final set' :
  fill_inv topo check set0 cv sv seeds set' [] ->
  Z.of_nat (length set') = size check /\
  forall i, 0 <= i < size check ->
    (connected topo check set0 cv sv seeds i -> rd set' i = sv) /\
    (~ connected topo check set0 cv sv seeds i -> rd set' i = rd set0 i).
Proof.
  intros (Hlen & Hframe & Hstack & Hclosed & Hseeds).
  split; [by rewrite Hlen|].
  assert (Hconn : forall i, connected topo check set0 cv sv seeds i -> rd set' i = sv).
  { induction 1 as [c Hc (Hr & Hcv & _)|p n Hp IH Hn Hg (Hr & Hcv & _)].
    - destruct (Hseeds c Hc Hr Hcv) as [?|Hin]; [done|]. by apply elem_of_nil in Hin.
    - destruct (Hclosed p n Hp IH Hn Hg Hcv) as [?|Hin]; [done|].
      by apply elem_of_nil in Hin. }
  intros i Hi. split; [apply Hconn|].
  intros Hnc. destruct (Hframe i Hi) as [?|[_ ?]]; done.
Qed.

Lemma fill_run fuel :
  (fill_fuel topo check seeds <= fuel)%nat ->
  (fill fuel topo check set0 cv sv (reverse seeds) = OutOfRange /\
   exists c, c ∈ seeds /\ ~ 0 <= c < size check) \/
  (exists set', fill fuel topo check set0 cv sv (reverse seeds) = Filled set' /\
                fill_inv topo check set0 cv sv seeds set' [] /\
                forall c, c ∈ seeds -> 0 <= c < size check).
Proof.
  intros Hfuel. unfold fill_fuel in Hfuel.
  destruct (fill_spec fuel set0 (reverse seeds) [] fill_inv_initial)
    as [(E & b & Hb & Hbr)|(s' & E & Hi & Hr)].
  - apply NoDup_nil_2.
  - intros p Hp. by apply elem_of_nil in Hp.
  - rewrite length_reverse. cbn [length]. lia.
  - left. split; [done|]. exists b. split; [|done]. by apply elem_of_reverse.
  - right. exists s'. split_and!; [done|done|]. intros c Hc. apply Hr.
    by apply elem_of_reverse.
Qed.

End Fill.

(** A stack whose cells are all skipped is popped without a write. *)
Lemma fill_skips topo check cv sv set_data stack :
  (forall c, c ∈ stack ->
     0 <= c < size check /\ (at_i check c <> cv \/ rd set_data c = sv)) ->
  forall fuel, (length stack <= fuel)%nat ->
    fill fuel topo check set_data cv sv stack = Filled set_data.
Proof.
  induction stack as [|c rest IH]; intros Hall fuel Hfuel.
  - by destruct fuel.
  - destruct fuel as [|fuel]; [cbn [length] in Hfuel; lia|]. cbn [fill].
    destruct (Hall c) as [Hc Hskip]; [by left|].
    destruct (Z.leb_spec 0 c); [|lia]. destruct (Z.ltb_spec c (size check)); [|lia].
    cbn [andb negb].
    assert (negb (at_i check c =? cv) || (rd set_data c =? sv) = true) as ->.
    { destruct Hskip as [Hne|He].
      - by destruct (Z.eqb_spec (at_i check c) cv).
      - rewrite He, Z.eqb_refl. apply orb_true_r. }
    apply IH; [|cbn [length] in Hfuel; lia].
    intros x Hx. apply Hall. by right.
Qed.


Lemma raster_ok_elim a :
  raster_ok a = true ->
  0 <= width a /\ 0 <= height a /\ Z.of_nat (length (data a)) = size a.
Proof. unfold raster_ok. lia. Qed.

Lemma BucketFill_run fuel topo check set cv sv seeds :
  raster_ok check = true -> raster_ok set = true ->
  width check = width set -> height check = height set ->
  (fill_fuel topo check seeds <= fuel)%nat ->
  (BucketFill fuel topo check set cv sv seeds = OutOfRange /\
   exists c, c ∈ seeds /\ ~ 0 <= c < size check) \/
  (exists d, BucketFill fuel topo check set cv sv seeds = Filled d /\
             fill_inv topo check (data set) cv sv seeds d [] /\
             forall c, c ∈ seeds -> 0 <= c < size check).
Proof.
  intros Hc Hs Hw Hh Hfuel. unfold BucketFill.
  rewrite Hw, Hh, !Z.eqb_refl. cbn [negb orb].
  apply fill_run; [|done].
  destruct (raster_ok_elim _ Hs) as (_ & _ & ->). unfold size. by rewrite Hw, Hh.
Qed.

(** X15. BucketFill on two rasters of one shape, with seeds that are cells
    of the rasters, returns within |seeds| + (nmax+1)*size iterations, and
    sets to [set_value] exactly the cells joined to a seed by a path of
    neighbours whose cells all hold [check_value] in the check raster and
    did not hold [set_value] in the set raster; every other cell of the set
    raster keeps its value. *)
Theorem BucketFill_paints_what_is_connected fuel topo check set cv sv seeds :
  raster_ok check = true -> raster_ok set = true ->
  width check = width set -> height check = height set ->
  (forall c, c ∈ seeds -> 0 <= c < size check) ->
  (fill_fuel topo check seeds <= fuel)%nat ->
  exists d,
    BucketFill fuel topo check set cv sv seeds = Filled d /\
    length d = length (data set) /\
    forall i, 0 <= i < size check ->
      (connected topo check (data set) cv sv seeds i -> rd d i = sv) /\
      (~ connected topo check (data set) cv sv seeds i ->
       rd d i = rd (data set) i).
Proof.
  intros Hc Hs Hw Hh Hseeds Hfuel.
  destruct (BucketFill_run fuel topo check set cv sv seeds Hc Hs Hw Hh Hfuel)
    as [(_ & b & Hb & Hbad)|(d & E & Hinv & _)].
  { destruct Hbad. by apply Hseeds. }
  exists d. split; [done|].
  assert (Hlen : Z.of_nat (length (data set)) = size check).
  { destruct (raster_ok_elim _ Hs) as (_ & _ & ->). unfold size. by rewrite Hw, Hh. }
  split; [by destruct Hinv as (? & _)|].
  by apply (fill_inv_final topo check (data set) cv sv seeds Hlen d).
Qed.

(** X16. BucketFill is idempotent: a second call with the same rasters,
    values and seeds on the result of the first pops every seed without
    writing, within |seeds| iterations, and leaves the set raster as it
    is. *)
Theorem BucketFill_again_changes_nothing fuel topo check set cv sv seeds :
  raster_ok check = true -> raster_ok set = true ->
  width check = width set -> height check = height set ->
  (forall c, c ∈ seeds -> 0 <= c < size check) ->
  (fill_fuel topo check seeds <= fuel)%nat ->
  exists d,
    BucketFill fuel topo check set cv sv seeds = Filled d /\
    forall fuel', (length seeds <= fuel')%nat ->
      BucketFill fuel' topo check
                 (mkArray2D (width set) (height set) d (noData set))
                 cv sv seeds
      = Filled d.
Proof.
  intros Hc Hs Hw Hh Hseeds Hfuel.
  destruct (BucketFill_run fuel topo check set cv sv seeds Hc Hs Hw Hh Hfuel)
    as [(_ & b & Hb & Hbad)|(d & E & Hinv & _)].
  { destruct Hbad. by apply Hseeds. }
  exists d. split; [done|]. intros fuel' Hfuel'. unfold BucketFill.
  cbn [width height data]. rewrite Hw, Hh, !Z.eqb_refl. cbn [negb orb].
  apply fill_skips; [|by rewrite length_reverse].
  intros c Hin. rewrite elem_of_reverse in Hin. split; [by apply Hseeds|].
  destruct Hinv as (_ & _ & _ & _ & Hdone).
  destruct (Z.eq_dec (at_i check c) cv) as [Hcv|Hcv]; [right|by left].
  destruct (Hdone c Hin (Hseeds c Hin) Hcv) as [?|Hnil]; [done|].
  by apply elem_of_nil in Hnil.
Qed.


(** ** BucketFillFromEdges *)

Lemma iToxy_range a i :
  0 < width a -> 0 <= i < size a ->
  0 <= (iToxy a i).1 < width a /\ 0 <= (iToxy a i).2 < height a.
Proof.
  intros Hw Hi. unfold iToxy, size in *. cbn [fst snd].
  rewrite Z.rem_mod_nonneg, Z.quot_div_nonneg by lia.
  pose proof (Z.mod_pos_bound i (width a) Hw).
  split; [done|]. split; [apply Z.div_pos; lia|].
  apply Z.div_lt_upper_bound; [done|]. lia.
Qed.

Lemma elem_of_edge_seeds a c :
  0 < width a -> 0 < height a ->
  c ∈ edge_seeds a <->
  0 <= c < size a /\ isEdgeCell a (iToxy a c).1 (iToxy a c).2 = true.
Proof.
  intros Hw Hh. unfold edge_seeds.
  rewrite elem_of_app, !list_elem_of_bind. split.
  - intros [(y & Hc & Hy%elem_of_seqZ)|(x & Hc & Hx%elem_of_seqZ)].
    + apply elem_of_cons in Hc as [->|Hc]; [|apply list_elem_of_singleton in Hc as ->].
      * split; [unfold xyToI, size; nia|].
        rewrite iToxy_xyToI by lia. unfold isEdgeCell. cbn [fst snd].
        by rewrite Z.eqb_refl.
      * split; [unfold xyToI, size; nia|].
        rewrite iToxy_xyToI by lia. unfold isEdgeCell. cbn [fst snd].
        rewrite Z.eqb_refl. by rewrite orb_true_r, orb_true_l.
    + apply elem_of_cons in Hc as [->|Hc]; [|apply list_elem_of_singleton in Hc as ->].
      * split; [unfold xyToI, size; nia|].
        rewrite iToxy_xyToI by lia. unfold isEdgeCell. cbn [fst snd].
        rewrite Z.eqb_refl. by rewrite orb_true_r, orb_true_l.
      * split; [unfold xyToI, size; nia|].
        rewrite iToxy_xyToI by lia. unfold isEdgeCell. cbn [fst snd].
        rewrite Z.eqb_refl. by rewrite !orb_true_r.
  - intros [Hc Hedge].
    destruct (iToxy_range a c Hw Hc) as [Hx Hy].
    pose proof (xyToI_iToxy a c) as E.
    destruct (iToxy a c) as [x y]. cbn [fst snd] in *.
    unfold isEdgeCell in Hedge.
    destruct (Z.eq_dec x 0) as [Ex|Nx].
    { left. exists y. split; [rewrite <- E, Ex; by left|apply elem_of_seqZ; lia]. }
    destruct (Z.eq_dec y 0) as [Ey|Ny].
    { right. exists x. split; [rewrite <- E, Ey; by left|apply elem_of_seqZ; lia]. }
    destruct (Z.eq_dec x (width a - 1)) as [Ex|Nx'].
    { left. exists y.
      split; [rewrite <- E, Ex; right; by left|apply elem_of_seqZ; lia]. }
    destruct (Z.eq_dec y (height a - 1)) as [Ey|Ny'].
    { right. exists x.
      split; [rewrite <- E, Ey; right; by left|apply elem_of_seqZ; lia]. }
    exfalso. lia.
Qed.

(** X18. BucketFillFromEdges on two rasters of one shape with at least one
    row and one column: its seeds are exactly the cells on the edge of the
    raster, every seed is a cell, the call returns, and it sets to
    [set_value] exactly the cells joined to an edge cell by a path of
    neighbours whose cells all hold [check_value] and did not hold
    [set_value]; every other cell keeps its value. *)
Theorem BucketFillFromEdges_paints_from_the_edge fuel topo check set cv sv :
  raster_ok check = true -> raster_ok set = true ->
  width check = width set -> height check = height set ->
  0 < width check -> 0 < height check ->
  (fill_fuel topo check (edge_seeds check) <= fuel)%nat ->
  (forall c, c ∈ edge_seeds check <->
             0 <= c < size check /\
             isEdgeCell check (iToxy check c).1 (iToxy check c).2 = true) /\
  exists d,
    BucketFillFromEdges fuel topo check set cv sv = Filled d /\
    length d = length (data set) /\
    forall i, 0 <= i < size check ->
      (connected topo check (data set) cv sv (edge_seeds check) i ->
       rd d i = sv) /\
      (~ connected topo check (data set) cv sv (edge_seeds check) i ->
       rd d i = rd (data set) i).
Proof.
  intros Hc Hs Hw Hh Hw0 Hh0 Hfuel.
  split; [intros c; by apply elem_of_edge_seeds|].
  unfold BucketFillFromEdges.
  destruct (BucketFill_run fuel topo check set cv sv (edge_seeds check)
              Hc Hs Hw Hh Hfuel)
    as [(_ & b & Hb & Hbad)|(d & E & Hinv & _)].
  { destruct Hbad. by apply elem_of_edge_seeds in Hb as [? _]. }
  exists d. split; [done|].
  assert (Hlen : Z.of_nat (length (data set)) = size check).
  { destruct (raster_ok_elim _ Hs) as (_ & _ & ->). unfold size. by rewrite Hw, Hh. }
  split; [by destruct Hinv as (? & _)|].
  by apply (fill_inv_final topo check (data set) cv sv (edge_seeds check) Hlen d).
Qed.

(** ** Perimeter *)

Lemma to_uint32_succ z : to_uint32 (to_uint32 z + 1) = to_uint32 (z + 1).
Proof. unfold to_uint32. by rewrite Zplus_mod_idemp_l. Qed.

Lemma sumZ_list_filter (p : Z -> bool) (f : Z -> Z) (L : list Z) :
  sumZ (fun n => if p n then f n else 0) L = sumZ f (List.filter p L).
Proof.
  induction L as [|n L IH]; [done|]. cbn [List.filter].
  change (sumZ ?g (n :: L)) with (g n + sumZ g L). cbv beta.
  destruct (p n); [|lia].
  change (sumZ f (n :: List.filter p L)) with (f n + sumZ f (List.filter p L)). lia.
Qed.

Lemma sumZ_map (g : Z -> Z) (f : Z -> Z) (L : list Z) :
  sumZ f (map g L) = sumZ (fun n => f (g n)) L.
Proof.
  induction L as [|n L IH]; [done|]. cbn [map].
  change (sumZ ?h (?a :: ?l)) with (h a + sumZ h l). cbv beta. by rewrite IH.
Qed.

Lemma sumZ_const k (L : list Z) : sumZ (fun _ => k) L = k * Z.of_nat (length L).
Proof. induction L as [|x L IH]; cbn [sumZ foldr length]; [lia|]. fold (sumZ (fun _ => k) L). lia. Qed.

Lemma sumZ_at c k (n : Z) :
  0 <= c < n -> sumZ (fun x => if x =? c then k else 0) (seqZ 0 n) = k.
Proof.
  intros Hc.
  rewrite (sumZ_ext _ (fun x => if decide (x = c) then k else 0)).
  - rewrite sumZ_delta by apply NoDup_seqZ.
    rewrite decide_True; [done|]. apply elem_of_seqZ. lia.
  - intros x _. destruct (Z.eqb_spec x c), (decide (x = c)); done.
Qed.

Section PerimeterFacts.
Context `{K : Constants}.

Lemma cell_count_scan_spec arr x y ns v h c :
  cell_count_scan arr x y ns (counts v h c)
  = counts v h
           (c + if existsb (fun n => negb (inGrid arr (x + d8x n) (y + d8y n))) ns
                then 1 else 0).
Proof.
  induction ns as [|n ns IH]; cbn [cell_count_scan existsb].
  - by rewrite Z.add_0_r.
  - destruct (negb (inGrid arr (x + d8x n) (y + d8y n))); cbn [orb]; [|done].
    unfold counts. cbn [vertical_edges horizontal_edges cell_edges].
    by rewrite to_uint32_succ.
Qed.

Lemma square_edge_step_spec arr x y n v h c :
  square_edge_step arr x y (counts v h c) n
  = counts
      (v + if negb (d8x n =? 0) && (d8y n =? 0)
           then open_side arr (x + d8x n) (y + d8y n) else 0)
      (h + if d8x n =? 0
           then open_side arr (x + d8x n) (y + d8y n) else 0)
      c.
Proof.
  unfold square_edge_step, open_side.
  destruct (negb (inGrid arr (x + d8x n) (y + d8y n))
            || isNoData_xy arr (x + d8x n) (y + d8y n));
    destruct (d8x n =? 0); destruct (d8y n =? 0); cbn [negb andb];
    unfold counts; cbn [vertical_edges horizontal_edges cell_edges];
    rewrite ?to_uint32_succ, ?Z.add_0_r; done.
Qed.

Lemma square_edge_scan_over arr x y (ns : list Z) v h c :
  foldl (square_edge_step arr x y) (counts v h c) ns
  = counts
      (v + sumZ (fun n => if negb (d8x n =? 0) && (d8y n =? 0)
                          then open_side arr (x + d8x n) (y + d8y n) else 0) ns)
      (h + sumZ (fun n => if d8x n =? 0
                          then open_side arr (x + d8x n) (y + d8y n) else 0) ns)
      c.
Proof.
  revert v h. induction ns as [|n ns IH]; intros v h.
  - cbn. by rewrite !Z.add_0_r.
  - cbn [foldl]. rewrite square_edge_step_spec, IH.
    change (sumZ ?g (n :: ns)) with (g n + sumZ g ns). cbv beta.
    f_equal; lia.
Qed.

(** The contribution of the cell [(x, y)] to the three counters. *)
Lemma perimeter_cell_spec arr pt x y v h c :
  perimeter_cell arr pt x y (counts v h c)
  = match pt with
    | CELL_COUNT =>
        counts v h
          (c + if isNoData_xy arr x y then 0
               else if existsb (fun n => negb (inGrid arr (x + d8x n) (y + d8y n)))
                               (seqZ 1 8)
                    then 1 else 0)
    | SQUARE_EDGE =>
        counts
          (v + if isNoData_xy arr x y then 0
               else sumZ (fun n => if negb (d8x n =? 0) && (d8y n =? 0)
                                   then open_side arr (x + d8x n) (y + d8y n)
                                   else 0) (seqZ 1 8))
          (h + if isNoData_xy arr x y then 0
               else sumZ (fun n => if d8x n =? 0
                                   then open_side arr (x + d8x n) (y + d8y n)
                                   else 0) (seqZ 1 8))
          c
    end.
Proof.
  unfold perimeter_cell. destruct (isNoData_xy arr x y).
  - destruct pt; by rewrite ?Z.add_0_r.
  - destruct pt; [apply cell_count_scan_spec|apply square_edge_scan_over].
Qed.

Lemma fold_cells (step : Z -> Z -> edges -> edges) (fv fh fc : Z -> Z -> Z)
    (xs : list Z) :
  (forall x y v h c,
     step x y (counts v h c) = counts (v + fv x y) (h + fh x y) (c + fc x y)) ->
  forall ys v h c,
    foldl (fun e y => foldl (fun e x => step x y e) e xs) (counts v h c) ys
    = counts (v + sumZ (fun y => sumZ (fun x => fv x y) xs) ys)
             (h + sumZ (fun y => sumZ (fun x => fh x y) xs) ys)
             (c + sumZ (fun y => sumZ (fun x => fc x y) xs) ys).
Proof.
  intros Hstep.
  assert (Hrow : forall y (l : list Z) v h c,
             foldl (fun e x => step x y e) (counts v h c) l
             = counts (v + sumZ (fun x => fv x y) l)
                      (h + sumZ (fun x => fh x y) l)
                      (c + sumZ (fun x => fc x y) l)).
  { intros y. induction l as [|x l IH]; intros v h c.
    - cbn. by rewrite !Z.add_0_r.
    - cbn [foldl]. rewrite Hstep, IH.
      change (sumZ ?g (x :: l)) with (g x + sumZ g l). cbv beta.
      f_equal; lia. }
  induction ys as [|y ys IH]; intros v h c.
  - cbn. by rewrite !Z.add_0_r.
  - cbn [foldl]. rewrite Hrow, IH.
    change (sumZ ?g (y :: ys)) with (g y + sumZ g ys). cbv beta.
    f_equal; lia.
Qed.

Lemma Perimeter_cell_count_spec arr :
  Perimeter arr CELL_COUNT
  = counts 0 0
      (over_data_cells arr (fun x y =>
         if existsb (fun n => negb (inGrid arr (x + d8x n) (y + d8y n))) (seqZ 1 8)
         then 1 else 0)).
Proof.
  unfold Perimeter, over_data_cells.
  change (mkEdges 0 0 0) with (counts 0 0 0).
  rewrite (fold_cells (perimeter_cell arr CELL_COUNT)
             (fun _ _ => 0) (fun _ _ => 0)
             (fun x y => if isNoData_xy arr x y then 0
                         else if existsb (fun n => negb (inGrid arr (x + d8x n)
                                                                (y + d8y n)))
                                         (seqZ 1 8)
                              then 1 else 0)).
  - f_equal.
    + rewrite (sumZ_ext _ (fun _ => 0)); [by rewrite sumZ_zero|].
      intros y _. apply sumZ_zero.
    + rewrite (sumZ_ext _ (fun _ => 0)); [by rewrite sumZ_zero|].
      intros y _. apply sumZ_zero.
  - intros x y v h c. rewrite perimeter_cell_spec. by rewrite !Z.add_0_r.
Qed.

Lemma Perimeter_square_edge_spec arr :
  Perimeter arr SQUARE_EDGE
  = counts
      (over_data_cells arr (fun x y =>
         sumZ (fun n => if negb (d8x n =? 0) && (d8y n =? 0)
                        then open_side arr (x + d8x n) (y + d8y n) else 0)
              (seqZ 1 8)))
      (over_data_cells arr (fun x y =>
         sumZ (fun n => if d8x n =? 0
                        then open_side arr (x + d8x n) (y + d8y n) else 0)
              (seqZ 1 8)))
      0.
Proof.
  unfold Perimeter, over_data_cells.
  change (mkEdges 0 0 0) with (counts 0 0 0).
  rewrite (fold_cells (perimeter_cell arr SQUARE_EDGE)
             (fun x y => if isNoData_xy arr x y then 0
                         else sumZ (fun n => if negb (d8x n =? 0) && (d8y n =? 0)
                                             then open_side arr (x + d8x n) (y + d8y n)
                                             else 0) (seqZ 1 8))
             (fun x y => if isNoData_xy arr x y then 0
                         else sumZ (fun n => if d8x n =? 0
                                             then open_side arr (x + d8x n) (y + d8y n)
                                             else 0) (seqZ 1 8))
             (fun _ _ => 0)).
  - f_equal.
    rewrite (sumZ_ext _ (fun _ => 0)); [by rewrite sumZ_zero|].
    intros y _. apply sumZ_zero.
  - intros x y v h c. rewrite perimeter_cell_spec. by rewrite !Z.add_0_r.
Qed.

End PerimeterFacts.
Section PerimeterTables.
Context `{K : Constants}.
Hypothesis tables : table_ok = true.
Hypothesis square : table_square = true.

Lemma plus_minus_sum (l : list Z) (g : Z -> Z) :
  match l with
  | [a; b] => ((a =? -1) && (b =? 1)) || ((a =? 1) && (b =? -1))
  | _ => false
  end = true ->
  sumZ g l = g (-1) + g 1.
Proof.
  destruct l as [|a [|b [|? ?]]]; try done. intros H. cbn.
  assert ((a = -1 /\ b = 1) \/ (a = 1 /\ b = -1)) as [[-> ->]|[-> ->]] by lia; lia.
Qed.

(** The neighbours with [d8x = 0] are the cell above and the cell below. *)
Lemma sum_over_straight_up (f : Z -> Z -> Z) :
  sumZ (fun n => if d8x n =? 0 then f (d8x n) (d8y n) else 0) (seqZ 1 8)
  = f 0 (-1) + f 0 1.
Proof.
  pose proof square as Hsq. unfold table_square in Hsq.
  apply andb_prop in Hsq as [Hup _].
  rewrite (sumZ_list_filter (fun n => d8x n =? 0)).
  rewrite (sumZ_ext _ (fun n => f 0 (d8y n))).
  - rewrite <- (sumZ_map d8y (f 0)). by apply plus_minus_sum.
  - intros n Hn. apply list_elem_of_In, filter_In in Hn as [_ Hn].
    apply Z.eqb_eq in Hn. by rewrite Hn.
Qed.

(** The other neighbours with [d8y = 0] are the cells to the left and to
    the right. *)
Lemma sum_over_straight_side (f : Z -> Z -> Z) :
  sumZ (fun n => if negb (d8x n =? 0) && (d8y n =? 0)
                 then f (d8x n) (d8y n) else 0) (seqZ 1 8)
  = f (-1) 0 + f 1 0.
Proof.
  pose proof square as Hsq. unfold table_square in Hsq.
  apply andb_prop in Hsq as [_ Hside].
  rewrite (sumZ_list_filter (fun n => negb (d8x n =? 0) && (d8y n =? 0))).
  rewrite (sumZ_ext _ (fun n => f (d8x n) 0)).
  - rewrite <- (sumZ_map d8x (fun ox => f ox 0)). by apply plus_minus_sum.
  - intros n Hn. apply list_elem_of_In, filter_In in Hn as [_ Hn].
    apply andb_prop in Hn as [_ Hn]. apply Z.eqb_eq in Hn. by rewrite Hn.
Qed.

Lemma plus_minus_elem (l : list Z) :
  match l with
  | [a; b] => ((a =? -1) && (b =? 1)) || ((a =? 1) && (b =? -1))
  | _ => false
  end = true ->
  In (-1) l /\ In 1 l.
Proof.
  destruct l as [|a [|b [|? ?]]]; try done. intros H.
  assert ((a = -1 /\ b = 1) \/ (a = 1 /\ b = -1)) as [[-> ->]|[-> ->]] by lia;
    cbn; auto.
Qed.

Lemma straight_offsets :
  (exists n, 1 <= n <= 8 /\ d8x n = 0 /\ d8y n = -1) /\
  (exists n, 1 <= n <= 8 /\ d8x n = 0 /\ d8y n = 1) /\
  (exists n, 1 <= n <= 8 /\ d8x n = -1 /\ d8y n = 0) /\
  (exists n, 1 <= n <= 8 /\ d8x n = 1 /\ d8y n = 0).
Proof.
  pose proof square as Hsq. unfold table_square in Hsq.
  apply andb_prop in Hsq as [Hup Hside].
  apply plus_minus_elem in Hup as [Hu1 Hu2].
  apply plus_minus_elem in Hside as [Hs1 Hs2].
  apply in_map_iff in Hu1 as (n1 & E1 & [Hn1 Hp1]%filter_In).
  apply in_map_iff in Hu2 as (n2 & E2 & [Hn2 Hp2]%filter_In).
  apply in_map_iff in Hs1 as (n3 & E3 & [Hn3 Hp3]%filter_In).
  apply in_map_iff in Hs2 as (n4 & E4 & [Hn4 Hp4]%filter_In).
  apply list_elem_of_In, elem_of_seqZ in Hn1, Hn2, Hn3, Hn4.
  split_and!; [exists n1|exists n2|exists n3|exists n4]; lia.
Qed.

Lemma touches_outside_is_edge arr x y :
  inGrid arr x y = true ->
  existsb (fun n => negb (inGrid arr (x + d8x n) (y + d8y n))) (seqZ 1 8)
  = isEdgeCell arr x y.
Proof.
  intros Hg. apply Bool.eq_iff_eq_true. rewrite existsb_exists. split.
  - intros (n & Hn & Hout). apply list_elem_of_In, elem_of_seqZ in Hn.
    destruct (table_bounds tables n) as [Hx Hy]; [unfold is_direction; lia|].
    unfold inGrid, isEdgeCell in *. lia.
  - intros Hedge.
    destruct straight_offsets
      as ((n1 & Hn1 & Hx1 & Hy1) & (n2 & Hn2 & Hx2 & Hy2)
          & (n3 & Hn3 & Hx3 & Hy3) & (n4 & Hn4 & Hx4 & Hy4)).
    assert (Hin : forall n, 1 <= n <= 8 -> In n (seqZ 1 8)).
    { intros n Hn. apply list_elem_of_In, elem_of_seqZ. lia. }
    unfold inGrid, isEdgeCell in *.
    destruct (Z.eq_dec x 0) as [Ex|Nx].
    { exists n3. split; [by apply Hin|]. rewrite Hx3, Hy3. lia. }
    destruct (Z.eq_dec y 0) as [Ey|Ny].
    { exists n1. split; [by apply Hin|]. rewrite Hx1, Hy1. lia. }
    destruct (Z.eq_dec x (width arr - 1)) as [Ex|Nx'].
    { exists n4. split; [by apply Hin|]. rewrite Hx4, Hy4. lia. }
    exists n2. split; [by apply Hin|]. rewrite Hx2, Hy2. lia.
Qed.

Lemma over_data_cells_ext arr (f g : Z -> Z -> Z) :
  (forall x y, inGrid arr x y = true -> isNoData_xy arr x y = false ->
               f x y = g x y) ->
  over_data_cells arr f = over_data_cells arr g.
Proof.
  intros H. unfold over_data_cells.
  apply sumZ_ext. intros y Hy. apply sumZ_ext. intros x Hx.
  apply elem_of_seqZ in Hx, Hy.
  destruct (isNoData_xy arr x y) eqn:E; [done|].
  apply H; [unfold inGrid; lia|done].
Qed.

(** X19. Perimeter with CELL_COUNT counts, modulo 2^32, the data cells on
    the edge of the grid, each once, and nothing else: a data cell beside a
    no-data cell is not counted unless it is on the edge of the grid. The
    two other counters stay 0. *)
Theorem Perimeter_cell_count_is_the_grid_edge arr :
  cell_edges (Perimeter arr CELL_COUNT)
  = to_uint32 (over_data_cells arr
                 (fun x y => if isEdgeCell arr x y then 1 else 0)) /\
  vertical_edges (Perimeter arr CELL_COUNT) = 0 /\
  horizontal_edges (Perimeter arr CELL_COUNT) = 0.
Proof.
  rewrite Perimeter_cell_count_spec.
  cbn [counts cell_edges vertical_edges horizontal_edges].
  split; [|done]. f_equal. apply over_data_cells_ext.
  intros x y Hg _. by rewrite touches_outside_is_edge.
Qed.

(** X20. Perimeter with SQUARE_EDGE counts, modulo 2^32, in
    horizontal_edges the upper and lower sides of data cells that face a
    place outside the grid or a no-data cell, and in vertical_edges the left
    and right sides that do; the diagonal neighbours add nothing, and
    cell_edges stays 0. *)
Theorem Perimeter_square_edge_counts_open_sides arr :
  horizontal_edges (Perimeter arr SQUARE_EDGE)
  = to_uint32 (over_data_cells arr
                 (fun x y => open_side arr x (y - 1) + open_side arr x (y + 1))) /\
  vertical_edges (Perimeter arr SQUARE_EDGE)
  = to_uint32 (over_data_cells arr
                 (fun x y => open_side arr (x - 1) y + open_side arr (x + 1) y)) /\
  cell_edges (Perimeter arr SQUARE_EDGE) = 0.
Proof.
  rewrite Perimeter_square_edge_spec.
  cbn [counts cell_edges vertical_edges horizontal_edges].
  split_and!; [| |done]; f_equal; apply over_data_cells_ext; intros x y _ _.
  - rewrite (sum_over_straight_up (fun ox oy => open_side arr (x + ox) (y + oy))).
    by rewrite Z.add_0_r.
  - rewrite (sum_over_straight_side (fun ox oy => open_side arr (x + ox) (y + oy))).
    by rewrite Z.add_0_r.
Qed.

Lemma full_elim arr x y :
  full arr = true -> inGrid arr x y = true -> isNoData_xy arr x y = false.
Proof.
  unfold full. rewrite forallb_forall. intros H Hg.
  specialize (H (xyToI arr x y)). unfold isNoData_xy.
  apply negb_true_iff, H, list_elem_of_In, elem_of_seqZ.
  pose proof (inGrid_range _ _ _ Hg). lia.
Qed.

(** X21. On a raster with at least one row and one column and no no-data
    cell, Perimeter with SQUARE_EDGE ends with horizontal_edges = 2*width
    and vertical_edges = 2*height, modulo 2^32: the perimeter of the
    rectangle. *)
Theorem Perimeter_square_edge_of_a_full_raster arr :
  0 < width arr -> 0 < height arr -> full arr = true ->
  horizontal_edges (Perimeter arr SQUARE_EDGE) = to_uint32 (2 * width arr) /\
  vertical_edges (Perimeter arr SQUARE_EDGE) = to_uint32 (2 * height arr).
Proof.
  intros Hw Hh Hfull.
  rewrite Perimeter_square_edge_spec.
  cbn [counts cell_edges vertical_edges horizontal_edges].
  assert (Hopen : forall x y, 0 <= x < width arr -> 0 <= y < height arr ->
            forall ox oy, -1 <= ox <= 1 -> -1 <= oy <= 1 ->
            open_side arr (x + ox) (y + oy)
            = if inGrid arr (x + ox) (y + oy) then 0 else 1).
  { intros x y Hx Hy ox oy Hox Hoy. unfold open_side.
    destruct (inGrid arr (x + ox) (y + oy)) eqn:Hg; [|done].
    by rewrite (full_elim arr _ _ Hfull Hg). }
  split; f_equal.
  - rewrite (over_data_cells_ext arr _
               (fun _ y => (if y =? 0 then 1 else 0)
                           + (if y =? height arr - 1 then 1 else 0))).
    + unfold over_data_cells.
      rewrite (sumZ_ext _ (fun y => width arr * (if y =? 0 then 1 else 0)
                                    + width arr * (if y =? height arr - 1 then 1 else 0))).
      * rewrite sumZ_add.
        rewrite (sumZ_ext (fun y => width arr * (if y =? 0 then 1 else 0))
                          (fun y => if y =? 0 then width arr else 0));
          [|intros y _; destruct (y =? 0); lia].
        rewrite (sumZ_ext (fun y => width arr * (if y =? height arr - 1 then 1 else 0))
                          (fun y => if y =? height arr - 1 then width arr else 0));
          [|intros y _; destruct (y =? height arr - 1); lia].
        rewrite !sumZ_at by lia. lia.
      * intros y Hy. apply elem_of_seqZ in Hy.
        rewrite (sumZ_ext _ (fun _ => (if y =? 0 then 1 else 0)
                                      + (if y =? height arr - 1 then 1 else 0))).
        -- rewrite sumZ_const, length_seqZ. lia.
        -- intros x Hx. apply elem_of_seqZ in Hx.
           rewrite (full_elim arr x y Hfull); [done|unfold inGrid; lia].
    + intros x y Hg _. unfold inGrid in Hg.
      rewrite (sum_over_straight_up (fun ox oy => open_side arr (x + ox) (y + oy))).
      rewrite !Hopen by lia. unfold inGrid.
      destruct (Z.eqb_spec y 0), (Z.eqb_spec y (height arr - 1));
        repeat match goal with |- context [if ?b then _ else _] =>
                 let E := fresh in destruct b eqn:E end; lia.
  - rewrite (over_data_cells_ext arr _
               (fun x _ => (if x =? 0 then 1 else 0)
                           + (if x =? width arr - 1 then 1 else 0))).
    + unfold over_data_cells.
      rewrite (sumZ_ext _ (fun _ => 2)).
      * rewrite sumZ_const, length_seqZ. lia.
      * intros y Hy. apply elem_of_seqZ in Hy.
        rewrite (sumZ_ext _ (fun x => (if x =? 0 then 1 else 0)
                                      + (if x =? width arr - 1 then 1 else 0))).
        -- rewrite sumZ_add, !sumZ_at by lia. lia.
        -- intros x Hx. apply elem_of_seqZ in Hx.
           rewrite (full_elim arr x y Hfull); [done|unfold inGrid; lia].
    + intros x y Hg _. unfold inGrid in Hg.
      rewrite (sum_over_straight_side (fun ox oy => open_side arr (x + ox) (y + oy))).
      rewrite !Hopen by lia. unfold inGrid.
      destruct (Z.eqb_spec x 0), (Z.eqb_spec x (width arr - 1));
        repeat match goal with |- context [if ?b then _ else _] =>
                 let E := fresh in destruct b eqn:E end; lia.
Qed.

End PerimeterTables.
(** ** The theorems at [walled], [blank] and [ring] *)

(** From the corner the fill stops at the wall; from the edges it passes on
    both sides of it. *)
Example walled_fills :
  BucketFill 109 D8 walled blank 7 1 [0]
  = Filled [1; 1; 0; 0;
            1; 1; 0; 0;
            1; 1; 0; 0] /\
  BucketFillFromEdges 122 D8 walled blank 7 1
  = Filled [1; 1; 0; 1;
            1; 1; 0; 1;
            1; 1; 0; 1].
Proof. split; reflexivity. Qed.

(** The eight cells around the hole of [ring] are not counted as cells of
    the perimeter, and the four sides of the hole are counted as edges. *)
Example ring_perimeter :
  Perimeter ring CELL_COUNT = mkEdges 0 0 16 /\
  Perimeter ring SQUARE_EDGE = mkEdges 12 12 0.
Proof. split; reflexivity. Qed.

Lemma BucketFill_paints_what_is_connected_witness :
  raster_ok walled = true /\ raster_ok blank = true /\
  width walled = width blank /\ height walled = height blank /\
  (forall c, c ∈ [0] -> 0 <= c < size walled) /\
  (fill_fuel D8 walled [0%Z] <= 109)%nat /\
  exists d,
    BucketFill 109 D8 walled blank 7 1 [0] = Filled d /\
    length d = length (data blank) /\
    forall i, 0 <= i < size walled ->
      (connected D8 walled (data blank) 7 1 [0] i -> rd d i = 1) /\
      (~ connected D8 walled (data blank) 7 1 [0] i ->
       rd d i = rd (data blank) i).
Proof.
  assert (Hseeds : forall c, c ∈ [0] -> 0 <= c < size walled).
  { intros c Hc. apply list_elem_of_singleton in Hc. subst c. vm_compute.
    by split. }
  split; [reflexivity|]. split; [reflexivity|]. split; [reflexivity|].
  split; [reflexivity|]. split; [exact Hseeds|]. split; [vm_compute; lia|].
  apply BucketFill_paints_what_is_connected;
    [reflexivity|reflexivity|reflexivity|reflexivity|exact Hseeds|vm_compute; lia].
Defined.

Lemma BucketFill_again_changes_nothing_witness :
  raster_ok walled = true /\ raster_ok blank = true /\
  width walled = width blank /\ height walled = height blank /\
  (forall c, c ∈ [0] -> 0 <= c < size walled) /\
  (fill_fuel D8 walled [0%Z] <= 109)%nat /\
  exists d,
    BucketFill 109 D8 walled blank 7 1 [0] = Filled d /\
    forall fuel', (length [0%Z] <= fuel')%nat ->
      BucketFill fuel' D8 walled
                 (mkArray2D (width blank) (height blank) d (noData blank))
                 7 1 [0]
      = Filled d.
Proof.
  assert (Hseeds : forall c, c ∈ [0] -> 0 <= c < size walled).
  { intros c Hc. apply list_elem_of_singleton in Hc. subst c. vm_compute.
    by split. }
  split; [reflexivity|]. split; [reflexivity|]. split; [reflexivity|].
  split; [reflexivity|]. split; [exact Hseeds|]. split; [vm_compute; lia|].
  apply BucketFill_again_changes_nothing;
    [reflexivity|reflexivity|reflexivity|reflexivity|exact Hseeds|vm_compute; lia].
Defined.


Lemma BucketFillFromEdges_paints_from_the_edge_witness :
  raster_ok walled = true /\ raster_ok blank = true /\
  width walled = width blank /\ height walled = height blank /\
  0 < width walled /\ 0 < height walled /\
  (fill_fuel D8 walled (edge_seeds walled) <= 122)%nat /\
  (forall c, c ∈ edge_seeds walled <->
             0 <= c < size walled /\
             isEdgeCell walled (iToxy walled c).1 (iToxy walled c).2 = true) /\
  exists d,
    BucketFillFromEdges 122 D8 walled blank 7 1 = Filled d /\
    length d = length (data blank) /\
    forall i, 0 <= i < size walled ->
      (connected D8 walled (data blank) 7 1 (edge_seeds walled) i ->
       rd d i = 1) /\
      (~ connected D8 walled (data blank) 7 1 (edge_seeds walled) i ->
       rd d i = rd (data blank) i).
Proof.
  split; [reflexivity|]. split; [reflexivity|]. split; [reflexivity|].
  split; [reflexivity|]. split; [reflexivity|]. split; [reflexivity|].
  split; [vm_compute; lia|].
  apply BucketFillFromEdges_paints_from_the_edge;
    [reflexivity|reflexivity|reflexivity|reflexivity|reflexivity|reflexivity
    |vm_compute; lia].
Defined.

Lemma Perimeter_cell_count_is_the_grid_edge_witness :
  table_ok = true /\ table_square = true /\
  cell_edges (Perimeter ring CELL_COUNT)
  = to_uint32 (over_data_cells ring
                 (fun x y => if isEdgeCell ring x y then 1 else 0)) /\
  vertical_edges (Perimeter ring CELL_COUNT) = 0 /\
  horizontal_edges (Perimeter ring CELL_COUNT) = 0.
Proof.
  split; [reflexivity|]. split; [reflexivity|].
  apply Perimeter_cell_count_is_the_grid_edge; reflexivity.
Defined.

Lemma Perimeter_square_edge_counts_open_sides_witness :
  table_square = true /\
  horizontal_edges (Perimeter ring SQUARE_EDGE)
  = to_uint32 (over_data_cells ring
                 (fun x y => open_side ring x (y - 1) + open_side ring x (y + 1))) /\
  vertical_edges (Perimeter ring SQUARE_EDGE)
  = to_uint32 (over_data_cells ring
                 (fun x y => open_side ring (x - 1) y + open_side ring (x + 1) y)) /\
  cell_edges (Perimeter ring SQUARE_EDGE) = 0.
Proof.
  split; [reflexivity|].
  apply Perimeter_square_edge_counts_open_sides; reflexivity.
Defined.

Lemma Perimeter_square_edge_of_a_full_raster_witness :
  table_square = true /\ 0 < width blank /\ 0 < height blank /\
  full blank = true /\
  horizontal_edges (Perimeter blank SQUARE_EDGE) = to_uint32 (2 * width blank) /\
  vertical_edges (Perimeter blank SQUARE_EDGE) = to_uint32 (2 * height blank).
Proof.
  split; [reflexivity|]. split; [reflexivity|]. split; [reflexivity|].
  split; [reflexivity|].
  apply Perimeter_square_edge_of_a_full_raster; reflexivity.
Defined.

End TerrainFacts.
